(** * jsqi: a small boolean query interpreter

    Shallow embedding of [src/jsqi.js] (lexer, precedence-climbing parser
    with the implicit "lazy" operator, fuzzy term evaluation over a shared
    match context, and the memoising interpreter facade), followed by the
    properties of the specification that were checked against it.

    Modelling conventions.
    - A JavaScript string is a [string], its code units taken among the
      256 of [ascii]; a "character" as returned by [charAt] is a string of
      length 0 or 1, exactly as in the source.
    - Objects with mutable fields are records threaded through a state and
      exception monad; the state survives a [throw], as the mutated object
      does in JavaScript.
    - [throw new Error(msg + ' (' + pos + ')')] is modelled by an [Error]
      value carrying which message it is and the position.
    - The recursive-descent functions take a [fuel] bounding the depth of
      the call stack; [OutOfFuel] is the outcome of exhausting it.  The
      [while] loops are bounded by what they consume, and shown not to
      depend on the bound.
    - The parser is written over the interface it uses of its input, as its
      constructor accepts any object with that interface; this lets the
      parse of a query be computed on the list of its tokens.
    - [console.log] output is not part of the model. *)

From Stdlib Require Import String Ascii ZArith Lia Bool List.
From stdpp Require Import base option gmap strings.

Local Open Scope string_scope.

(* stdpp blocks the unfolding of string concatenation by [simpl]. *)
#[local] Arguments String.append !s1 s2 : simpl nomatch.

(** ** JavaScript string primitives *)

Module JS.

(** The one-character string holding the double quote. *)
Definition dquote : string := String "034"%char EmptyString.

(** The one-character string holding the backslash. *)
Definition backslash : string := String "092"%char EmptyString.

(** [s.charAt(i)]: the empty string when [i] is out of range. *)
Definition charAt (s : string) (i : nat) : string :=
  match String.get i s with
  | Some c => String c EmptyString
  | None => EmptyString
  end.

(** [s.substring(a, b)]: both indices are clamped to the length and
    swapped if needed.  A negative argument is treated as [0] by
    JavaScript, which is what truncated subtraction on [nat] yields at
    the call site in [Term.exec]. *)
Definition substring (s : string) (a b : nat) : string :=
  let a' := Nat.min a (String.length s) in
  let b' := Nat.min b (String.length s) in
  String.substring (Nat.min a' b') (Nat.max a' b' - Nat.min a' b') s.

(** [v] is a prefix of [s]. *)
Fixpoint starts_with (v s : string) : bool :=
  match v, s with
  | EmptyString, _ => true
  | String c v', String d s' => Ascii.eqb c d && starts_with v' s'
  | String _ _, EmptyString => false
  end.

(** Offset of the first occurrence of [v] in [s], if any. *)
Fixpoint find (s v : string) : option nat :=
  if starts_with v s then Some 0
  else match s with
       | EmptyString => None
       | String _ s' => S <$> find s' v
       end.

(** [s.indexOf(v)]: [-1] when [v] does not occur. *)
Definition indexOf (s v : string) : Z :=
  match find s v with
  | Some i => Z.of_nat i
  | None => (-1)%Z
  end.

(** [Math.ceil(n / d)] on non-negative integers. *)
Definition ceil_div (n d : nat) : nat := (n + (d - 1)) / d.

(** Truthiness of a string: only the empty string is falsy. *)
Definition truthy (s : string) : bool :=
  match s with EmptyString => false | _ => true end.

(** Truthiness of a value that is an object or [null]/[false]. *)
Definition defined {A} (o : option A) : bool :=
  match o with Some _ => true | None => false end.

(** [/[a-z0-9]/i.test(ch)]: some character of [ch] is an ASCII letter or
    digit. *)
Definition alnum (c : ascii) : bool :=
  let n := nat_of_ascii c in
  (((48 <=? n) && (n <=? 57)) || ((65 <=? n) && (n <=? 90))
   || ((97 <=? n) && (n <=? 122)))%nat.

Fixpoint test_alnum (ch : string) : bool :=
  match ch with
  | EmptyString => false
  | String c rest => alnum c || test_alnum rest
  end.

End JS.

(** ** Tokens and errors *)

(** A token object: [{type: ..., value: ...}]; [value] is absent on the
    ['!'], ['&'] and ['|'] tokens. *)
Record Token := mkToken { tok_type : string; tok_value : option string }.

Inductive ErrorMsg :=
| UnexpectedCharacter (ch : string)        (* 'Unexpected character: ' + ch *)
| UnexpectedToken (tok : option Token)     (* 'Unexpected token: ' + JSON *)
| ExpectingPunctuation (ch : string)       (* 'Expecting punctuation: ' + ch *)
| CannotMixLazy                            (* 'Cannot mix lazy and non lazy operator' *)
| TypeError.                               (* property access on null or undefined *)

Record Error := mkError { err_msg : ErrorMsg; err_pos : nat }.

(** ** The state and exception monad *)

Inductive outcome (A : Type) :=
| Return (a : A)
| Throw (e : Error)
| OutOfFuel.
Arguments Return {A} a.
Arguments Throw {A} e.
Arguments OutOfFuel {A}.

Definition M (S A : Type) : Type := S -> outcome A * S.

Definition ret {S A} (a : A) : M S A := fun s => (Return a, s).

Definition bind {S A B} (m : M S A) (k : A -> M S B) : M S B :=
  fun s =>
    match m s with
    | (Return a, s') => k a s'
    | (Throw e, s') => (Throw e, s')
    | (OutOfFuel, s') => (OutOfFuel, s')
    end.

Definition out_of_fuel {S A} : M S A := fun s => (OutOfFuel, s).

Notation "'let*' x ':=' m 'in' k" := (bind m (fun x => k))
  (at level 10, x name, m at level 100, k at level 200).
Notation "m ';;' k" := (bind m (fun _ => k))
  (at level 100, k at level 200, right associativity).

(** Run a computation on a sub-object held in a field of the state. *)
Definition on_field {S T A} (get : S -> T) (set : T -> S -> S)
    (m : M T A) : M S A :=
  fun s => let '(r, t') := m (get s) in (r, set t' s).

(** ** InputStream *)

Module InputStream.

Record t := mk { pos : nat; input : string }.

Definition new (input : string) : t := mk 0 input.

Definition next : M t string :=
  fun s => (Return (JS.charAt (input s) (pos s)), mk (S (pos s)) (input s)).

Definition peek : M t string :=
  fun s => (Return (JS.charAt (input s) (pos s)), s).

Definition eof : M t bool :=
  let* ch := peek in ret (String.eqb ch "").

Definition throw {A} (msg : ErrorMsg) : M t A :=
  fun s => (Throw (mkError msg (pos s)), s).

End InputStream.

(** ** TokenStream *)

Module TokenStream.

Record t := mk { current : option Token; input : InputStream.t }.

Definition new (input : string) : t := mk None (InputStream.new input).

Definition on_input {A} : M InputStream.t A -> M t A :=
  on_field input (fun i s => mk (current s) i).

Definition is_ch_whitespace (ch : string) : bool := String.eqb ch " ".

Definition is_ch_term (ch : string) : bool := JS.test_alnum ch.

Definition is_ch_op (ch : string) : bool := (0 <=? JS.indexOf "&|" ch)%Z.

Definition is_ch_punc (ch : string) : bool := (0 <=? JS.indexOf "()" ch)%Z.

(** The loop of [read_escaped]; every iteration consumes one character,
    so [fuel] never has to exceed the number of characters left. *)
Fixpoint read_escaped_loop (fuel : nat) (end_ : string) (escaped : bool)
    (str : string) : M t string :=
  match fuel with
  | 0 => ret str
  | S fuel' =>
      let* e := on_input InputStream.eof in
      if negb e then
        let* ch := on_input InputStream.next in
        if escaped then read_escaped_loop fuel' end_ false (str ++ ch)
        else if String.eqb ch JS.backslash then
               read_escaped_loop fuel' end_ true str
        else if String.eqb ch end_ then ret str
        else read_escaped_loop fuel' end_ false (str ++ ch)
      else ret str
  end.

Definition read_escaped (end_ : string) : M t string :=
  fun s =>
    (on_input InputStream.next ;;
     read_escaped_loop (String.length (InputStream.input (input s)))
       end_ false "") s.

(** The loop of [read_while], with the same bound on its iterations. *)
Fixpoint read_while_loop (fuel : nat) (predicate : string -> bool)
    (str : string) : M t string :=
  match fuel with
  | 0 => ret str
  | S fuel' =>
      let* e := on_input InputStream.eof in
      let* ch := on_input InputStream.peek in
      if negb e && predicate ch then
        let* c := on_input InputStream.next in
        read_while_loop fuel' predicate (str ++ c)
      else ret str
  end.

Definition read_while (predicate : string -> bool) : M t string :=
  fun s =>
    read_while_loop (String.length (InputStream.input (input s)))
      predicate "" s.

Definition read_string : M t Token :=
  let* v := read_escaped JS.dquote in ret (mkToken "term" (Some v)).

Definition read_term : M t Token :=
  let* v := read_while is_ch_term in ret (mkToken "term" (Some v)).

Definition throw {A} (msg : ErrorMsg) : M t A :=
  on_input (InputStream.throw msg).

Definition read_next : M t (option Token) :=
  read_while is_ch_whitespace ;;
  let* e := on_input InputStream.eof in
  if e then ret None
  else
    let* ch := on_input InputStream.peek in
    if String.eqb ch JS.dquote then
      let* tok := read_string in ret (Some tok)
    else if String.eqb ch "!" then
      let* ty := on_input InputStream.next in ret (Some (mkToken ty None))
    else if is_ch_term ch then
      let* tok := read_term in ret (Some tok)
    else if is_ch_op ch then
      let* ty := on_input InputStream.next in ret (Some (mkToken ty None))
    else if is_ch_punc ch then
      let* v := on_input InputStream.next in
      ret (Some (mkToken "punc" (Some v)))
    else throw (UnexpectedCharacter ch).

Definition peek : M t (option Token) :=
  fun s =>
    match current s with
    | Some tok => (Return (Some tok), s)
    | None =>
        (let* tok := read_next in
         fun s' => (Return tok, mk tok (input s'))) s
    end.

Definition next : M t (option Token) :=
  fun s =>
    let tok := current s in
    let s' := mk None (input s) in
    match tok with
    | Some _ => (Return tok, s')
    | None => read_next s'
    end.

Definition eof : M t bool :=
  let* tok := peek in ret (match tok with None => true | Some _ => false end).

End TokenStream.

(** ** Abstract syntax *)

(** The three node classes.  [tolerance] is the field computed by the
    constructor of [Term]; [type] of an [Op] is the operator token's type. *)
Inductive Node :=
| Term (value : string) (tolerance : nat)
| Not (value : Node)
| Op (type : string) (left right : Node).

(** [new Term(value)]. *)
Definition new_Term (value : string) : Node :=
  Term value (JS.ceil_div (String.length value) 4).

(** ** Parser *)

(** What [Parser] asks of its input.  The constructor takes a query string,
    which it wraps in a [TokenStream], or any object that has the four
    methods the parser calls: [peek], [next], [eof] and [throw]. *)
Class TokenSource (Src : Type) := {
  source_peek : M Src (option Token);
  source_next : M Src (option Token);
  source_eof : M Src bool;
  source_throw : forall {A : Type}, ErrorMsg -> M Src A
}.

#[export] Instance TokenStream_source : TokenSource TokenStream.t := {|
  source_peek := TokenStream.peek;
  source_next := TokenStream.next;
  source_eof := TokenStream.eof;
  source_throw := @TokenStream.throw
|}.

Module Parser.

Section Source.

Context {Src : Type} {source : TokenSource Src}.

Record t := mk { input : Src; is_lazy : option bool }.

Definition on_input {A} : M Src A -> M t A :=
  on_field input (fun i s => mk i (is_lazy s)).

Definition get_is_lazy : M t (option bool) := fun s => (Return (is_lazy s), s).

Definition set_is_lazy (b : bool) : M t unit :=
  fun s => (Return tt, mk (input s) (Some b)).

Definition _precedence (ty : string) : option nat :=
  if String.eqb ty "|" then Some 1
  else if String.eqb ty "&" then Some 2
  else None.

Definition unexpected {A} : M t A :=
  let* tok := on_input source_peek in
  on_input (source_throw (UnexpectedToken tok)).

(** The predicates return the token itself or a falsy value. *)
Definition is_punc (ch : string) : M t (option Token) :=
  let* tok := on_input source_peek in
  ret (match tok with
       | Some tk =>
           if String.eqb (tok_type tk) "punc"
              && (negb (JS.truthy ch)
                  || match tok_value tk with
                     | Some v => String.eqb v ch
                     | None => false
                     end)
           then Some tk else None
       | None => None
       end).

Definition is_op : M t (option Token) :=
  let* tok := on_input source_peek in
  ret (match tok with
       | Some tk =>
           if String.eqb (tok_type tk) "&" || String.eqb (tok_type tk) "|"
           then Some tk else None
       | None => None
       end).

Definition is_not : M t (option Token) :=
  let* tok := on_input source_peek in
  ret (match tok with
       | Some tk => if String.eqb (tok_type tk) "!" then Some tk else None
       | None => None
       end).

Definition is_term : M t (option Token) :=
  let* tok := on_input source_peek in
  ret (match tok with
       | Some tk => if String.eqb (tok_type tk) "term" then Some tk else None
       | None => None
       end).

Definition skip_punc (ch : string) : M t unit :=
  let* p := is_punc ch in
  if JS.defined p then on_input source_next ;; ret tt
  else on_input (source_throw (ExpectingPunctuation ch)).

Definition throw_lazy {A} : M t A :=
  on_input (source_throw CannotMixLazy).

Definition parse_term : M t Node :=
  let* tok := on_input source_next in
  match tok with
  | Some (mkToken _ (Some v)) => ret (new_Term v)
  | _ => on_input (source_throw TypeError)
  end.

(** The mutually recursive descent.  [operand_expr] is the anonymous
    function that [parse_operand] hands to [lazy_operator], its only
    caller. *)
Fixpoint parse_operand (fuel : nat) (parse_op : bool) : M t Node :=
  match fuel with
  | 0 => out_of_fuel
  | S fuel' =>
      if parse_op then
        let* operand := parse_operand fuel' false in
        parse_operator fuel' operand 0
      else lazy_operator fuel'
  end

with operand_expr (fuel : nat) : M t Node :=
  match fuel with
  | 0 => out_of_fuel
  | S fuel' =>
      let* n := is_not in
      if JS.defined n then parse_not fuel'
      else
        let* p := is_punc "(" in
        if JS.defined p then parse_operands fuel'
        else
          let* tm := is_term in
          if JS.defined tm then parse_term else unexpected
  end

with lazy_operator (fuel : nat) : M t Node :=
  match fuel with
  | 0 => out_of_fuel
  | S fuel' =>
      let* expr := operand_expr fuel' in
      let* e := on_input source_eof in
      if e then ret expr
      else
        let* o := is_op in
        if JS.defined o then ret expr
        else
          let* p := is_punc ")" in
          if JS.defined p then ret expr
          else
            let* lz := get_is_lazy in
            (match lz with
             | Some false => throw_lazy
             | _ => set_is_lazy true
             end) ;;
            let* right := parse_operand fuel' true in
            ret (Op "|" expr right)
  end

with parse_operator (fuel : nat) (left : Node) (prec : nat) : M t Node :=
  match fuel with
  | 0 => out_of_fuel
  | S fuel' =>
      let* tok := is_op in
      match tok with
      | Some tk =>
          let* lz := get_is_lazy in
          (match lz with
           | Some true => throw_lazy
           | _ => set_is_lazy false
           end) ;;
          match _precedence (tok_type tk) with
          | Some next =>
              if (prec <? next)%nat then
                on_input source_next ;;
                let* operand := parse_operand fuel' false in
                let* right := parse_operator fuel' operand next in
                parse_operator fuel' (Op (tok_type tk) left right) prec
              else ret left
          | None => ret left
          end
      | None => ret left
      end
  end

with parse_not (fuel : nat) : M t Node :=
  match fuel with
  | 0 => out_of_fuel
  | S fuel' =>
      on_input source_next ;;
      let* v := parse_operand fuel' false in
      ret (Not v)
  end

with parse_operands (fuel : nat) : M t Node :=
  match fuel with
  | 0 => out_of_fuel
  | S fuel' =>
      skip_punc "(" ;;
      let* operands := parse_operand fuel' true in
      skip_punc ")" ;;
      ret operands
  end.

End Source.

Arguments t Src : clear implicits.
Arguments mk {Src} input is_lazy.

(** [new Parser(input)] on a query string. *)
Definition new (input : string) : t TokenStream.t :=
  mk (TokenStream.new input) None.

End Parser.

(** ** Match context and evaluation *)

(** The object stored per offset: [{length: ..., gap: ...}]. *)
Record Entry := mkEntry { entry_length : nat; entry_gap : nat }.

Module Context.

(** The own properties a context ever receives: [term], created on
    demand by [get('term')], and [success], set by the interpreter. *)
Record t := mk { term : option (gmap Z Entry); success : option bool }.

Definition new : t := mk None None.

(** [get('term')]: creates the empty object when the property is
    missing, and returns the stored object. *)
Definition get_term (c : t) : gmap Z Entry * t :=
  match term c with
  | Some m => (m, c)
  | None => (∅, mk (Some ∅) (success c))
  end.

(** Assignment through the reference returned by [get('term')]. *)
Definition set_term_at (index : Z) (e : Entry) (c : t) : t :=
  let '(m, c') := get_term c in
  mk (Some (<[index := e]> m)) (success c').

Definition set_success (b : bool) (c : t) : t := mk (term c) (Some b).

(** Reading [context.term[index]]. *)
Definition lookup (c : t) (index : Z) : option Entry :=
  match term c with
  | Some m => m !! index
  | None => None
  end.

End Context.

(** [Term.match]: [this_value] is [this.value]. *)
Definition Term_match (this_value str value : string) (context : Context.t)
    : bool * Context.t :=
  let index := JS.indexOf str value in
  if (index =? -1)%Z then (false, context)
  else
    (true,
     Context.set_term_at index
       (mkEntry (String.length value)
          (String.length this_value - String.length value))
       context).

(** The loop of [Term.exec]; the state is [(gap, match, context)].  It runs
    at most [tolerance + 1] times. *)
Fixpoint Term_exec_loop (fuel : nat) (this_value : string) (tolerance : nat)
    (str : string) (gap : nat) (match_ : bool) (context : Context.t)
    : nat * bool * Context.t :=
  match fuel with
  | 0 => (gap, match_, context)
  | S fuel' =>
      if (gap <=? tolerance)%nat && negb match_ then
        let value :=
          JS.substring this_value 0 (String.length this_value - gap) in
        let '(m, context') := Term_match this_value str value context in
        Term_exec_loop fuel' this_value tolerance str (S gap) m context'
      else (gap, match_, context)
  end.

Definition Term_exec (this_value : string) (tolerance : nat) (str : string)
    (context : Context.t) : bool * Context.t :=
  let '(_, m, c) :=
    Term_exec_loop (S (S tolerance)) this_value tolerance str 0 false context in
  (m, c).

(** [exec] of the three node classes. *)
Fixpoint exec (n : Node) (str : string) (context : Context.t)
    : bool * Context.t :=
  match n with
  | Term value tolerance => Term_exec value tolerance str context
  | Not value =>
      let '(r, c) := exec value str context in (negb r, c)
  | Op type l r =>
      let '(left_, c1) := exec l str context in
      let '(right_, c2) := exec r str c1 in
      (if String.eqb type "&" then left_ && right_ else left_ || right_, c2)
  end.

(** ** Interpreter *)

Module Interpreter.

(** [parses] is a ghost counter, absent from the source: it counts the
    calls of [parse_operand] made by [compile]. *)
Record t :=
  mk { input : Parser.t TokenStream.t; value : option Node; parses : nat }.

Definition new (input : string) : t := mk (Parser.new input) None 0.

Definition compile (fuel : nat) : M t Node :=
  fun i =>
    match value i with
    | Some v => (Return v, i)
    | None =>
        match Parser.parse_operand fuel true (input i) with
        | (Return n, p) => (Return n, mk p (Some n) (S (parses i)))
        | (Throw e, p) => (Throw e, mk p None (S (parses i)))
        | (OutOfFuel, p) => (OutOfFuel, mk p None (S (parses i)))
        end
    end.

Definition exec (fuel : nat) (str : string) : M t Context.t :=
  let context := Context.new in
  let* root := compile fuel in
  let '(success, context') := exec root str context in
  ret (Context.set_success success context').

End Interpreter.

(** ** Specification-side notions on strings *)

(** [v] occurs in [s] at offset [i]. *)
Definition occurs_at (v s : string) (i : nat) : Prop :=
  exists pre post, s = pre ++ v ++ post /\ String.length pre = i.

(** [i] is the offset of the first occurrence of [v] in [s]. *)
Definition first_occurrence (v s : string) (i : nat) : Prop :=
  occurs_at v s i /\ forall j, j < i -> ~ occurs_at v s j.

(** The prefix [v[0 .. k)]. *)
Fixpoint str_take (k : nat) (v : string) : string :=
  match k, v with
  | S k', String c v' => String c (str_take k' v')
  | _, _ => EmptyString
  end.

(** The candidate tried by a term of value [v] at a given gap. *)
Definition candidate (v : string) (gap : nat) : string :=
  str_take (String.length v - gap) v.

(** A node matches a subject: the boolean result of [exec]. *)
Definition matches (n : Node) (str : string) : bool :=
  fst (exec n str Context.new).

(** ** The earlier revision of [Term] kept in the repository

    [src/unnamed/part_001] holds an earlier revision of the same program.
    Its [Term.test], the predecessor of [Term.match], guards the write:
    [context.term = context.term || {}; if (!context.term[index]) {...}]. *)

Module Part001.

Definition Term_test (this_value str value : string) (context : Context.t)
    : bool * Context.t :=
  let index := JS.indexOf str value in
  if (index =? -1)%Z then (false, context)
  else
    let '(m, context') := Context.get_term context in
    match m !! index with
    | Some _ => (true, context')
    | None =>
        (true,
         Context.mk
           (Some (<[index :=
                     mkEntry (String.length value)
                       (String.length this_value - String.length value)]> m))
           (Context.success context'))
    end.

End Part001.

(** ** Fuel

    [fuel_le x y]: the run [y], made with more fuel, agrees with the run
    [x] unless [x] ran out of fuel. *)
Definition fuel_le {S A : Type} (x y : outcome A * S) : Prop :=
  fst x = OutOfFuel \/ x = y.

(** ** Sequences of calls on one interpreter *)

Inductive call :=
| Compile
| Exec (str : string).

Inductive reply :=
| Compiled (r : outcome Node)
| Executed (r : outcome Context.t).

Definition run_call (fuel : nat) (c : call) (i : Interpreter.t)
    : reply * Interpreter.t :=
  match c with
  | Compile =>
      let '(r, i') := Interpreter.compile fuel i in (Compiled r, i')
  | Exec str =>
      let '(r, i') := Interpreter.exec fuel str i in (Executed r, i')
  end.

(** Each call comes with the stack depth available to it. *)
Fixpoint run_calls (cs : list (nat * call)) (i : Interpreter.t)
    : list reply * Interpreter.t :=
  match cs with
  | [] => ([], i)
  | (fuel, c) :: cs' =>
      let '(r, i1) := run_call fuel c i in
      let '(rs, i2) := run_calls cs' i1 in
      (r :: rs, i2)
  end.

(** The context obtained by evaluating [root] on [str] from a new context
    and then setting [success]. *)
Definition evaluation (root : Node) (str : string) : Context.t :=
  let '(success, context) := exec root str Context.new in
  Context.set_success success context.

(** The reply a call gets from an interpreter whose cached tree is
    [root]. *)
Definition cached_reply (root : Node) (c : nat * call) : reply :=
  match snd c with
  | Compile => Compiled (Return root)
  | Exec str => Executed (Return (evaluation root str))
  end.

(** ** Quoted terms, specification side *)

(** [at_pos inp p x]: what is left of the input [inp] at position [p] is
    [x]. *)
Definition at_pos (inp : string) (p : nat) (x : string) : Prop :=
  exists pre, inp = pre ++ x /\ String.length pre = p.

(** [encodes w e]: [e] is a body of a quoted term that denotes [w]; a
    backslash or a double quote of [w] has to be preceded by a backslash,
    any other character may be. *)
Inductive encodes : string -> string -> Prop :=
| encodes_end : encodes "" ""
| encodes_plain (c : ascii) (w e : string) :
    c <> "092"%char -> c <> "034"%char ->
    encodes w e -> encodes (String c w) (String c e)
| encodes_escaped (c : ascii) (w e : string) :
    encodes w e -> encodes (String c w) (String "092"%char (String c e)).

(** The encoding that escapes only what has to be. *)
Fixpoint escape (w : string) : string :=
  match w with
  | EmptyString => EmptyString
  | String c w' =>
      if Ascii.eqb c "092"%char || Ascii.eqb c "034"%char
      then String "092"%char (String c (escape w'))
      else String c (escape w')
  end.

(** ** Scope of a negation, specification side *)

(** The token after a primary operand at which [lazy_operator] returns the
    operand as it is: the end of the input, an explicit operator, or a
    closing parenthesis. *)
Definition ends_operand (tok : option Token) : bool :=
  match tok with
  | None => true
  | Some tk =>
      String.eqb (tok_type tk) "&" || String.eqb (tok_type tk) "|"
      || (String.eqb (tok_type tk) "punc"
          && match tok_value tk with
             | Some v => String.eqb v ")"
             | None => false
             end)
  end.

(** ** Token sources compared

    A list of tokens is a token source too: [peek] reads its head, [next]
    removes it.  It throws at position 0, having no input position. *)
#[export] Instance list_source : TokenSource (list Token) := {|
  source_peek := fun l => (Return (head l), l);
  source_next := fun l => (Return (head l), tail l);
  source_eof := fun l => (Return (match l with [] => true | _ => false end), l);
  source_throw := fun A msg l => (Throw (mkError msg 0), l)
|}.

(** Two runs agree: same returned value with related states, or the same
    error message, or both out of fuel. *)
Definition related_outcome {A X Y : Type} (R : X -> Y -> Prop)
    (x : outcome A * X) (y : outcome A * Y) : Prop :=
  match fst x, fst y with
  | Return a, Return b => a = b /\ R (snd x) (snd y)
  | Throw e1, Throw e2 => err_msg e1 = err_msg e2
  | OutOfFuel, OutOfFuel => True
  | _, _ => False
  end.

Definition related_parser {S1 S2 : Type} (R : S1 -> S2 -> Prop)
    (p1 : Parser.t S1) (p2 : Parser.t S2) : Prop :=
  R (Parser.input p1) (Parser.input p2)
  /\ Parser.is_lazy p1 = Parser.is_lazy p2.

Definition related_run {S1 S2 A : Type} (R : S1 -> S2 -> Prop)
    (m1 : M (Parser.t S1) A) (m2 : M (Parser.t S2) A) : Prop :=
  forall p1 p2,
    related_parser R p1 p2 ->
    related_outcome (related_parser R) (m1 p1) (m2 p2).

(** The relation [R] is kept by the four methods of two sources. *)
Definition simulates {S1 S2 : Type} {src1 : TokenSource S1}
    {src2 : TokenSource S2} (R : S1 -> S2 -> Prop) : Prop :=
  forall s1 s2,
    R s1 s2 ->
    related_outcome R (source_peek s1) (source_peek s2)
    /\ related_outcome R (source_next s1) (source_next s2)
    /\ related_outcome R (source_eof s1) (source_eof s2)
    /\ forall (A : Type) msg,
        related_outcome R (source_throw (A := A) msg s1)
          (source_throw (A := A) msg s2).

(** The tokens a stream has yet to deliver, read with [next] until it
    yields [null]. *)
Fixpoint lex (fuel : nat) (s : TokenStream.t) : option (list Token) :=
  match fuel with
  | 0 => None
  | S fuel' =>
      match TokenStream.next s with
      | (Return None, _) => Some []
      | (Return (Some tok), s') => cons tok <$> lex fuel' s'
      | _ => None
      end
  end.

Definition delivers (s : TokenStream.t) (toks : list Token) : Prop :=
  exists fuel, lex fuel s = Some toks.

(** ** Token literals *)

(** A word: a non-empty run of ASCII letters and digits. *)
Fixpoint all_alnum (w : string) : bool :=
  match w with
  | EmptyString => true
  | String c w' => JS.alnum c && all_alnum w'
  end.

Definition is_word (w : string) : bool :=
  JS.truthy w && all_alnum w.

(** The tokens that have a literal: words and the five signs. *)
Inductive plain_token : Token -> Prop :=
| plain_term (w : string) :
    is_word w = true -> plain_token (mkToken "term" (Some w))
| plain_not : plain_token (mkToken "!" None)
| plain_and : plain_token (mkToken "&" None)
| plain_or : plain_token (mkToken "|" None)
| plain_open : plain_token (mkToken "punc" (Some "("))
| plain_close : plain_token (mkToken "punc" (Some ")")).

Definition literal (tok : Token) : string :=
  match tok_value tok with
  | Some v => v
  | None => tok_type tok
  end.

(** [n] spaces. *)
Fixpoint spaces (n : nat) : string :=
  match n with
  | 0 => ""
  | S n' => String " "%char (spaces n')
  end.

(** The token of a word. *)
Definition word_token (w : string) : Token := mkToken "term" (Some w).


(** A token stream with buffer [cur], reading [inp] at position [p]. *)
Definition stream_at (cur : option Token) (inp : string) (p : nat)
    : TokenStream.t :=
  TokenStream.mk cur (InputStream.mk p inp).

(** Every character of [w] satisfies [predicate]. *)
Fixpoint run_of (predicate : string -> bool) (w : string) : bool :=
  match w with
  | EmptyString => true
  | String c w' => predicate (String c EmptyString) && run_of predicate w'
  end.

(** [rest] is empty or begins with a character failing [predicate]. *)
Definition stops (predicate : string -> bool) (rest : string) : bool :=
  match rest with
  | EmptyString => true
  | String d _ => negb (predicate (String d EmptyString))
  end.

(** What [read_next] does at a character [ch] that is not a space. *)
Definition read_token (ch : string) : M TokenStream.t (option Token) :=
  if String.eqb ch JS.dquote then
    let* tok := TokenStream.read_string in ret (Some tok)
  else if String.eqb ch "!" then
    let* ty := TokenStream.on_input InputStream.next in
    ret (Some (mkToken ty None))
  else if TokenStream.is_ch_term ch then
    let* tok := TokenStream.read_term in ret (Some tok)
  else if TokenStream.is_ch_op ch then
    let* ty := TokenStream.on_input InputStream.next in
    ret (Some (mkToken ty None))
  else if TokenStream.is_ch_punc ch then
    let* v := TokenStream.on_input InputStream.next in
    ret (Some (mkToken "punc" (Some v)))
  else TokenStream.throw (UnexpectedCharacter ch).

(** A query written as tokens, each preceded by a number of spaces. *)
Fixpoint render (toks : list (nat * Token)) : string :=
  match toks with
  | [] => ""
  | (n, tok) :: toks' => spaces n ++ literal tok ++ render toks'
  end.

(** No word runs into the next token: after a word comes a space, a sign
    or the end of the query. *)
Fixpoint well_spaced (toks : list (nat * Token)) : Prop :=
  match toks with
  | [] => True
  | (_, tok) :: toks' =>
      (tok_type tok = "term" ->
       stops TokenStream.is_ch_term (render toks') = true)
      /\ well_spaced toks'
  end.

(** ** Trees, specification side *)

(** The terms of a tree, from left to right, each with its tolerance. *)
Fixpoint leaves (n : Node) : list (string * nat) :=
  match n with
  | Term v tol => [(v, tol)]
  | Not n' => leaves n'
  | Op _ l r => leaves l ++ leaves r
  end.

(** A tree without negation. *)
Fixpoint positive (n : Node) : bool :=
  match n with
  | Term _ _ => true
  | Not _ => false
  | Op _ l r => positive l && positive r
  end.

(** The terms run one after the other on a context. *)
Definition run_terms (ts : list (string * nat)) (s : string)
    (ctx : Context.t) : Context.t :=
  fold_left (fun c t => snd (Term_exec (fst t) (snd t) s c)) ts ctx.

(** A tree as the constructors build it: every [Term] has the tolerance
    its constructor computes, every [Op] is of type ['&'] or ['|']. *)
Fixpoint constructed (n : Node) : Prop :=
  match n with
  | Term v tol => tol = JS.ceil_div (String.length v) 4
  | Not n' => constructed n'
  | Op ty l r => (ty = "&" \/ ty = "|") /\ constructed l /\ constructed r
  end.

(** An entry at offset [i] is accounted for by one of the terms [ts] on the
    subject [s]: it is what that term writes at the first occurrence of
    one of its candidates. *)
Definition recorded_by (ts : list (string * nat)) (s : string) (i : Z)
    (e : Entry) : Prop :=
  exists v tol k,
    In (v, tol) ts
    /\ entry_gap e <= tol
    /\ entry_length e = String.length v - entry_gap e
    /\ i = Z.of_nat k
    /\ first_occurrence (candidate v (entry_gap e)) s k.

(** ** The moves of the lexer *)

(** [advances s s']: from [s] to [s'] the lexer has only moved its cursor
    forward over the same text, staying within the text if it was, and has
    left the lookahead buffer alone. *)
Definition advances (s s' : TokenStream.t) : Prop :=
  let text := InputStream.input (TokenStream.input s) in
  let pos := InputStream.pos (TokenStream.input s) in
  let pos' := InputStream.pos (TokenStream.input s') in
  TokenStream.current s' = TokenStream.current s
  /\ InputStream.input (TokenStream.input s') = text
  /\ pos <= pos'
  /\ (pos <= String.length text -> pos' <= String.length text).

(** The tokens of the language: a term with its value, and the five
    signs. *)
Inductive lexical : Token -> Prop :=
| lexical_term (v : string) : lexical (mkToken "term" (Some v))
| lexical_not : lexical (mkToken "!" None)
| lexical_and : lexical (mkToken "&" None)
| lexical_or : lexical (mkToken "|" None)
| lexical_open : lexical (mkToken "punc" (Some "("))
| lexical_close : lexical (mkToken "punc" (Some ")")).

(** The characters the lexer accepts outside a quoted term. *)
Definition legal (c : ascii) : bool :=
  Ascii.eqb c " " || Ascii.eqb c "034" || Ascii.eqb c "!" || JS.alnum c
  || Ascii.eqb c "&" || Ascii.eqb c "|" || Ascii.eqb c "(" || Ascii.eqb c ")".

(** ** Queries as the lexer scans them

    What a token stream has yet to deliver, on any text: the tokens up to
    the end of the text or to the first character that starts no token,
    and in that case the error thrown there.  It is a token source too. *)
Record Scan :=
  mkScan { scan_tokens : list Token; scan_fault : option ErrorMsg }.

Definition scan_read (consume : bool) : M Scan (option Token) :=
  fun sc =>
    match scan_tokens sc with
    | tok :: rest =>
        (Return (Some tok),
         if consume then mkScan rest (scan_fault sc) else sc)
    | [] =>
        match scan_fault sc with
        | Some msg => (Throw (mkError msg 0), sc)
        | None => (Return None, sc)
        end
    end.

#[export] Instance Scan_source : TokenSource Scan := {|
  source_peek := scan_read false;
  source_next := scan_read true;
  source_eof :=
    let* tok := scan_read false in
    ret (match tok with None => true | Some _ => false end);
  source_throw := fun A msg sc => (Throw (mkError msg 0), sc)
|}.

Fixpoint scan (fuel : nat) (s : TokenStream.t) : option Scan :=
  match fuel with
  | 0 => None
  | S fuel' =>
      match TokenStream.next s with
      | (Return None, _) => Some (mkScan [] None)
      | (Return (Some tok), s') =>
          (fun sc => mkScan (tok :: scan_tokens sc) (scan_fault sc))
            <$> scan fuel' s'
      | (Throw e, _) => Some (mkScan [] (Some (err_msg e)))
      | (OutOfFuel, _) => None
      end
  end.

Definition scans (s : TokenStream.t) (sc : Scan) : Prop :=
  exists fuel, scan fuel s = Some sc.

(** The fault of a scan is the error on a character that starts no
    token. *)
Definition lexical_fault (fault : option ErrorMsg) : Prop :=
  match fault with
  | None => True
  | Some msg =>
      exists c, legal c = false /\ msg = UnexpectedCharacter (String c "")
  end.

(** ** What a parse returns, specification side *)

(** The operators of a tree. *)
Fixpoint ops (n : Node) : list string :=
  match n with
  | Term _ _ => []
  | Not n' => ops n'
  | Op ty l r => ty :: ops l ++ ops r
  end.

(** A tree fits the operator style [is_lazy] has reached: before any
    operator it has none, under the lazy style only implicit ['|']. *)
Definition style_ok (lz : option bool) (n : Node) : Prop :=
  (lz = None -> ops n = [])
  /\ (lz = Some true -> Forall (eq "|") (ops n)).

(** [is_lazy] keeps its value once set. *)
Definition pinned (lz lz' : option bool) : Prop :=
  forall b, lz = Some b -> lz' = Some b.

(** A token at which an operand starts: ['!'], ['('] or a term. *)
Definition starts_operand (tok : option Token) : bool :=
  match tok with
  | Some tk =>
      String.eqb (tok_type tk) "!"
      || (String.eqb (tok_type tk) "punc"
          && match tok_value tk with
             | Some v => String.eqb v "("
             | None => false
             end)
      || String.eqb (tok_type tk) "term"
  | None => false
  end.

(** The errors of a parse: the three of the parser, on the tokens that
    can raise them, and the one of the lexer. *)
Definition parse_error (fault : option ErrorMsg) (msg : ErrorMsg) : Prop :=
  msg = CannotMixLazy
  \/ msg = ExpectingPunctuation ")"
  \/ (exists tok, msg = UnexpectedToken tok /\ starts_operand tok = false)
  \/ fault = Some msg.

(** From [p] to [p'] the parser has consumed tokens of a scan and kept the
    operator style. *)
Definition follows (p p' : Parser.t Scan) : Prop :=
  length (scan_tokens (Parser.input p'))
    <= length (scan_tokens (Parser.input p))
  /\ (Forall lexical (scan_tokens (Parser.input p)) ->
      Forall lexical (scan_tokens (Parser.input p')))
  /\ scan_fault (Parser.input p') = scan_fault (Parser.input p)
  /\ pinned (Parser.is_lazy p) (Parser.is_lazy p').

(** [x] is the outcome of a parse started at [p] with enough stack: a
    tree as the constructors build it, in the style reached, after at
    least one token if [progress]; or one of the errors. *)
Definition parsed (progress : bool) (p : Parser.t Scan)
    (x : outcome Node * Parser.t Scan) : Prop :=
  follows p (snd x)
  /\ match fst x with
     | Return n =>
         constructed n
         /\ style_ok (Parser.is_lazy (snd x)) n
         /\ (progress = true ->
             length (scan_tokens (Parser.input (snd x)))
               < length (scan_tokens (Parser.input p)))
     | Throw e => parse_error (scan_fault (Parser.input p)) (err_msg e)
     | OutOfFuel => False
     end.

(** The four functions of the descent on scans of fewer than [n] tokens,
    with a stack depth linear in [n]. *)
Definition parser_spec (n : nat) : Prop :=
  forall p : Parser.t Scan,
    length (scan_tokens (Parser.input p)) < n ->
    Forall lexical (scan_tokens (Parser.input p)) ->
    (forall fuel, 5 * n + 1 <= fuel ->
       parsed true p (Parser.operand_expr fuel p))
    /\ (forall fuel, 5 * n + 2 <= fuel ->
       parsed true p (Parser.lazy_operator fuel p))
    /\ (forall fuel (b : bool), 5 * n + 4 <= fuel + (if b then 0 else 1) ->
       parsed true p (Parser.parse_operand fuel b p))
    /\ (forall fuel left prec, 5 * n + 1 <= fuel ->
       constructed left -> style_ok (Parser.is_lazy p) left ->
       parsed false p (Parser.parse_operator fuel left prec p)).

(** The errors [compile] can throw: the parser's three, each on a token
    that can raise it, and the lexer's, on a character that starts no
    token. *)
Definition compile_error (msg : ErrorMsg) : Prop :=
  msg = CannotMixLazy
  \/ msg = ExpectingPunctuation ")"
  \/ (exists tok, msg = UnexpectedToken tok /\ starts_operand tok = false)
  \/ (exists c, legal c = false /\ msg = UnexpectedCharacter (String c "")).

(** The stack depth that is enough to compile a query. *)
Definition enough_stack (q : string) : nat := 5 * String.length q + 9.


(** ** Spellings of a token *)

(** A token is spelled by its literal, when it has one, and a term also by
    any encoding of its value between double quotes. *)
Inductive spelling : Token -> string -> Prop :=
| spelling_plain (tok : Token) :
    plain_token tok -> spelling tok (literal tok)
| spelling_quoted (w e : string) :
    encodes w e ->
    spelling (mkToken "term" (Some w)) (JS.dquote ++ e ++ JS.dquote).

(** A query written as pieces of text, each preceded by a number of
    spaces. *)
Fixpoint write (items : list (nat * string)) : string :=
  match items with
  | [] => ""
  | (n, text) :: items' => spaces n ++ text ++ write items'
  end.

(** No word runs into the text that follows it, [tail] being the text
    after the last piece. *)
Fixpoint apart (tail : string) (items : list (nat * string)) : Prop :=
  match items with
  | [] => True
  | (_, text) :: items' =>
      (is_word text = true ->
       stops TokenStream.is_ch_term (write items' ++ tail) = true)
      /\ apart tail items'
  end.

(** Two runs end alike: with the same value, with the same error message,
    or both out of stack. *)
Definition same_outcome {A S1 S2 : Type} (x : outcome A * S1)
    (y : outcome A * S2) : Prop :=
  match fst x, fst y with
  | Return a, Return b => a = b
  | Throw e1, Throw e2 => err_msg e1 = err_msg e2
  | OutOfFuel, OutOfFuel => True
  | _, _ => False
  end.

(** ** Writing a tree back as a query *)

(** The tokens of a query for a tree, with the operand of a negation and
    both operands of an operator in parentheses. *)
Fixpoint tokens_of (n : Node) : list Token :=
  match n with
  | Term v _ => [mkToken "term" (Some v)]
  | Not n' =>
      mkToken "!" None :: mkToken "punc" (Some "(")
        :: tokens_of n' ++ [mkToken "punc" (Some ")")]
  | Op ty l r =>
      mkToken "punc" (Some "(") :: tokens_of l
        ++ mkToken "punc" (Some ")") :: mkToken ty None
        :: mkToken "punc" (Some "(") :: tokens_of r
        ++ [mkToken "punc" (Some ")")]
  end.

(** The text of a token: a term between double quotes, with its value
    escaped, and a sign by its character. *)
Definition token_text (tok : Token) : string :=
  match tok_value tok with
  | Some v =>
      if String.eqb (tok_type tok) "term"
      then JS.dquote ++ escape v ++ JS.dquote
      else v
  | None => tok_type tok
  end.

Definition unparse (n : Node) : string :=
  write (map (fun tok => (0, token_text tok)) (tokens_of n)).

(** A stack depth that is enough to parse the query of a tree. *)
Fixpoint stack_of (n : Node) : nat :=
  match n with
  | Term _ _ => 4
  | Not n' => stack_of n' + 9
  | Op _ l r => Nat.max (stack_of l) (stack_of r) + 6
  end.

(** [is_lazy] after the parse of the query of a tree. *)
Definition style_after (lz : option bool) (n : Node) : option bool :=
  match ops n with
  | [] => lz
  | _ :: _ => Some false
  end.

(** What is left of a scan begins with a closing parenthesis, or is
    empty. *)
Definition closes (rest : list Token) (fault : option ErrorMsg) : Prop :=
  match rest with
  | [] => fault = None
  | tk :: _ => tk = mkToken "punc" (Some ")")
  end.

(** What is left of a scan lets [lazy_operator] return its operand. *)
Definition ends_scan (rest : list Token) (fault : option ErrorMsg) : Prop :=
  match rest with
  | [] => fault = None
  | tk :: _ => ends_operand (Some tk) = true
  end.

(** ** Outcomes of [compile] on a query *)

(** [compile] on the query [q] throws the error of message [msg], at some
    position. *)
Definition throws (fuel : nat) (q : string) (msg : ErrorMsg) : Prop :=
  exists pos i,
    Interpreter.compile fuel (Interpreter.new q) =
    (Throw (mkError msg pos), i).

(** [compile] on the query [q] returns the tree [n]. *)
Definition compiles_to (fuel : nat) (q : string) (n : Node) : Prop :=
  exists i, Interpreter.compile fuel (Interpreter.new q) = (Return n, i).


(** ** Flat queries *)

(** A group: a first word and the words joined to it by ['&']. *)
Definition Group : Type := string * list string.

(** The left-nested conjunction of the terms of a group. *)
Definition and_tree (left : Node) (ws : list string) : Node :=
  fold_left (fun acc w => Op "&" acc (new_Term w)) ws left.

Definition group_tree (g : Group) : Node :=
  and_tree (new_Term (fst g)) (snd g).

(** The left-nested disjunction of the conjunctions of groups. *)
Definition or_tree (left : Node) (gs : list Group) : Node :=
  fold_left (fun acc g => Op "|" acc (group_tree g)) gs left.

Definition dnf (g : Group) (gs : list Group) : Node :=
  or_tree (group_tree g) gs.

(** The tokens: [& w] for each further word of a group, [| w ...] for
    each further group. *)
Fixpoint and_chain (ws : list string) : list Token :=
  match ws with
  | [] => []
  | w :: ws' =>
      mkToken "&" None :: mkToken "term" (Some w) :: and_chain ws'
  end.

Fixpoint or_chain (gs : list Group) : list Token :=
  match gs with
  | [] => []
  | g :: gs' =>
      mkToken "|" None :: mkToken "term" (Some (fst g))
        :: and_chain (snd g) ++ or_chain gs'
  end.

Definition dnf_tokens (g : Group) (gs : list Group) : list Token :=
  mkToken "term" (Some (fst g)) :: and_chain (snd g) ++ or_chain gs.

(** The right-nested disjunction that juxtaposed terms parse to. *)
Fixpoint lazy_tree (w : string) (ws : list string) : Node :=
  match ws with
  | [] => new_Term w
  | w' :: ws' => Op "|" (new_Term w) (lazy_tree w' ws')
  end.

Definition term_tokens (ws : list string) : list Token :=
  map (fun w => mkToken "term" (Some w)) ws.

(** What may follow a conjunction: the end, an ['|'] or a [')']. *)
Definition ends_and (rest : list Token) (fault : option ErrorMsg) : Prop :=
  match rest with
  | [] => fault = None
  | tk :: _ => tk = mkToken "|" None \/ tk = mkToken "punc" (Some ")")
  end.

(** ** Token sources compared, failures included

    As [related_outcome], and the states stay related when both runs
    throw: the parser object survives the exception. *)
Definition kept_outcome {A X Y : Type} (R : X -> Y -> Prop)
    (x : outcome A * X) (y : outcome A * Y) : Prop :=
  match fst x, fst y with
  | Return a, Return b => a = b /\ R (snd x) (snd y)
  | Throw e1, Throw e2 => err_msg e1 = err_msg e2 /\ R (snd x) (snd y)
  | OutOfFuel, OutOfFuel => True
  | _, _ => False
  end.

Definition kept_run {S1 S2 A : Type} (R : S1 -> S2 -> Prop)
    (m1 : M (Parser.t S1) A) (m2 : M (Parser.t S2) A) : Prop :=
  forall p1 p2,
    related_parser R p1 p2 ->
    kept_outcome (related_parser R) (m1 p1) (m2 p2).

Definition keeps {S1 S2 : Type} {src1 : TokenSource S1}
    {src2 : TokenSource S2} (R : S1 -> S2 -> Prop) : Prop :=
  forall s1 s2,
    R s1 s2 ->
    kept_outcome R (source_peek s1) (source_peek s2)
    /\ kept_outcome R (source_next s1) (source_next s2)
    /\ kept_outcome R (source_eof s1) (source_eof s2)
    /\ forall (A : Type) msg,
        kept_outcome R (source_throw (A := A) msg s1)
          (source_throw (A := A) msg s2).

(** An interpreter whose parser has the scan [sc] left to read. *)
Definition resumes (i : Interpreter.t) (sc : Scan) (lz : option bool)
    : Prop :=
  Interpreter.value i = None
  /\ related_parser scans (Interpreter.input i) (Parser.mk sc lz).

(** ** Evaluation in the earlier revision

    In [src/unnamed/part_001] a term has no [tolerance] field: [Term.exec]
    computes [Math.ceil(this.value.length / 4)] in the loop condition, and
    calls [Term.test], which keeps the entry an offset already has.  [Not]
    and [Op] are as in the current revision. *)
Fixpoint Part001_Term_exec_loop (fuel : nat) (this_value str : string)
    (gap : nat) (match_ : bool) (context : Context.t)
    : nat * bool * Context.t :=
  match fuel with
  | 0 => (gap, match_, context)
  | S fuel' =>
      if (gap <=? JS.ceil_div (String.length this_value) 4)%nat
         && negb match_
      then
        let value :=
          JS.substring this_value 0 (String.length this_value - gap) in
        let '(m, context') :=
          Part001.Term_test this_value str value context in
        Part001_Term_exec_loop fuel' this_value str (S gap) m context'
      else (gap, match_, context)
  end.

Definition Part001_Term_exec (this_value str : string) (context : Context.t)
    : bool * Context.t :=
  let '(_, m, c) :=
    Part001_Term_exec_loop
      (S (S (JS.ceil_div (String.length this_value) 4)))
      this_value str 0 false context in
  (m, c).

Fixpoint Part001_exec (n : Node) (str : string) (context : Context.t)
    : bool * Context.t :=
  match n with
  | Term value _ => Part001_Term_exec value str context
  | Not value =>
      let '(r, c) := Part001_exec value str context in (negb r, c)
  | Op type l r =>
      let '(left_, c1) := Part001_exec l str context in
      let '(right_, c2) := Part001_exec r str c1 in
      (if String.eqb type "&" then left_ && right_ else left_ || right_, c2)
  end.

(** Two contexts have entries at the same offsets. *)
Definition same_offsets (c1 c2 : Context.t) : Prop :=
  forall i, Context.lookup c1 i = None <-> Context.lookup c2 i = None.


(** ** The writes of an evaluation *)

(** What a term does to a context: nothing, or one assignment. *)
Definition Write : Type := option (Z * Entry).

Definition apply_write (c : Context.t) (w : Write) : Context.t :=
  match w with
  | Some (i, e) => Context.set_term_at i e c
  | None => c
  end.

Definition apply_writes (ws : list Write) (c : Context.t) : Context.t :=
  fold_left apply_write ws c.

(** The entry the writes leave at an offset, if they assign it. *)
Fixpoint last_write (ws : list Write) (i : Z) : option Entry :=
  match ws with
  | [] => None
  | w :: ws' =>
      match last_write ws' i with
      | Some e => Some e
      | None =>
          match w with
          | Some (j, e) => if Z.eqb j i then Some e else None
          | None => None
          end
      end
  end.

(** ** Queries of the grammar

    The queries the parser is written for, as it reads them.  A query is
    one or more operands joined by ['&'] and ['|'], the operands joined by
    ['&'] grouped first.  An operand is a primary (a term, or a query in
    parentheses), a primary directly followed by a query (juxtaposition,
    the implicit or), or the negation of an operand. *)
Inductive Primary :=
| a_term (w : string)
| in_parens (q : Query)
with Operand :=
| primary (p : Primary)
| juxtaposed (p : Primary) (q : Query)
| negated (o : Operand)
with AndChain :=
| no_and
| and_then (o : Operand) (a : AndChain)
with OrChain :=
| no_or
| or_then (o : Operand) (a : AndChain) (r : OrChain)
with Query :=
| query (o : Operand) (a : AndChain) (r : OrChain).

Scheme Primary_mut := Induction for Primary Sort Prop
with Operand_mut := Induction for Operand Sort Prop
with AndChain_mut := Induction for AndChain Sort Prop
with OrChain_mut := Induction for OrChain Sort Prop
with Query_mut := Induction for Query Sort Prop.

Combined Scheme grammar_ind
  from Primary_mut, Operand_mut, AndChain_mut, OrChain_mut, Query_mut.

(** The tokens of a query, in the order they are written. *)
Fixpoint primary_tokens (p : Primary) : list Token :=
  match p with
  | a_term w => [mkToken "term" (Some w)]
  | in_parens q =>
      mkToken "punc" (Some "(") :: query_tokens q
        ++ [mkToken "punc" (Some ")")]
  end
with operand_tokens (o : Operand) : list Token :=
  match o with
  | primary p => primary_tokens p
  | juxtaposed p q => primary_tokens p ++ query_tokens q
  | negated o' => mkToken "!" None :: operand_tokens o'
  end
with and_tokens (a : AndChain) : list Token :=
  match a with
  | no_and => []
  | and_then o a' => mkToken "&" None :: operand_tokens o ++ and_tokens a'
  end
with or_tokens (r : OrChain) : list Token :=
  match r with
  | no_or => []
  | or_then o a r' =>
      mkToken "|" None :: operand_tokens o ++ and_tokens a ++ or_tokens r'
  end
with query_tokens (q : Query) : list Token :=
  match q with
  | query o a r => operand_tokens o ++ and_tokens a ++ or_tokens r
  end.

(** A query uses juxtaposition somewhere, parentheses included. *)
Fixpoint primary_juxtaposes (p : Primary) : bool :=
  match p with
  | a_term _ => false
  | in_parens q => juxtaposes q
  end
with operand_juxtaposes (o : Operand) : bool :=
  match o with
  | primary p => primary_juxtaposes p
  | juxtaposed _ _ => true
  | negated o' => operand_juxtaposes o'
  end
with and_juxtaposes (a : AndChain) : bool :=
  match a with
  | no_and => false
  | and_then o a' => operand_juxtaposes o || and_juxtaposes a'
  end
with or_juxtaposes (r : OrChain) : bool :=
  match r with
  | no_or => false
  | or_then o a r' =>
      operand_juxtaposes o || and_juxtaposes a || or_juxtaposes r'
  end
with juxtaposes (q : Query) : bool :=
  match q with
  | query o a r =>
      operand_juxtaposes o || and_juxtaposes a || or_juxtaposes r
  end.

(** A query uses an explicit ['&'] or ['|'] somewhere, parentheses
    included. *)
Definition and_operates (a : AndChain) : bool :=
  match a with
  | no_and => false
  | and_then _ _ => true
  end.

Definition or_operates (r : OrChain) : bool :=
  match r with
  | no_or => false
  | or_then _ _ _ => true
  end.

Fixpoint primary_operates (p : Primary) : bool :=
  match p with
  | a_term _ => false
  | in_parens q => operates q
  end
with operand_operates (o : Operand) : bool :=
  match o with
  | primary p => primary_operates p
  | juxtaposed p q => primary_operates p || operates q
  | negated o' => operand_operates o'
  end
with operates (q : Query) : bool :=
  match q with
  | query o a r => operand_operates o || and_operates a || or_operates r
  end.

(** A query mixes the two forms. *)
Definition mixes (q : Query) : bool := juxtaposes q && operates q.

(** An operand ends with a juxtaposed query, which then takes in
    whatever operator follows the operand. *)
Fixpoint ends_open (o : Operand) : bool :=
  match o with
  | primary _ => false
  | juxtaposed _ _ => true
  | negated o' => ends_open o'
  end.

(** [is_lazy] allows a piece of a query that juxtaposes ([j]) and uses
    operators ([o]). *)
Definition allows (lz : option bool) (j o : bool) : bool :=
  match lz with
  | None => negb (j && o)
  | Some true => negb o
  | Some false => negb j
  end.

(** [is_lazy] after such a piece. *)
Definition style_reached (lz : option bool) (j o : bool) : option bool :=
  if j then Some true else if o then Some false else lz.

(** What is left of a scan begins with an operator. *)
Definition begins_with_operator (rest : list Token) : bool :=
  match rest with
  | tk :: _ => String.eqb (tok_type tk) "&" || String.eqb (tok_type tk) "|"
  | [] => false
  end.

(** The outcome of a parse of a piece of a query on a scan: a tree, with
    [rest] left to read and [is_lazy] at [lz], when [ok]; the "cannot
    mix" error otherwise. *)
Definition style_outcome (x : outcome Node * Parser.t Scan) (ok : bool)
    (rest : list Token) (fault : option ErrorMsg) (lz : option bool)
    : Prop :=
  if ok then exists n, x = (Return n, Parser.mk (mkScan rest fault) lz)
  else exists p, x = (Throw (mkError CannotMixLazy 0), p).

(** What the descent does with each piece of a query, on any scan that
    goes on with [rest], once the stack is deep enough: a primary, read
    by the function [parse_operand] hands to [lazy_operator]; an operand,
    read by [parse_operand(false)], which fails when the operand ends
    with a juxtaposed query and an operator follows; the operands joined
    by ['&'], read by [parse_operator] at precedence 1, after an
    operator; the operands joined by ['|'], and by both, read by
    [parse_operator] at precedence 0; a query, read by
    [parse_operand(true)] before the end, a closing parenthesis or, when
    juxtaposed, an operator. *)
Definition primary_parses (p : Primary) : Prop :=
  exists f0, forall fuel rest fault lz,
    f0 <= fuel ->
    style_outcome
      (Parser.operand_expr fuel
         (Parser.mk (mkScan (primary_tokens p ++ rest) fault) lz))
      (allows lz (primary_juxtaposes p) (primary_operates p))
      rest fault
      (style_reached lz (primary_juxtaposes p) (primary_operates p)).

Definition operand_parses (o : Operand) : Prop :=
  exists f0, forall fuel rest fault lz,
    f0 <= fuel ->
    ends_scan rest fault ->
    style_outcome
      (Parser.parse_operand fuel false
         (Parser.mk (mkScan (operand_tokens o ++ rest) fault) lz))
      (allows lz (operand_juxtaposes o) (operand_operates o)
       && negb (ends_open o && begins_with_operator rest))
      rest fault
      (style_reached lz (operand_juxtaposes o) (operand_operates o)).

Definition and_parses (a : AndChain) : Prop :=
  exists f0, forall fuel left rest fault,
    f0 <= fuel ->
    ends_and rest fault ->
    style_outcome
      (Parser.parse_operator fuel left 1
         (Parser.mk (mkScan (and_tokens a ++ rest) fault) (Some false)))
      (negb (and_juxtaposes a)) rest fault (Some false).

Definition or_parses (r : OrChain) : Prop :=
  exists f0, forall fuel left rest fault lz,
    f0 <= fuel ->
    closes rest fault ->
    style_outcome
      (Parser.parse_operator fuel left 0
         (Parser.mk (mkScan (or_tokens r ++ rest) fault) lz))
      (allows lz (or_juxtaposes r) (or_operates r))
      rest fault
      (style_reached lz (or_juxtaposes r) (or_operates r)).

Definition chain_parses (a : AndChain) (r : OrChain) : Prop :=
  exists f0, forall fuel left rest fault lz,
    f0 <= fuel ->
    closes rest fault ->
    style_outcome
      (Parser.parse_operator fuel left 0
         (Parser.mk (mkScan (and_tokens a ++ or_tokens r ++ rest) fault) lz))
      (allows lz (and_juxtaposes a || or_juxtaposes r)
         (and_operates a || or_operates r))
      rest fault
      (style_reached lz (and_juxtaposes a || or_juxtaposes r)
         (and_operates a || or_operates r)).

Definition query_parses (q : Query) : Prop :=
  exists f0, forall fuel rest fault lz,
    f0 <= fuel ->
    closes rest fault
    \/ (lz = Some true /\ begins_with_operator rest = true) ->
    style_outcome
      (Parser.parse_operand fuel true
         (Parser.mk (mkScan (query_tokens q ++ rest) fault) lz))
      (allows lz (juxtaposes q) (operates q)
       && negb (begins_with_operator rest))
      rest fault
      (style_reached lz (juxtaposes q) (operates q)).

(** * Properties *)

(** ** Strings *)

Lemma append_empty_r (s : string) : s ++ "" = s.
Proof. induction s as [|c s IH]; simpl; [reflexivity | now rewrite IH]. Qed.

Lemma append_assoc (a b c : string) : (a ++ b) ++ c = a ++ b ++ c.
Proof. induction a as [|x a IH]; simpl; [reflexivity | now rewrite IH]. Qed.

Lemma length_append (a b : string) :
  String.length (a ++ b) = String.length a + String.length b.
Proof. induction a as [|x a IH]; simpl; [reflexivity | now rewrite IH]. Qed.

Lemma starts_with_spec (v s : string) :
  JS.starts_with v s = true <-> exists post, s = v ++ post.
Proof.
  revert s. induction v as [|c v IH]; intros s; simpl.
  - split; [intros _; now exists s | reflexivity].
  - destruct s as [|d s].
    + split; [discriminate | intros [post H]; discriminate].
    + rewrite andb_true_iff, IH. split.
      * intros [Hc [post ->]]. apply Ascii.eqb_eq in Hc as ->. now exists post.
      * intros [post H]. injection H as -> ->. split.
        -- apply Ascii.eqb_refl.
        -- now exists post.
Qed.

Lemma occurs_at_0 (v s : string) :
  occurs_at v s 0 <-> JS.starts_with v s = true.
Proof.
  rewrite starts_with_spec. split.
  - intros (pre & post & -> & Hlen). destruct pre; [|discriminate].
    now exists post.
  - intros [post ->]. now exists "", post.
Qed.

Lemma occurs_at_S (v : string) (c : ascii) (s : string) (i : nat) :
  occurs_at v (String c s) (S i) <-> occurs_at v s i.
Proof.
  split.
  - intros (pre & post & H & Hlen). destruct pre as [|d pre]; [discriminate|].
    simpl in H, Hlen. injection H as -> ->. injection Hlen as <-.
    now exists pre, post.
  - intros (pre & post & -> & <-). now exists (String c pre), post.
Qed.

Lemma occurs_at_empty (v : string) (i : nat) :
  occurs_at v "" i -> i = 0.
Proof.
  intros (pre & post & H & <-). destruct pre; [reflexivity | discriminate].
Qed.

Lemma find_Some (s v : string) (i : nat) :
  JS.find s v = Some i <-> first_occurrence v s i.
Proof.
  revert i. induction s as [|c s IH]; intros i; simpl.
  - destruct (JS.starts_with v "") eqn:E.
    + split.
      * intros [= <-]. split; [now apply occurs_at_0 | intros j Hj; lia].
      * intros [H _]. apply occurs_at_empty in H as ->. reflexivity.
    + split; [discriminate |].
      intros [H _]. pose proof (occurs_at_empty _ _ H) as ->.
      apply occurs_at_0 in H. congruence.
  - destruct (JS.starts_with v (String c s)) eqn:E.
    + split.
      * intros [= <-]. split; [now apply occurs_at_0 | intros j Hj; lia].
      * intros [_ Hmin]. destruct i as [|i]; [reflexivity|].
        exfalso. apply (Hmin 0); [lia | now apply occurs_at_0].
    + destruct (JS.find s v) as [k|] eqn:Ek; simpl.
      * split.
        -- intros [= <-]. destruct (proj1 (IH k) eq_refl) as [Hk Hmin]. split.
           ++ now apply occurs_at_S.
           ++ intros [|j] Hj Hocc.
              ** apply occurs_at_0 in Hocc. congruence.
              ** apply occurs_at_S in Hocc. apply (Hmin j); [lia | assumption].
        -- intros [Hi Hmin]. destruct i as [|i].
           ++ apply occurs_at_0 in Hi. congruence.
           ++ f_equal. assert (Some k = Some i) as [= ->]; [|reflexivity].
              apply IH. split; [now apply occurs_at_S in Hi|].
              intros j Hj Hocc. apply (Hmin (S j)); [lia|].
              now apply occurs_at_S.
      * split; [discriminate|].
        intros [Hi Hmin]. destruct i as [|i].
        -- apply occurs_at_0 in Hi. congruence.
        -- assert (None = Some i) by
             (apply IH; split; [now apply occurs_at_S in Hi|];
              intros j Hj Hocc; apply (Hmin (S j)); [lia|];
              now apply occurs_at_S).
           discriminate.
Qed.

Lemma find_None (s v : string) :
  JS.find s v = None <-> forall i, ~ occurs_at v s i.
Proof.
  induction s as [|c s IH]; simpl.
  - destruct (JS.starts_with v "") eqn:E.
    + split; [discriminate|]. intros H. exfalso.
      apply (H 0). now apply occurs_at_0.
    + split; [|reflexivity]. intros _ i Hi.
      pose proof (occurs_at_empty _ _ Hi) as ->.
      apply occurs_at_0 in Hi. congruence.
  - destruct (JS.starts_with v (String c s)) eqn:E.
    + split; [discriminate|]. intros H. exfalso.
      apply (H 0). now apply occurs_at_0.
    + destruct (JS.find s v) as [k|]; simpl.
      * split; [discriminate|]. intros H.
        assert (Some k = None) by
          (apply IH; intros i Hi; apply (H (S i)); now apply occurs_at_S).
        discriminate.
      * split; [|reflexivity]. intros _ [|i] Hi.
        -- apply occurs_at_0 in Hi. congruence.
        -- apply occurs_at_S in Hi. now apply (proj1 IH eq_refl i).
Qed.

Lemma indexOf_found (s v : string) (i : nat) :
  first_occurrence v s i -> JS.indexOf s v = Z.of_nat i.
Proof. intros H. apply find_Some in H. unfold JS.indexOf. now rewrite H. Qed.

Lemma indexOf_absent (s v : string) :
  (forall i, ~ occurs_at v s i) -> JS.indexOf s v = (-1)%Z.
Proof. intros H. apply find_None in H. unfold JS.indexOf. now rewrite H. Qed.

Lemma indexOf_cases (s v : string) :
  (JS.indexOf s v = (-1)%Z /\ forall i, ~ occurs_at v s i)
  \/ (exists i, JS.indexOf s v = Z.of_nat i /\ first_occurrence v s i).
Proof.
  unfold JS.indexOf. destruct (JS.find s v) as [i|] eqn:E.
  - right. exists i. split; [reflexivity | now apply find_Some].
  - left. split; [reflexivity | now apply find_None].
Qed.

Lemma substring_0 (m : nat) (v : string) :
  String.substring 0 m v = str_take m v.
Proof.
  revert v. induction m as [|m IH]; intros [|c v]; simpl; try reflexivity.
  now rewrite IH.
Qed.

Lemma str_take_min (k : nat) (v : string) :
  str_take (Nat.min k (String.length v)) v = str_take k v.
Proof.
  revert v. induction k as [|k IH]; intros [|c v]; simpl; try reflexivity.
  now rewrite IH.
Qed.

Lemma substring_prefix (v : string) (k : nat) :
  JS.substring v 0 k = str_take k v.
Proof.
  unfold JS.substring. rewrite Nat.min_0_l, Nat.min_0_l, Nat.max_0_l, Nat.sub_0_r.
  rewrite substring_0. apply str_take_min.
Qed.

Lemma length_str_take (k : nat) (v : string) :
  k <= String.length v -> String.length (str_take k v) = k.
Proof.
  revert v. induction k as [|k IH]; intros [|c v] H; simpl in *;
    try reflexivity; try lia.
  rewrite IH; [reflexivity | lia].
Qed.

Lemma str_take_prefix (k : nat) (v : string) :
  exists rest, v = str_take k v ++ rest.
Proof.
  revert v. induction k as [|k IH]; intros v.
  - exists v. now destruct v.
  - destruct v as [|c v]; [now exists ""|].
    destruct (IH v) as [rest H]. exists rest. simpl. now rewrite <- H.
Qed.

(** [Math.ceil(n / 4)] is the least [t] with [n <= 4 * t], and it never
    exceeds [n]. *)
Lemma ceil_div_4_spec (n : nat) :
  n <= 4 * JS.ceil_div n 4
  /\ 4 * JS.ceil_div n 4 < n + 4
  /\ JS.ceil_div n 4 <= n.
Proof.
  unfold JS.ceil_div. change (4 - 1) with 3.
  pose proof (Nat.div_mod_eq (n + 3) 4) as H.
  pose proof (Nat.mod_upper_bound (n + 3) 4 ltac:(lia)) as Hm.
  repeat split; lia.
Qed.

(** ** Term evaluation *)

Lemma Term_match_candidate (v s : string) (g : nat) (ctx : Context.t) :
  g <= String.length v ->
  Term_match v s (JS.substring v 0 (String.length v - g)) ctx =
  match JS.find s (candidate v g) with
  | Some i =>
      (true,
       Context.set_term_at (Z.of_nat i) (mkEntry (String.length v - g) g) ctx)
  | None => (false, ctx)
  end.
Proof.
  intros Hg. unfold Term_match, JS.indexOf, candidate.
  rewrite substring_prefix.
  destruct (JS.find s (str_take (String.length v - g) v)) as [i|]; simpl.
  - destruct (Z.eqb_spec (Z.of_nat i) (-1)) as [E|_]; [lia|].
    rewrite length_str_take by lia.
    replace (String.length v - (String.length v - g)) with g by lia.
    reflexivity.
  - reflexivity.
Qed.

Lemma Term_exec_loop_matched (fuel : nat) (v : string) (tol : nat)
    (s : string) (gap : nat) (ctx : Context.t) :
  Term_exec_loop fuel v tol s gap true ctx = (gap, true, ctx).
Proof. destruct fuel; simpl; [|rewrite andb_false_r]; reflexivity. Qed.

Lemma Term_exec_loop_spec (v : string) (tol : nat) (s : string) :
  tol <= String.length v ->
  forall fuel gap ctx,
    gap <= S tol -> S tol - gap < fuel ->
    ((forall g, gap <= g <= tol -> JS.find s (candidate v g) = None)
     /\ Term_exec_loop fuel v tol s gap false ctx = (S tol, false, ctx))
    \/ (exists g i,
          gap <= g <= tol
          /\ JS.find s (candidate v g) = Some i
          /\ (forall g', gap <= g' < g -> JS.find s (candidate v g') = None)
          /\ Term_exec_loop fuel v tol s gap false ctx =
             (S g, true,
              Context.set_term_at (Z.of_nat i)
                (mkEntry (String.length v - g) g) ctx)).
Proof.
  intros Htol. induction fuel as [|fuel IH]; intros gap ctx Hgap Hfuel; [lia|].
  simpl. destruct (Nat.leb_spec gap tol) as [Hle|Hgt]; simpl.
  - rewrite Term_match_candidate by lia.
    destruct (JS.find s (candidate v gap)) as [i|] eqn:E.
    + right. exists gap, i.
      split; [lia|]. split; [assumption|]. split; [intros g' Hg'; lia|].
      apply Term_exec_loop_matched.
    + destruct (IH (S gap) ctx ltac:(lia) ltac:(lia))
        as [[Hnone Hrun] | (g & i & Hg & Hfind & Hnone & Hrun)].
      * left. split; [|assumption]. intros g Hg.
        destruct (Nat.eq_dec g gap) as [->|Hne]; [assumption|].
        apply Hnone. lia.
      * right. exists g, i.
        split; [lia|]. split; [assumption|]. split; [|assumption].
        intros g' Hg'. destruct (Nat.eq_dec g' gap) as [->|Hne]; [assumption|].
        apply Hnone. lia.
  - left. assert (gap = S tol) as -> by lia. split; [intros g Hg; lia | reflexivity].
Qed.

(** The loop of [Term.exec] needs no more than [tolerance + 1] turns. *)
Lemma Term_exec_loop_enough (v : string) (tol : nat) (s : string) :
  forall fuel k gap m ctx,
    S tol - gap <= fuel ->
    Term_exec_loop (fuel + k) v tol s gap m ctx =
    Term_exec_loop fuel v tol s gap m ctx.
Proof.
  induction fuel as [|fuel IH]; intros k gap m ctx H.
  - destruct k as [|k]; [reflexivity|]. cbn [Nat.add Term_exec_loop].
    destruct (Nat.leb_spec gap tol) as [Hle|_]; [lia | reflexivity].
  - cbn [Nat.add Term_exec_loop].
    destruct ((gap <=? tol)%nat && negb m); [|reflexivity].
    destruct (Term_match v s _ ctx) as [m' ctx']. apply IH. lia.
Qed.

(** Writing an entry and reading the context back. *)
Lemma lookup_set_term_at (index : Z) (e : Entry) (c : Context.t) :
  Context.lookup (Context.set_term_at index e c) index = Some e.
Proof.
  unfold Context.set_term_at, Context.get_term, Context.lookup.
  destruct (Context.term c); simpl; apply lookup_insert_eq.
Qed.

Lemma lookup_set_term_at_ne (i j : Z) (e : Entry) (c : Context.t) :
  i <> j ->
  Context.lookup (Context.set_term_at i e c) j = Context.lookup c j.
Proof.
  intros H. unfold Context.set_term_at, Context.get_term, Context.lookup.
  destruct (Context.term c); simpl.
  - now apply lookup_insert_ne.
  - rewrite lookup_insert_ne by assumption. apply lookup_empty.
Qed.

Lemma success_set_term_at (i : Z) (e : Entry) (c : Context.t) :
  Context.success (Context.set_term_at i e c) = Context.success c.
Proof.
  unfold Context.set_term_at, Context.get_term.
  now destruct (Context.term c).
Qed.

(** C1. For a term of value [v], with [n] its length and
    [tolerance = ceil(n/4)] (the least integer with [n <= 4 * tolerance]),
    [exec] returns true exactly when some gap in
    [0..tolerance] makes the prefix [v[0 .. n-gap)] occur in the subject.
    At the smallest such gap it writes [{length: n-gap, gap}] at the offset
    of the first occurrence, returns true and leaves the loop with the gap
    counter just past that gap: the context it returns reads back that
    entry at that offset, and reads as before at every other offset and
    in [success].  When no gap matches it returns false, having tried
    every gap and left the context as it was. *)
Theorem Term_exec_fuzzy_prefix (v s : string) (ctx : Context.t) :
  let n := String.length v in
  let tolerance := JS.ceil_div n 4 in
  new_Term v = Term v tolerance
  /\ (n <= 4 * tolerance /\ 4 * tolerance < n + 4)
  /\ (fst (exec (new_Term v) s ctx) = true <->
      exists gap i, gap <= tolerance /\ occurs_at (candidate v gap) s i)
  /\ (forall gap i,
        gap <= tolerance ->
        first_occurrence (candidate v gap) s i ->
        (forall g j, g < gap -> ~ occurs_at (candidate v g) s j) ->
        let ctx' :=
          Context.set_term_at (Z.of_nat i) (mkEntry (n - gap) gap) ctx in
        exec (new_Term v) s ctx = (true, ctx')
        /\ Term_exec_loop (S (S tolerance)) v tolerance s 0 false ctx =
           (S gap, true, ctx')
        /\ Context.lookup (snd (exec (new_Term v) s ctx)) (Z.of_nat i) =
           Some (mkEntry (n - gap) gap)
        /\ (forall j, j <> Z.of_nat i ->
              Context.lookup (snd (exec (new_Term v) s ctx)) j =
              Context.lookup ctx j)
        /\ Context.success (snd (exec (new_Term v) s ctx)) =
           Context.success ctx)
  /\ ((forall gap i, gap <= tolerance -> ~ occurs_at (candidate v gap) s i) ->
      exec (new_Term v) s ctx = (false, ctx)
      /\ Term_exec_loop (S (S tolerance)) v tolerance s 0 false ctx =
         (S tolerance, false, ctx)).
Proof.
  intros n tolerance.
  assert (Htol : tolerance <= n) by apply ceil_div_4_spec.
  pose proof (Term_exec_loop_spec v tolerance s Htol (S (S tolerance)) 0 ctx
                ltac:(lia) ltac:(lia)) as Hloop.
  split; [reflexivity|].
  split; [split; apply ceil_div_4_spec|].
  unfold new_Term. fold n. fold tolerance. simpl exec. unfold Term_exec.
  destruct Hloop as [[Hnone Hrun] | (g & i & Hg & Hfind & Hnone & Hrun)];
    rewrite Hrun; simpl.
  - split; [|split].
    + split; [discriminate|]. intros (gap & j & Hgap & Hocc).
      exfalso. specialize (Hnone gap ltac:(lia)).
      now apply (proj1 (find_None _ _) Hnone j).
    + intros gap j Hgap [Hocc _] _. exfalso.
      specialize (Hnone gap ltac:(lia)).
      now apply (proj1 (find_None _ _) Hnone j).
    + intros _. split; reflexivity.
  - apply find_Some in Hfind as Hfirst.
    split; [|split].
    + split; [|reflexivity]. intros _. exists g, i.
      split; [lia | apply Hfirst].
    + intros gap j Hgap Hj Hsmaller.
      assert (gap = g) as ->.
      { destruct (Nat.lt_trichotomy gap g) as [Hlt | [Heq | Hgt]];
          [exfalso | assumption | exfalso].
        - specialize (Hnone gap ltac:(lia)).
          apply (proj1 (find_None _ _) Hnone j). apply Hj.
        - apply (Hsmaller g i Hgt). apply Hfirst. }
      apply find_Some in Hj. rewrite Hj in Hfind. injection Hfind as ->.
      split; [reflexivity|]. split; [reflexivity|].
      split; [apply lookup_set_term_at|].
      split; [intros k Hk; apply lookup_set_term_at_ne; congruence|].
      apply success_set_term_at.
    + intros Habs. exfalso. apply (Habs g i ltac:(lia)). apply Hfirst.
Qed.

Lemma Term_exec_fuzzy_prefix_witness :
  exec (new_Term "defg ghij") "mystring abc defg ghi jkl" Context.new =
  (true, Context.set_term_at 13 (mkEntry 8 1) Context.new)
  /\ Context.lookup
       (snd (exec (new_Term "defg ghij") "mystring abc defg ghi jkl"
               Context.new)) 13 =
     Some (mkEntry 8 1).
Proof.
  destruct (Term_exec_fuzzy_prefix "defg ghij" "mystring abc defg ghi jkl"
              Context.new) as (_ & _ & _ & H & _).
  assert (Hrun : _) by
    (apply (H 1 13);
     [ vm_compute; lia
     | apply find_Some; reflexivity
     | intros g j Hg; assert (g = 0) as -> by lia;
       revert j; apply find_None; reflexivity ]).
  destruct Hrun as (H1 & _ & H2 & _). split; [exact H1 | exact H2].
Defined.

(** The boolean result of the loop does not depend on the context. *)
Lemma Term_exec_loop_indep (v : string) (tol : nat) (s : string) :
  forall fuel gap m c1 c2,
    fst (Term_exec_loop fuel v tol s gap m c1) =
    fst (Term_exec_loop fuel v tol s gap m c2).
Proof.
  induction fuel as [|fuel IH]; intros gap m c1 c2; simpl; [reflexivity|].
  destruct ((gap <=? tol)%nat && negb m); [|reflexivity].
  unfold Term_match.
  destruct (JS.indexOf s _ =? -1)%Z; apply IH.
Qed.

Lemma exec_result_indep (n : Node) (s : string) (c1 c2 : Context.t) :
  fst (exec n s c1) = fst (exec n s c2).
Proof.
  revert c1 c2. induction n as [v tol | n IH | ty l IHl r IHr]; intros c1 c2.
  - simpl. unfold Term_exec.
    pose proof (Term_exec_loop_indep v tol s (S (S tol)) 0 false c1 c2) as H.
    destruct (Term_exec_loop _ v tol s 0 false c1) as [[g1 m1] d1].
    destruct (Term_exec_loop _ v tol s 0 false c2) as [[g2 m2] d2].
    simpl in *. congruence.
  - simpl. specialize (IH c1 c2).
    destruct (exec n s c1), (exec n s c2). simpl in *. congruence.
  - simpl. specialize (IHl c1 c2).
    destruct (exec l s c1) as [a1 d1], (exec l s c2) as [a2 d2].
    simpl in IHl. subst a2. specialize (IHr d1 d2).
    destruct (exec r s d1) as [b1 e1], (exec r s d2) as [b2 e2].
    simpl in *. now subst.
Qed.

Lemma exec_matches (n : Node) (s : string) (c : Context.t) :
  fst (exec n s c) = matches n s.
Proof. apply exec_result_indep. Qed.

(** ** The match context *)

(** [Term.match] writes whatever was recorded before at the offset. *)
Lemma Term_match_overwrites (v s value : string) (c : Context.t) (i : nat) :
  first_occurrence value s i ->
  Term_match v s value c =
    (true,
     Context.set_term_at (Z.of_nat i)
       (mkEntry (String.length value) (String.length v - String.length value))
       c)
  /\ Context.lookup (snd (Term_match v s value c)) (Z.of_nat i) =
     Some (mkEntry (String.length value)
             (String.length v - String.length value)).
Proof.
  intros H. apply indexOf_found in H. unfold Term_match. rewrite H.
  destruct (Z.eqb_spec (Z.of_nat i) (-1)) as [E|_]; [lia|].
  split; [reflexivity | apply lookup_set_term_at].
Qed.

(** The guarded write of the earlier revision keeps an existing entry. *)
Lemma Part001_Term_test_keeps_first (v s value : string) (c : Context.t)
    (i : Z) (e : Entry) :
  Context.lookup c i = Some e ->
  Context.lookup (snd (Part001.Term_test v s value c)) i = Some e.
Proof.
  intros H. unfold Part001.Term_test, Context.get_term, Context.lookup in *.
  destruct (JS.indexOf s value =? -1)%Z; [assumption|].
  destruct c as [[m|] sc]; simpl in *; [|discriminate].
  destruct (m !! JS.indexOf s value) eqn:E; simpl; [assumption|].
  rewrite lookup_insert_ne; [assumption|].
  intros Heq. rewrite Heq in E. congruence.
Qed.

(** ** The parser does not depend on the fuel, once it has enough *)

Lemma fuel_le_refl {S A : Type} (x : outcome A * S) : fuel_le x x.
Proof. now right. Qed.

Lemma fuel_le_out {S A : Type} (s : S) (y : outcome A * S) :
  fuel_le (out_of_fuel s) y.
Proof. now left. Qed.

Lemma fuel_le_bind {S A B : Type} (m1 m2 : M S A) (k1 k2 : A -> M S B)
    (s : S) :
  fuel_le (m1 s) (m2 s) ->
  (forall a s', fuel_le (k1 a s') (k2 a s')) ->
  fuel_le (bind m1 k1 s) (bind m2 k2 s).
Proof.
  intros [H | H] Hk; unfold bind.
  - destruct (m1 s) as [[a | e |] s1]; simpl in H; try discriminate.
    now left.
  - rewrite <- H. destruct (m1 s) as [[a | e |] s1].
    + apply Hk.
    + apply fuel_le_refl.
    + now left.
Qed.

Lemma fuel_le_result {S A : Type} (x y : outcome A * S) :
  fuel_le x y -> fst x <> OutOfFuel -> y = x.
Proof. intros [H | H] Hne; [contradiction | now symmetry]. Qed.

Section Unfolding.
Import Parser.

Context {Src : Type} {source : TokenSource Src}.

Lemma parse_operand_S (fuel : nat) (parse_op : bool) :
  parse_operand (S fuel) parse_op =
  if parse_op then
    let* operand := parse_operand fuel false in
    parse_operator fuel operand 0
  else lazy_operator fuel.
Proof. reflexivity. Qed.

Lemma operand_expr_S (fuel : nat) :
  operand_expr (S fuel) =
  let* n := is_not in
  if JS.defined n then parse_not fuel
  else
    let* p := is_punc "(" in
    if JS.defined p then parse_operands fuel
    else
      let* tm := is_term in
      if JS.defined tm then parse_term else unexpected.
Proof. reflexivity. Qed.

Lemma lazy_operator_S (fuel : nat) :
  lazy_operator (S fuel) =
  let* expr := operand_expr fuel in
  let* e := on_input source_eof in
  if e then ret expr
  else
    let* o := is_op in
    if JS.defined o then ret expr
    else
      let* p := is_punc ")" in
      if JS.defined p then ret expr
      else
        let* lz := get_is_lazy in
        (match lz with
         | Some false => throw_lazy
         | _ => set_is_lazy true
         end) ;;
        let* right := parse_operand fuel true in
        ret (Op "|" expr right).
Proof. reflexivity. Qed.

Lemma parse_operator_S (fuel : nat) (left : Node) (prec : nat) :
  parse_operator (S fuel) left prec =
  let* tok := is_op in
  match tok with
  | Some tk =>
      let* lz := get_is_lazy in
      (match lz with
       | Some true => throw_lazy
       | _ => set_is_lazy false
       end) ;;
      match _precedence (tok_type tk) with
      | Some next =>
          if (prec <? next)%nat then
            on_input source_next ;;
            let* operand := parse_operand fuel false in
            let* right := parse_operator fuel operand next in
            parse_operator fuel (Op (tok_type tk) left right) prec
          else ret left
      | None => ret left
      end
  | None => ret left
  end.
Proof. reflexivity. Qed.

Lemma parse_not_S (fuel : nat) :
  parse_not (S fuel) =
  (on_input source_next ;;
   let* v := parse_operand fuel false in
   ret (Not v)).
Proof. reflexivity. Qed.

Lemma parse_operands_S (fuel : nat) :
  parse_operands (S fuel) =
  (skip_punc "(" ;;
   let* operands := parse_operand fuel true in
   skip_punc ")" ;;
   ret operands).
Proof. reflexivity. Qed.

End Unfolding.

(** One step of a monotonicity proof: split a bind, case on a branch, or
    close the goal by reflexivity or a hypothesis. *)
Ltac fuel_le_step :=
  first
    [ apply fuel_le_refl
    | apply fuel_le_out
    | match goal with
      | H : _ |- _ => apply H; lia
      end
    | apply fuel_le_bind; [| intros ? ?]
    | match goal with
      | |- fuel_le ((if ?b then _ else _) _) _ => destruct b
      | |- fuel_le ((match ?x with _ => _ end) _) _ => destruct x
      end ].

Lemma parse_fuel_mono {Src : Type} {source : TokenSource Src} (n : nat) :
  (forall m b (s : Parser.t Src), n <= m ->
     fuel_le (Parser.parse_operand n b s) (Parser.parse_operand m b s))
  /\ (forall m s, n <= m ->
     fuel_le (Parser.operand_expr n s) (Parser.operand_expr m s))
  /\ (forall m s, n <= m ->
     fuel_le (Parser.lazy_operator n s) (Parser.lazy_operator m s))
  /\ (forall m l p s, n <= m ->
     fuel_le (Parser.parse_operator n l p s) (Parser.parse_operator m l p s))
  /\ (forall m s, n <= m ->
     fuel_le (Parser.parse_not n s) (Parser.parse_not m s))
  /\ (forall m s, n <= m ->
     fuel_le (Parser.parse_operands n s) (Parser.parse_operands m s)).
Proof.
  induction n as [|n (IH1 & IH2 & IH3 & IH4 & IH5 & IH6)].
  - repeat split; intros; apply fuel_le_out.
  - repeat split; intros [|m]; intros; try lia.
    + rewrite !parse_operand_S. repeat fuel_le_step.
    + rewrite !operand_expr_S. repeat fuel_le_step.
    + rewrite !lazy_operator_S. repeat fuel_le_step.
    + rewrite !parse_operator_S. repeat fuel_le_step.
    + rewrite !parse_not_S. repeat fuel_le_step.
    + rewrite !parse_operands_S. repeat fuel_le_step.
Qed.

Lemma compile_fuel_mono (n m : nat) (i : Interpreter.t) :
  n <= m ->
  fuel_le (Interpreter.compile n i) (Interpreter.compile m i).
Proof.
  intros Hnm. unfold Interpreter.compile.
  destruct (Interpreter.value i); [apply fuel_le_refl|].
  destruct (proj1 (parse_fuel_mono n) m true (Interpreter.input i) Hnm)
    as [H | H].
  - destruct (Parser.parse_operand n true _) as [[a | e |] s1];
      simpl in H; try discriminate. now left.
  - rewrite H. apply fuel_le_refl.
Qed.

Lemma exec_fuel_mono (n m : nat) (str : string) (i : Interpreter.t) :
  n <= m ->
  fuel_le (Interpreter.exec n str i) (Interpreter.exec m str i).
Proof.
  intros Hnm. unfold Interpreter.exec.
  apply fuel_le_bind; [now apply compile_fuel_mono | intros; apply fuel_le_refl].
Qed.

Lemma parse_more_fuel {Src : Type} {source : TokenSource Src} (n k : nat)
    (p : Parser.t Src) (r : outcome Node * Parser.t Src) :
  Parser.parse_operand n true p = r -> fst r <> OutOfFuel ->
  Parser.parse_operand (n + k) true p = r.
Proof.
  intros <- Hne. apply fuel_le_result; [|assumption].
  apply parse_fuel_mono. lia.
Qed.

Lemma compile_more_fuel (n k : nat) (i : Interpreter.t)
    (r : outcome Node * Interpreter.t) :
  Interpreter.compile n i = r -> fst r <> OutOfFuel ->
  Interpreter.compile (n + k) i = r.
Proof.
  intros <- Hne. apply fuel_le_result; [|assumption].
  apply compile_fuel_mono. lia.
Qed.

Lemma exec_more_fuel (n k : nat) (str : string) (i : Interpreter.t)
    (r : outcome Context.t * Interpreter.t) :
  Interpreter.exec n str i = r -> fst r <> OutOfFuel ->
  Interpreter.exec (n + k) str i = r.
Proof.
  intros <- Hne. apply fuel_le_result; [|assumption].
  apply exec_fuel_mono. lia.
Qed.

(** C2. The first-match-wins rule fails on the code: in the query
    [abcd | abce] run on the subject [abce], the left term records
    [{length: 3, gap: 1}] at offset 0 and the right term, matching at the
    same offset later in the same pass, replaces it by
    [{length: 4, gap: 0}]; the context returned by the interpreter holds
    the later entry. *)
Theorem later_match_overwrites_entry :
  let left_ := new_Term "abcd" in
  let right_ := new_Term "abce" in
  Context.lookup (snd (exec left_ "abce" Context.new)) 0
    = Some (mkEntry 3 1)
  /\ Context.lookup (snd (exec (Op "|" left_ right_) "abce" Context.new)) 0
    = Some (mkEntry 4 0)
  /\ forall fuel,
      exists c i,
        Interpreter.exec (12 + fuel) "abce" (Interpreter.new "abcd | abce")
          = (Return c, i)
        /\ Context.success c = Some true
        /\ Context.lookup c 0 = Some (mkEntry 4 0).
Proof.
  split; [reflexivity|]. split; [reflexivity|]. intros fuel.
  eexists _, _. split.
  - apply exec_more_fuel; [vm_compute; reflexivity | discriminate].
  - split; reflexivity.
Qed.

(** ** Evaluation of operators *)

(** What a term leaves in the context: nothing when it fails, one written
    entry when it matches. *)
Lemma Term_exec_loop_context (v : string) (tol : nat) (s : string) :
  forall fuel gap ctx g m c,
    Term_exec_loop fuel v tol s gap false ctx = (g, m, c) ->
    (m = false /\ c = ctx)
    \/ (m = true /\ exists i e, c = Context.set_term_at i e ctx).
Proof.
  induction fuel as [|fuel IH]; intros gap ctx g m c; simpl.
  - intros [= <- <- <-]. now left.
  - destruct (gap <=? tol)%nat; simpl.
    + unfold Term_match. destruct (JS.indexOf s _ =? -1)%Z.
      * apply IH.
      * rewrite Term_exec_loop_matched. intros [= <- <- <-].
        right. split; [reflexivity|]. eexists _, _. reflexivity.
    + intros [= <- <- <-]. now left.
Qed.

Lemma Term_exec_context (v : string) (tol : nat) (s : string)
    (ctx : Context.t) :
  (exec (Term v tol) s ctx = (false, ctx))
  \/ (exists i e, exec (Term v tol) s ctx = (true, Context.set_term_at i e ctx)).
Proof.
  simpl. unfold Term_exec.
  destruct (Term_exec_loop (S (S tol)) v tol s 0 false ctx) as [[g m] c] eqn:E.
  apply Term_exec_loop_context in E as [[-> ->] | [-> (i & e & ->)]].
  - now left.
  - right. now exists i, e.
Qed.

Lemma Op_exec_matches (type : string) (l r : Node) (s : string)
    (ctx : Context.t) :
  exec (Op type l r) s ctx =
  ((if String.eqb type "&" then matches l s && matches r s
    else matches l s || matches r s),
   snd (exec r s (snd (exec l s ctx)))).
Proof.
  simpl.
  rewrite <- (exec_matches l s ctx).
  rewrite <- (exec_matches r s (snd (exec l s ctx))).
  destruct (exec l s ctx) as [a1 c1]. simpl.
  destruct (exec r s c1) as [a2 c2]. reflexivity.
Qed.

Lemma Op_and_matches (l r : Node) (s : string) (ctx : Context.t) :
  fst (exec (Op "&" l r) s ctx) = matches l s && matches r s.
Proof. now rewrite Op_exec_matches. Qed.

Lemma Op_or_matches (l r : Node) (s : string) (ctx : Context.t) :
  fst (exec (Op "|" l r) s ctx) = matches l s || matches r s.
Proof. now rewrite Op_exec_matches. Qed.

(** C3. [Op.exec] runs the left child, then the right child on the context
    left by the left child, whatever the left result is, and combines the
    two results with AND for ['&'] and OR for ['|'].  In particular, when
    term A fails and term B matches, the conjunction is false and the
    context holds the entry written by B. *)
Theorem Op_exec_no_short_circuit :
  (forall (type : string) (l r : Node) (s : string) (ctx : Context.t),
      let c1 := snd (exec l s ctx) in
      let c2 := snd (exec r s c1) in
      exec (Op type l r) s ctx =
        ((if String.eqb type "&" then matches l s && matches r s
          else matches l s || matches r s), c2)
      /\ exec (Op "&" l r) s ctx = (matches l s && matches r s, c2)
      /\ exec (Op "|" l r) s ctx = (matches l s || matches r s, c2))
  /\ (forall (a b s : string) (ctx : Context.t),
        matches (new_Term a) s = false ->
        matches (new_Term b) s = true ->
        exists i e,
          exec (new_Term b) s ctx = (true, Context.set_term_at i e ctx)
          /\ exec (Op "&" (new_Term a) (new_Term b)) s ctx =
             (false, Context.set_term_at i e ctx)
          /\ Context.lookup
               (snd (exec (Op "&" (new_Term a) (new_Term b)) s ctx)) i =
             Some e).
Proof.
  pose proof Op_exec_matches as Hgen.
  split.
  - intros type l r s ctx c1 c2. split; [apply Hgen|].
    split; [apply (Hgen "&" l r s ctx) | apply (Hgen "|" l r s ctx)].
  - intros a b s ctx Ha Hb. unfold new_Term in *.
    assert (HA : exec (Term a (JS.ceil_div (String.length a) 4)) s ctx =
                 (false, ctx)).
    { destruct (Term_exec_context a (JS.ceil_div (String.length a) 4) s ctx)
        as [H | (i & e & H)]; [exact H|].
      pose proof (exec_matches (Term a (JS.ceil_div (String.length a) 4))
                    s ctx) as E.
      rewrite H in E. cbn [fst] in E. congruence. }
    destruct (Term_exec_context b (JS.ceil_div (String.length b) 4) s ctx)
      as [H | (i & e & H)].
    { pose proof (exec_matches (Term b (JS.ceil_div (String.length b) 4))
                    s ctx) as E.
      rewrite H in E. cbn [fst] in E. congruence. }
    exists i, e. split; [exact H|].
    assert (HAB : exec (Op "&" (Term a (JS.ceil_div (String.length a) 4))
                          (Term b (JS.ceil_div (String.length b) 4))) s ctx =
                  (false, Context.set_term_at i e ctx)).
    { rewrite Hgen, HA. cbn [snd]. rewrite H, Ha. reflexivity. }
    split; [exact HAB|]. rewrite HAB. apply lookup_set_term_at.
Qed.

Lemma Op_exec_no_short_circuit_witness :
  exists i e,
    exec (new_Term "abc") "abc" Context.new =
      (true, Context.set_term_at i e Context.new)
    /\ exec (Op "&" (new_Term "xyz") (new_Term "abc")) "abc" Context.new =
       (false, Context.set_term_at i e Context.new)
    /\ Context.lookup
         (snd (exec (Op "&" (new_Term "xyz") (new_Term "abc")) "abc"
                 Context.new)) i = Some e.
Proof.
  apply (proj2 Op_exec_no_short_circuit "xyz" "abc" "abc" Context.new);
    reflexivity.
Defined.

(** Nesting of disjunctions does not change evaluation: the children run
    in the same order on the same contexts. *)
Lemma Op_or_assoc (a b c : Node) (s : string) (ctx : Context.t) :
  exec (Op "|" a (Op "|" b c)) s ctx = exec (Op "|" (Op "|" a b) c) s ctx.
Proof.
  simpl. destruct (exec a s ctx) as [ra c1].
  destruct (exec b s c1) as [rb c2]. destruct (exec c s c2) as [rc c3].
  now rewrite orb_assoc.
Qed.

(** ** The interpreter *)

Lemma compile_caches (fuel : nat) (i i' : Interpreter.t) (root : Node) :
  Interpreter.compile fuel i = (Return root, i') ->
  Interpreter.value i' = Some root.
Proof.
  unfold Interpreter.compile. destruct (Interpreter.value i) as [v|] eqn:E.
  - intros [= <- <-]. exact E.
  - destruct (Parser.parse_operand fuel true _) as [[n | e |] p];
      intros [= <- <-]. reflexivity.
Qed.

Lemma compile_cached (fuel : nat) (i : Interpreter.t) (root : Node) :
  Interpreter.value i = Some root ->
  Interpreter.compile fuel i = (Return root, i).
Proof. intros H. unfold Interpreter.compile. now rewrite H. Qed.

Lemma exec_compiled (fuel : nat) (str : string) (i i' : Interpreter.t)
    (root : Node) :
  Interpreter.compile fuel i = (Return root, i') ->
  Interpreter.exec fuel str i = (Return (evaluation root str), i').
Proof.
  intros H. unfold Interpreter.exec, bind, evaluation. rewrite H.
  destruct (exec root str Context.new). reflexivity.
Qed.

Lemma exec_not_compiled (fuel : nat) (str : string) (i : Interpreter.t) :
  (forall e i', Interpreter.compile fuel i = (Throw e, i') ->
                Interpreter.exec fuel str i = (Throw e, i'))
  /\ (forall i', Interpreter.compile fuel i = (OutOfFuel, i') ->
                 Interpreter.exec fuel str i = (OutOfFuel, i')).
Proof.
  split; intros; unfold Interpreter.exec, bind; now rewrite H.
Qed.

Lemma evaluation_success (root : Node) (str : string) :
  Context.success (evaluation root str) = Some (matches root str)
  /\ Context.term (evaluation root str) =
     Context.term (snd (exec root str Context.new)).
Proof.
  unfold evaluation, matches. destruct (exec root str Context.new).
  split; reflexivity.
Qed.

(** C6. When [compile] yields a tree, [exec] returns the context obtained
    by evaluating that tree on the subject from a new context, with
    [success] set to the boolean result; the next call starts again from a
    new context, whatever was evaluated before.  [exec] throws only what
    [compile] throws: evaluation itself always returns. *)
Theorem Interpreter_exec_fresh_context (fuel : nat) (str : string)
    (i : Interpreter.t) :
  (forall root i',
      Interpreter.compile fuel i = (Return root, i') ->
      Interpreter.exec fuel str i = (Return (evaluation root str), i')
      /\ Context.success (evaluation root str)
         = Some (fst (exec root str Context.new))
      /\ Context.term (evaluation root str)
         = Context.term (snd (exec root str Context.new))
      /\ forall fuel' str',
          Interpreter.exec fuel' str' i' = (Return (evaluation root str'), i'))
  /\ (forall e i',
        Interpreter.exec fuel str i = (Throw e, i') <->
        Interpreter.compile fuel i = (Throw e, i')).
Proof.
  split.
  - intros root i' H. split; [now apply exec_compiled|].
    split; [apply evaluation_success|]. split; [apply evaluation_success|].
    intros fuel' str'. apply exec_compiled, compile_cached.
    eapply compile_caches, H.
  - intros e i'. split.
    + destruct (Interpreter.compile fuel i) as [[root | e0 |] i0] eqn:E.
      * rewrite (exec_compiled _ _ _ _ _ E). discriminate.
      * rewrite (proj1 (exec_not_compiled fuel str i) _ _ E).
        intros [= -> ->]. reflexivity.
      * rewrite (proj2 (exec_not_compiled fuel str i) _ E). discriminate.
    + apply exec_not_compiled.
Qed.

Lemma Interpreter_exec_fresh_context_witness :
  exists i',
    Interpreter.exec 12 "abce" (Interpreter.new "abcd | abce") =
    (Return (evaluation (Op "|" (new_Term "abcd") (new_Term "abce")) "abce"),
     i').
Proof.
  exists (snd (Interpreter.compile 12 (Interpreter.new "abcd | abce"))).
  apply (proj1 (Interpreter_exec_fresh_context 12 "abce"
                  (Interpreter.new "abcd | abce"))).
  vm_compute. reflexivity.
Defined.

Lemma run_calls_cached (root : Node) (i : Interpreter.t) :
  Interpreter.value i = Some root ->
  forall cs, run_calls cs i = (map (cached_reply root) cs, i).
Proof.
  intros H. induction cs as [|[fuel c] cs IH]; simpl; [reflexivity|].
  destruct c as [|str]; unfold cached_reply; simpl.
  - rewrite (compile_cached fuel i root H), IH. reflexivity.
  - rewrite (exec_compiled fuel str i i root (compile_cached fuel i root H)),
      IH.
    reflexivity.
Qed.




(** C10. The query made of an empty quoted term compiles to the term of
    value [""], whose tolerance is 0; that term returns true on every
    subject and writes [{length: 0, gap: 0}] at offset 0, so [exec] on this
    query succeeds on every subject. *)
Theorem empty_term_matches_everything :
  new_Term "" = Term "" 0
  /\ (forall fuel, exists i,
        Interpreter.compile (6 + fuel)
          (Interpreter.new (JS.dquote ++ JS.dquote)) =
        (Return (new_Term ""), i))
  /\ (forall s ctx,
        exec (new_Term "") s ctx =
          (true, Context.set_term_at 0 (mkEntry 0 0) ctx)
        /\ Context.lookup (snd (exec (new_Term "") s ctx)) 0 =
           Some (mkEntry 0 0))
  /\ (forall fuel s, exists c i,
        Interpreter.exec (6 + fuel) s
          (Interpreter.new (JS.dquote ++ JS.dquote)) = (Return c, i)
        /\ Context.success c = Some true
        /\ Context.lookup c 0 = Some (mkEntry 0 0)).
Proof.
  assert (Hc : forall fuel,
             Interpreter.compile (6 + fuel)
               (Interpreter.new (JS.dquote ++ JS.dquote)) =
             (Return (new_Term ""),
              snd (Interpreter.compile 6
                     (Interpreter.new (JS.dquote ++ JS.dquote))))).
  { intros fuel. apply compile_more_fuel; [vm_compute; reflexivity|].
    discriminate. }
  assert (He : forall s ctx,
             exec (new_Term "") s ctx =
             (true, Context.set_term_at 0 (mkEntry 0 0) ctx)).
  { intros s ctx. destruct s; reflexivity. }
  split; [reflexivity|]. split; [intros fuel; eexists; apply Hc|].
  split.
  - intros s ctx. split; [apply He|]. rewrite He. apply lookup_set_term_at.
  - intros fuel s. eexists _, _.
    split; [apply (exec_compiled _ _ _ _ _ (Hc fuel))|].
    unfold evaluation. rewrite He. split; reflexivity.
Qed.

(** ** The bounds of the lexer loops

    The loops of [read_while] and [read_escaped] are run at most as many
    times as the input has characters; more would change nothing. *)

Lemma charAt_past_end (s : string) (p : nat) :
  String.length s <= p -> JS.charAt s p = "".
Proof.
  intros H. unfold JS.charAt.
  replace (String.get p s) with (@None ascii); [reflexivity|].
  revert p H. induction s as [|c s IH]; intros p H; [reflexivity|].
  destruct p as [|p]; simpl in *; [lia|]. apply IH. lia.
Qed.

Lemma read_while_loop_enough (predicate : string -> bool) (fuel k : nat) :
  forall str s,
    String.length (InputStream.input (TokenStream.input s))
    - InputStream.pos (TokenStream.input s) <= fuel ->
    TokenStream.read_while_loop (fuel + k) predicate str s =
    TokenStream.read_while_loop fuel predicate str s.
Proof.
  induction fuel as [|fuel IH]; intros str [cur [p inp]] H;
    cbn [TokenStream.input InputStream.input InputStream.pos] in H.
  - destruct k as [|k]; [reflexivity|].
    cbn [Nat.add TokenStream.read_while_loop].
    unfold bind, TokenStream.on_input, on_field, InputStream.eof,
      InputStream.peek, bind, ret.
    cbn -[JS.charAt TokenStream.read_while_loop String.eqb String.append].
    rewrite (charAt_past_end inp p) by lia. reflexivity.
  - cbn [Nat.add TokenStream.read_while_loop].
    unfold bind, TokenStream.on_input, on_field, InputStream.eof,
      InputStream.peek, InputStream.next, bind, ret.
    cbn -[JS.charAt TokenStream.read_while_loop String.eqb String.append].
    destruct (negb _ && _); [|reflexivity].
    apply IH. cbn. lia.
Qed.

Lemma read_escaped_loop_enough (end_ : string) (fuel k : nat) :
  forall escaped str s,
    String.length (InputStream.input (TokenStream.input s))
    - InputStream.pos (TokenStream.input s) <= fuel ->
    TokenStream.read_escaped_loop (fuel + k) end_ escaped str s =
    TokenStream.read_escaped_loop fuel end_ escaped str s.
Proof.
  induction fuel as [|fuel IH]; intros escaped str [cur [p inp]] H;
    cbn [TokenStream.input InputStream.input InputStream.pos] in H.
  - destruct k as [|k]; [reflexivity|].
    cbn [Nat.add TokenStream.read_escaped_loop].
    unfold bind, TokenStream.on_input, on_field, InputStream.eof,
      InputStream.peek, bind, ret.
    cbn -[JS.charAt TokenStream.read_escaped_loop String.eqb String.append].
    rewrite (charAt_past_end inp p) by lia. reflexivity.
  - cbn [Nat.add TokenStream.read_escaped_loop].
    unfold bind, TokenStream.on_input, on_field, InputStream.eof,
      InputStream.peek, InputStream.next, bind, ret.
    cbn -[JS.charAt TokenStream.read_escaped_loop String.eqb String.append].
    destruct (negb _); [|reflexivity].
    cbn -[JS.charAt TokenStream.read_escaped_loop String.eqb String.append].
    destruct escaped; [apply IH; cbn; lia|].
    destruct (String.eqb _ JS.backslash); [apply IH; cbn; lia|].
    destruct (String.eqb _ end_); [reflexivity | apply IH; cbn; lia].
Qed.

(** [read_while] and [read_escaped] with any larger bound. *)
Lemma read_while_bound (predicate : string -> bool) (k : nat)
    (s : TokenStream.t) :
  TokenStream.read_while predicate s =
  TokenStream.read_while_loop
    (String.length (InputStream.input (TokenStream.input s)) + k)
    predicate "" s.
Proof.
  unfold TokenStream.read_while. symmetry. apply read_while_loop_enough. lia.
Qed.

Lemma read_escaped_bound (end_ : string) (k : nat) (s : TokenStream.t) :
  TokenStream.read_escaped end_ s =
  (TokenStream.on_input InputStream.next ;;
   TokenStream.read_escaped_loop
     (String.length (InputStream.input (TokenStream.input s)) + k)
     end_ false "") s.
Proof.
  unfold TokenStream.read_escaped, bind.
  destruct s as [cur [p inp]]. cbn -[TokenStream.read_escaped_loop].
  symmetry. apply read_escaped_loop_enough. cbn. lia.
Qed.

(** ** The script at the end of the source *)

(** The query and subject the source file runs when loaded: both terms
    are recorded, and the quoted phrase matches with one character cut. *)
Example source_script :
  exists i,
    Interpreter.exec 12 "mystring abc defg ghi jkl"
      (Interpreter.new
         ("!abc | " ++ JS.dquote ++ "defg ghij" ++ JS.dquote)) =
    (Return
       (Context.mk
          (Some (<[13%Z := mkEntry 8 1]> (<[9%Z := mkEntry 3 0]> ∅)))
          (Some true)),
     i).
Proof. eexists. vm_compute. reflexivity. Qed.

(** ** Lexing of quoted terms *)

Lemma get_at_pos (inp : string) (p : nat) (c : ascii) (x : string) :
  at_pos inp p (String c x) -> String.get p inp = Some c.
Proof.
  intros (pre & -> & <-). induction pre as [|d pre IH]; simpl; auto.
Qed.

Lemma charAt_at_pos (inp : string) (p : nat) (c : ascii) (x : string) :
  at_pos inp p (String c x) -> JS.charAt inp p = String c EmptyString.
Proof. intros H. unfold JS.charAt. now rewrite (get_at_pos _ _ _ _ H). Qed.

Lemma charAt_at_end (inp : string) (p : nat) :
  at_pos inp p "" -> JS.charAt inp p = "".
Proof.
  intros (pre & -> & <-). unfold JS.charAt. rewrite append_empty_r.
  replace (String.get (String.length pre) pre) with (@None ascii);
    [reflexivity|].
  induction pre as [|d pre IH]; simpl; auto.
Qed.

Lemma at_pos_next (inp : string) (p : nat) (c : ascii) (x : string) :
  at_pos inp p (String c x) -> at_pos inp (S p) x.
Proof.
  intros (pre & -> & <-). exists (pre ++ String c ""). split.
  - now rewrite append_assoc.
  - rewrite length_append. simpl. lia.
Qed.

Lemma at_pos_length (inp : string) (p : nat) (x : string) :
  at_pos inp p x -> String.length inp = p + String.length x.
Proof. intros (pre & -> & <-). apply length_append. Qed.

Lemma encodes_escape (w : string) : encodes w (escape w).
Proof.
  induction w as [|c w IH]; simpl; [constructor|].
  destruct (Ascii.eqb_spec c "092"%char) as [->|Hb]; simpl.
  - now constructor.
  - destruct (Ascii.eqb_spec c "034"%char) as [->|Hq].
    + now constructor.
    + now constructor.
Qed.

Section QuotedTerm.
Import TokenStream.

Variables (cur : option Token) (inp : string).

(** One iteration of the loop of [read_escaped] on a character. *)
Lemma read_escaped_loop_char (fuel : nat) (end_ : string) (escaped : bool)
    (str : string) (p : nat) (c : ascii) (x : string) :
  at_pos inp p (String c x) ->
  read_escaped_loop (S fuel) end_ escaped str (stream_at cur inp p) =
  let ch := String c EmptyString in
  if escaped then read_escaped_loop fuel end_ false (str ++ ch) (stream_at cur inp (S p))
  else if String.eqb ch JS.backslash then
         read_escaped_loop fuel end_ true str (stream_at cur inp (S p))
  else if String.eqb ch end_ then (Return str, stream_at cur inp (S p))
  else read_escaped_loop fuel end_ false (str ++ ch) (stream_at cur inp (S p)).
Proof.
  intros H. apply charAt_at_pos in H.
  cbn [read_escaped_loop].
  unfold bind, on_input, on_field, InputStream.eof, InputStream.next,
    InputStream.peek, bind, ret, stream_at.
  cbn -[JS.charAt read_escaped_loop String.eqb String.append].
  rewrite H. change (String.eqb (String c "") "") with false. cbn [negb].
  cbn -[JS.charAt read_escaped_loop String.eqb String.append].
  rewrite ?H. destruct escaped; [reflexivity|].
  destruct (String.eqb (String c "") JS.backslash); [reflexivity|].
  destruct (String.eqb (String c "") end_); reflexivity.
Qed.

(** The loop stops at the end of the input. *)
Lemma read_escaped_loop_end (fuel : nat) (end_ : string) (escaped : bool)
    (str : string) (p : nat) :
  at_pos inp p "" ->
  read_escaped_loop fuel end_ escaped str (stream_at cur inp p) = (Return str, stream_at cur inp p).
Proof.
  intros H. apply charAt_at_end in H. destruct fuel; [reflexivity|].
  cbn [read_escaped_loop].
  unfold bind, on_input, on_field, InputStream.eof, InputStream.next,
    InputStream.peek, bind, ret, stream_at.
  cbn -[JS.charAt read_escaped_loop String.eqb String.append].
  rewrite !H. reflexivity.
Qed.

Lemma eqb_char_backslash (c : ascii) :
  String.eqb (String c "") JS.backslash = Ascii.eqb c "092"%char.
Proof. unfold JS.backslash. cbn [String.eqb]. now destruct (Ascii.eqb c _). Qed.

Lemma eqb_char_dquote (c : ascii) :
  String.eqb (String c "") JS.dquote = Ascii.eqb c "034"%char.
Proof. unfold JS.dquote. cbn [String.eqb]. now destruct (Ascii.eqb c _). Qed.

(** Reading an encoded body up to its closing quote. *)
Lemma read_escaped_loop_closed (w e : string) :
  encodes w e ->
  forall fuel str p rest,
    at_pos inp p (e ++ JS.dquote ++ rest) ->
    String.length e < fuel ->
    read_escaped_loop fuel JS.dquote false str (stream_at cur inp p) =
    (Return (str ++ w), stream_at cur inp (p + String.length e + 1)).
Proof.
  induction 1 as [| c w e Hb Hq Henc IH | c w e Henc IH];
    intros fuel str p rest Hpos Hfuel.
  - destruct fuel as [|fuel]; [simpl in Hfuel; lia|].
    rewrite (read_escaped_loop_char _ _ _ _ _ _ _ Hpos).
    cbn zeta. rewrite append_empty_r.
    replace (p + String.length "" + 1) with (S p) by (simpl; lia).
    reflexivity.
  - destruct fuel as [|fuel]; [simpl in Hfuel; lia|].
    simpl in Hpos.
    rewrite (read_escaped_loop_char _ _ _ _ _ _ _ Hpos). cbn zeta.
    rewrite eqb_char_backslash, eqb_char_dquote.
    rewrite (proj2 (Ascii.eqb_neq _ _) Hb), (proj2 (Ascii.eqb_neq _ _) Hq).
    apply at_pos_next in Hpos.
    rewrite (IH fuel _ _ rest Hpos) by (simpl in Hfuel; lia).
    rewrite append_assoc. simpl. do 2 f_equal. unfold stream_at. do 2 f_equal. lia.
  - destruct fuel as [|[|fuel]]; try (simpl in Hfuel; lia).
    simpl in Hpos.
    rewrite (read_escaped_loop_char _ _ _ _ _ _ _ Hpos). cbn zeta.
    rewrite eqb_char_backslash, Ascii.eqb_refl.
    apply at_pos_next in Hpos.
    rewrite (read_escaped_loop_char _ _ _ _ _ _ _ Hpos). cbn zeta.
    apply at_pos_next in Hpos.
    rewrite (IH fuel _ _ rest Hpos) by (simpl in Hfuel; lia).
    rewrite append_assoc. simpl. do 2 f_equal. unfold stream_at. do 2 f_equal. lia.
Qed.

(** Reading an encoded body that the input ends without closing. *)
Lemma read_escaped_loop_open (w e : string) :
  encodes w e ->
  forall fuel str p,
    at_pos inp p e ->
    read_escaped_loop fuel JS.dquote false str (stream_at cur inp p) =
    (Return (str ++ w), stream_at cur inp (p + String.length e)) \/
    fuel <= String.length e.
Proof.
  induction 1 as [| c w e Hb Hq Henc IH | c w e Henc IH];
    intros fuel str p Hpos.
  - left. rewrite (read_escaped_loop_end _ _ _ _ _ Hpos).
    rewrite append_empty_r. simpl. now rewrite Nat.add_0_r.
  - destruct fuel as [|fuel]; [right; lia|].
    rewrite (read_escaped_loop_char _ _ _ _ _ _ _ Hpos). cbn zeta.
    rewrite eqb_char_backslash, eqb_char_dquote.
    rewrite (proj2 (Ascii.eqb_neq _ _) Hb), (proj2 (Ascii.eqb_neq _ _) Hq).
    apply at_pos_next in Hpos.
    destruct (IH fuel (str ++ String c "") _ Hpos) as [-> | Hle].
    + left. rewrite append_assoc. simpl. do 2 f_equal. unfold stream_at.
      do 2 f_equal. lia.
    + right. simpl. lia.
  - destruct fuel as [|[|fuel]]; try (right; simpl; lia).
    rewrite (read_escaped_loop_char _ _ _ _ _ _ _ Hpos). cbn zeta.
    rewrite eqb_char_backslash, Ascii.eqb_refl.
    apply at_pos_next in Hpos.
    rewrite (read_escaped_loop_char _ _ _ _ _ _ _ Hpos). cbn zeta.
    apply at_pos_next in Hpos.
    destruct (IH fuel (str ++ String c "") _ Hpos) as [-> | Hle].
    + left. rewrite append_assoc. simpl. do 2 f_equal. unfold stream_at.
      do 2 f_equal. lia.
    + right. simpl. lia.
Qed.

End QuotedTerm.

(** At a double quote, [read_next] reads a quoted term. *)
Lemma read_next_at_quote (cur : option Token) (inp : string) (p : nat)
    (x : string) :
  at_pos inp p (JS.dquote ++ x) ->
  TokenStream.read_next (stream_at cur inp p) =
  (let* v := TokenStream.read_escaped JS.dquote in
   ret (Some (mkToken "term" (Some v))))
    (stream_at cur inp p).
Proof.
  intros H. apply charAt_at_pos in H.
  unfold TokenStream.read_next, TokenStream.read_while, TokenStream.read_string.
  unfold bind at 1.
  assert (Hws : TokenStream.read_while_loop
                  (String.length
                     (InputStream.input
                        (TokenStream.input
                           (stream_at cur inp p))))
                  TokenStream.is_ch_whitespace ""
                  (stream_at cur inp p) =
                (Return "", TokenStream.mk cur (InputStream.mk p inp))).
  { destruct (String.length _); [reflexivity|].
    cbn [TokenStream.read_while_loop].
    unfold bind, TokenStream.on_input, on_field, InputStream.eof,
      InputStream.peek, bind, ret.
    cbn -[JS.charAt TokenStream.read_while_loop String.eqb String.append].
    rewrite H. reflexivity. }
  rewrite Hws.
  unfold bind, TokenStream.on_input, on_field, InputStream.eof,
    InputStream.peek, bind, ret.
  cbn -[JS.charAt TokenStream.read_escaped String.eqb String.append].
  rewrite H. change (String.eqb (String "034" "") "") with false.
  cbn -[JS.charAt TokenStream.read_escaped String.eqb String.append].
  rewrite H. change (String.eqb (String "034" "") JS.dquote) with true.
  cbn -[JS.charAt TokenStream.read_escaped String.eqb String.append].
  destruct (TokenStream.read_escaped JS.dquote _) as [[v | e |] s']; reflexivity.
Qed.

Lemma read_escaped_start (cur : option Token) (inp : string) (p : nat) :
  TokenStream.read_escaped JS.dquote
    (stream_at cur inp p) =
  TokenStream.read_escaped_loop (String.length inp) JS.dquote false ""
    (stream_at cur inp (S p)).
Proof. reflexivity. Qed.

(** C8. At a double quote the lexer reads a quoted term: it consumes the
    opening quote and then the body up to the closing quote, which it
    consumes too and leaves out of the value, or up to the end of the
    input; in the body a backslash makes the next character literal.
    Whatever string [w] the body [e] encodes is the value of the term
    token.  Two instances: the body [a\"b] gives the single token of value
    [a"b], and the body [a\\b] the value [a\b]. *)
Theorem quoted_term_lexing :
  (forall (w e rest : string) (cur : option Token) (inp : string) (p : nat),
      encodes w e ->
      at_pos inp p (JS.dquote ++ e ++ JS.dquote ++ rest) ->
      TokenStream.read_next (stream_at cur inp p) =
      (Return (Some (mkToken "term" (Some w))),
       stream_at cur inp (p + String.length e + 2)))
  /\ (forall (w e : string) (cur : option Token) (inp : string) (p : nat),
      encodes w e ->
      at_pos inp p (JS.dquote ++ e) ->
      TokenStream.read_next (stream_at cur inp p) =
      (Return (Some (mkToken "term" (Some w))),
       stream_at cur inp (p + String.length e + 1)))
  /\ (forall w, encodes w (escape w))
  /\ (let quoted :=
        JS.dquote ++ "a" ++ JS.backslash ++ JS.dquote ++ "b" ++ JS.dquote in
      let after := TokenStream.mk None (InputStream.mk 6 quoted) in
      TokenStream.read_next (TokenStream.new quoted) =
        (Return (Some (mkToken "term" (Some ("a" ++ JS.dquote ++ "b")))), after)
      /\ fst (TokenStream.read_next after) = Return None)
  /\ (let quoted :=
        JS.dquote ++ "a" ++ JS.backslash ++ JS.backslash ++ "b" ++ JS.dquote in
      let after := TokenStream.mk None (InputStream.mk 6 quoted) in
      TokenStream.read_next (TokenStream.new quoted) =
        (Return (Some (mkToken "term" (Some ("a" ++ JS.backslash ++ "b")))),
         after)
      /\ fst (TokenStream.read_next after) = Return None).
Proof.
  split; [|split; [|split; [|split]]].
  - intros w e rest cur inp p Henc Hpos.
    rewrite (read_next_at_quote _ _ _ _ Hpos). unfold bind.
    rewrite read_escaped_start.
    pose proof (at_pos_length _ _ _ Hpos) as Hlen.
    apply at_pos_next in Hpos.
    rewrite (read_escaped_loop_closed cur inp w e Henc _ "" (S p) rest Hpos).
    + unfold ret, stream_at. simpl. do 3 f_equal. lia.
    + simpl in Hlen. rewrite !length_append in Hlen. simpl in Hlen. lia.
  - intros w e cur inp p Henc Hpos.
    rewrite (read_next_at_quote _ _ _ _ Hpos). unfold bind.
    rewrite read_escaped_start.
    pose proof (at_pos_length _ _ _ Hpos) as Hlen.
    apply at_pos_next in Hpos.
    destruct (read_escaped_loop_open cur inp w e Henc (String.length inp) ""
                (S p) Hpos) as [-> | Hle].
    + unfold ret, stream_at. simpl. do 3 f_equal. lia.
    + simpl in Hlen. lia.
  - apply encodes_escape.
  - split; reflexivity.
  - split; reflexivity.
Qed.

Lemma quoted_term_lexing_witness :
  TokenStream.read_next
    (stream_at None
       ("x " ++ JS.dquote ++ "a" ++ JS.backslash ++ JS.dquote ++ "b"
             ++ JS.dquote ++ " y") 2) =
  (Return (Some (mkToken "term" (Some ("a" ++ JS.dquote ++ "b")))),
   stream_at None
     ("x " ++ JS.dquote ++ "a" ++ JS.backslash ++ JS.dquote ++ "b"
           ++ JS.dquote ++ " y") 8).
Proof.
  apply (proj1 quoted_term_lexing ("a" ++ JS.dquote ++ "b")
           ("a" ++ JS.backslash ++ JS.dquote ++ "b") " y").
  - apply (encodes_escape ("a" ++ JS.dquote ++ "b")).
  - exists "x ". split; reflexivity.
Defined.

(** ** Lookahead *)

(** At the end of the input [read_next] yields [null] and moves nothing. *)
Lemma read_next_at_end (cur : option Token) (i : InputStream.t) :
  JS.charAt (InputStream.input i) (InputStream.pos i) = "" ->
  TokenStream.read_next (TokenStream.mk cur i) =
  (Return None, TokenStream.mk cur i).
Proof.
  intros H. unfold TokenStream.read_next, TokenStream.read_while.
  assert (Hws : forall fuel,
             TokenStream.read_while_loop fuel TokenStream.is_ch_whitespace ""
               (TokenStream.mk cur i) = (Return "", TokenStream.mk cur i)).
  { intros [|fuel]; [reflexivity|]. cbn [TokenStream.read_while_loop].
    unfold bind, TokenStream.on_input, on_field, InputStream.eof,
      InputStream.peek, bind, ret.
    cbn -[JS.charAt TokenStream.read_while_loop String.eqb String.append].
    rewrite H. destruct i. reflexivity. }
  unfold bind at 1. rewrite Hws.
  unfold bind, TokenStream.on_input, on_field, InputStream.eof,
    InputStream.peek, bind, ret.
  cbn -[JS.charAt String.eqb String.append]. rewrite H. destruct i. reflexivity.
Qed.

(** When [read_next] yields [null], the cursor is at the end of the input. *)
Lemma read_next_None (s s' : TokenStream.t) :
  TokenStream.read_next s = (Return None, s') ->
  TokenStream.current s' = TokenStream.current s
  /\ JS.charAt (InputStream.input (TokenStream.input s'))
       (InputStream.pos (TokenStream.input s')) = "".
Proof.
  unfold TokenStream.read_next. unfold bind at 1.
  destruct (TokenStream.read_while _ s) as [[v | e |] s0] eqn:Hws;
    try discriminate.
  assert (Hcur : TokenStream.current s0 = TokenStream.current s).
  { revert Hws. unfold TokenStream.read_while.
    generalize (String.length (InputStream.input (TokenStream.input s))).
    generalize "". intros str fuel. revert str s.
    induction fuel as [|fuel IH]; intros str s.
    - intros [= <- <-]. reflexivity.
    - cbn [TokenStream.read_while_loop].
      unfold bind, TokenStream.on_input, on_field, InputStream.eof,
        InputStream.peek, InputStream.next, bind, ret.
      cbn -[JS.charAt TokenStream.read_while_loop String.eqb String.append].
      destruct (negb _ && _).
      + intros H. apply IH in H. exact H.
      + intros [= <- <-]. reflexivity. }
  unfold bind, TokenStream.on_input, on_field, InputStream.eof,
    InputStream.peek, bind, ret.
  cbn -[JS.charAt String.eqb String.append TokenStream.read_string
        TokenStream.read_term].
  destruct (String.eqb (JS.charAt _ _) "") eqn:E.
  - intros [= <-]. cbn. apply String.eqb_eq in E. destruct s0 as [c0 i0].
    cbn in *. auto.
  - destruct (String.eqb _ JS.dquote).
    { unfold TokenStream.read_string, bind, ret.
      destruct (TokenStream.read_escaped _ _) as [[? | ? |] ?];
        cbn; discriminate. }
    destruct (String.eqb _ "!"); [discriminate|].
    destruct (TokenStream.is_ch_term _).
    { unfold TokenStream.read_term, bind, ret.
      destruct (TokenStream.read_while TokenStream.is_ch_term _)
        as [[? | ? |] ?]; cbn; discriminate. }
    destruct (TokenStream.is_ch_op _); [discriminate|].
    destruct (TokenStream.is_ch_punc _); discriminate.
Qed.

(** A second [peek] returns the same token and changes nothing. *)
Lemma peek_stable (s s' : TokenStream.t) (tok : option Token) :
  TokenStream.peek s = (Return tok, s') ->
  TokenStream.peek s' = (Return tok, s').
Proof.
  unfold TokenStream.peek at 1.
  destruct (TokenStream.current s) as [t|] eqn:Ecur.
  - intros [= <- <-]. unfold TokenStream.peek. now rewrite Ecur.
  - unfold bind.
    destruct (TokenStream.read_next s) as [[o | e |] s1] eqn:Hnext;
      try discriminate.
    intros [= <- <-]. destruct o as [t|].
    + reflexivity.
    + apply read_next_None in Hnext as [_ Hend].
      unfold TokenStream.peek. cbn [TokenStream.current]. unfold bind.
      now rewrite (read_next_at_end None _ Hend).
Qed.

Section Lookahead.
Import Parser.

Variables (p p' : Parser.t TokenStream.t) (tok : option Token).
Hypothesis Hpeek : on_input source_peek p = (Return tok, p').

Lemma peek_is_lazy : is_lazy p' = is_lazy p.
Proof.
  revert Hpeek. unfold on_input, on_field.
  cbn [source_peek TokenStream_source].
  destruct (TokenStream.peek (input p)). now intros [= _ <-].
Qed.

Lemma peek_again : on_input source_peek p' = (Return tok, p').
Proof.
  revert Hpeek. unfold on_input, on_field.
  cbn [source_peek TokenStream_source].
  destruct (TokenStream.peek (input p)) as [r s] eqn:E.
  intros [= -> <-]. cbn [input is_lazy].
  now rewrite (peek_stable _ _ _ E).
Qed.

Lemma eof_after_peek :
  on_input source_eof p = (Return (negb (JS.defined tok)), p').
Proof.
  revert Hpeek.
  cbn [source_peek source_eof TokenStream_source].
  unfold on_input, on_field, TokenStream.eof, bind, ret.
  destruct (TokenStream.peek (input p)) as [r s].
  intros [= -> <-]. now destruct tok.
Qed.

Lemma is_op_after_peek :
  is_op p' =
  (Return (match tok with
           | Some tk =>
               if String.eqb (tok_type tk) "&"
                  || String.eqb (tok_type tk) "|"
               then Some tk else None
           | None => None
           end), p').
Proof. unfold is_op, bind. now rewrite peek_again. Qed.

Lemma is_punc_after_peek (ch : string) :
  is_punc ch p' =
  (Return (match tok with
           | Some tk =>
               if String.eqb (tok_type tk) "punc"
                  && (negb (JS.truthy ch)
                      || match tok_value tk with
                         | Some v => String.eqb v ch
                         | None => false
                         end)
               then Some tk else None
           | None => None
           end), p').
Proof. unfold is_punc, bind. now rewrite peek_again. Qed.

End Lookahead.

(** What [lazy_operator] does once its primary operand is parsed. *)
Lemma lazy_operator_after_operand (fuel : nat)
    (p0 p1 p2 : Parser.t TokenStream.t)
    (e : Node) (tok : option Token) :
  Parser.operand_expr fuel p0 = (Return e, p1) ->
  Parser.on_input source_peek p1 = (Return tok, p2) ->
  Parser.lazy_operator (S fuel) p0 =
  if ends_operand tok then (Return e, p2)
  else
    match Parser.is_lazy p2 with
    | Some false =>
        (Throw (mkError CannotMixLazy
                  (InputStream.pos (TokenStream.input (Parser.input p2)))),
         p2)
    | _ =>
        (let* right := Parser.parse_operand fuel true in
         ret (Op "|" e right))
          (Parser.mk (Parser.input p2) (Some true))
    end.
Proof.
  intros Hexpr Hpeek. rewrite lazy_operator_S. unfold bind at 1.
  rewrite Hexpr. unfold bind at 1.
  rewrite (eof_after_peek _ _ _ Hpeek).
  destruct tok as [tk|]; cbn [JS.defined negb ends_operand]; [|reflexivity].
  unfold bind at 1. rewrite (is_op_after_peek _ _ _ Hpeek).
  destruct (String.eqb (tok_type tk) "&" || String.eqb (tok_type tk) "|");
    cbn [JS.defined orb]; [reflexivity|].
  unfold bind at 1. rewrite (is_punc_after_peek _ _ _ Hpeek).
  cbn [JS.truthy negb orb].
  destruct (String.eqb (tok_type tk) "punc"
            && match tok_value tk with
               | Some v => String.eqb v ")"
               | None => false
               end); cbn [JS.defined]; [reflexivity|].
  unfold bind, Parser.get_is_lazy, Parser.set_is_lazy, Parser.throw_lazy.
  destruct p2 as [[c i] [[|]|]]; reflexivity.
Qed.

(** C7, as the code has it.  [parse_not] consumes the ['!'] and negates
    what [parse_operand(false)] returns.  That is one primary operand [e]
    (a term, a parenthesized group or a nested negation) when the token
    after it is the end of the input, an explicit operator or a closing
    parenthesis: the operator is then left unconsumed.  When another
    operand follows, the negation covers the implicit disjunction of [e]
    with all that [parse_operand(true)] parses next, unless explicit
    operators were used before, in which case the parse is rejected. *)
Theorem negation_scope (fuel : nat) (p p0 p1 p2 : Parser.t TokenStream.t)
    (bang tok : option Token) (e : Node) :
  Parser.on_input source_next p = (Return bang, p0) ->
  Parser.operand_expr fuel p0 = (Return e, p1) ->
  Parser.on_input source_peek p1 = (Return tok, p2) ->
  Parser.parse_not (3 + fuel) p =
  if ends_operand tok then (Return (Not e), p2)
  else
    match Parser.is_lazy p2 with
    | Some false =>
        (Throw (mkError CannotMixLazy
                  (InputStream.pos (TokenStream.input (Parser.input p2)))),
         p2)
    | _ =>
        (let* right := Parser.parse_operand fuel true in
         ret (Not (Op "|" e right)))
          (Parser.mk (Parser.input p2) (Some true))
    end.
Proof.
  intros Hnext Hexpr Hpeek.
  change (3 + fuel) with (S (S (S fuel))).
  rewrite parse_not_S. unfold bind at 1. rewrite Hnext.
  unfold bind at 1. rewrite parse_operand_S.
  rewrite (lazy_operator_after_operand _ _ _ _ _ _ Hexpr Hpeek).
  destruct (ends_operand tok); [reflexivity|].
  destruct (Parser.is_lazy p2) as [[|]|]; try reflexivity;
    unfold bind, ret;
    destruct (Parser.parse_operand fuel true _) as [[r | err |] s];
    reflexivity.
Qed.

Lemma negation_scope_witness :
  fst (Parser.parse_not 5 (snd (Parser.is_not (Parser.new "!a & b")))) =
  Return (Not (new_Term "a")).
Proof.
  pose (p := snd (Parser.is_not (Parser.new "!a & b"))).
  pose (p0 := snd (Parser.on_input source_next p)).
  pose (p1 := snd (Parser.operand_expr 2 p0)).
  pose (p2 := snd (Parser.on_input source_peek p1)).
  change (Parser.parse_not 5 (snd (Parser.is_not (Parser.new "!a & b"))))
    with (Parser.parse_not (3 + 2) p).
  rewrite (negation_scope 2 p p0 p1 p2 (Some (mkToken "!" None))
             (Some (mkToken "&" None)) (new_Term "a")).
  - reflexivity.
  - vm_compute. reflexivity.
  - vm_compute. reflexivity.
  - vm_compute. reflexivity.
Defined.

(** C7, read as "a negation covers one primary operand only", fails: in
    [!a b] the negation covers the juxtaposed operand [b] as well, so the
    query is false on the subject [x], where the negation of [a] alone
    joined with [b] would be true. *)
Lemma negation_spans_juxtaposed_operand :
  fst (Interpreter.compile 12 (Interpreter.new "!a b")) =
    Return (Not (Op "|" (new_Term "a") (new_Term "b")))
  /\ fst (Interpreter.compile 12 (Interpreter.new "!a b")) <>
     Return (Op "|" (Not (new_Term "a")) (new_Term "b"))
  /\ matches (Not (Op "|" (new_Term "a") (new_Term "b"))) "x" = false
  /\ matches (Op "|" (Not (new_Term "a")) (new_Term "b")) "x" = true.
Proof.
  split; [vm_compute; reflexivity|].
  split; [vm_compute; discriminate|].
  split; reflexivity.
Qed.

(** ** The parser on two related token sources *)

Section Simulation.

Context {S1 S2 : Type} {src1 : TokenSource S1} {src2 : TokenSource S2}.
Variable R : S1 -> S2 -> Prop.
Hypothesis HR : simulates R.

Lemma related_ret {A : Type} (a : A) :
  related_run R (ret a) (ret a).
Proof. intros p1 p2 H. split; [reflexivity | exact H]. Qed.

Lemma related_bind {A B : Type} (m1 : M (Parser.t S1) A)
    (m2 : M (Parser.t S2) A) (k1 : A -> M (Parser.t S1) B)
    (k2 : A -> M (Parser.t S2) B) :
  related_run R m1 m2 ->
  (forall a, related_run R (k1 a) (k2 a)) ->
  related_run R (bind m1 k1) (bind m2 k2).
Proof.
  intros Hm Hk p1 p2 Hp. specialize (Hm p1 p2 Hp).
  unfold bind, related_outcome in *.
  destruct (m1 p1) as [[a1 | e1 |] q1], (m2 p2) as [[a2 | e2 |] q2];
    simpl in *; try contradiction; try assumption.
  destruct Hm as [-> Hq]. apply (Hk a2 q1 q2 Hq).
Qed.

Lemma related_on_input {A : Type} (m1 : M S1 A) (m2 : M S2 A) :
  (forall s1 s2, R s1 s2 -> related_outcome R (m1 s1) (m2 s2)) ->
  related_run R (Parser.on_input m1) (Parser.on_input m2).
Proof.
  intros Hm p1 p2 [Hin Hlazy]. specialize (Hm _ _ Hin).
  unfold Parser.on_input, on_field, related_outcome in *.
  destruct (m1 (Parser.input p1)) as [[a1 | e1 |] q1],
    (m2 (Parser.input p2)) as [[a2 | e2 |] q2];
    simpl in *; try contradiction; try assumption.
  destruct Hm as [-> Hq]. repeat split; assumption.
Qed.

Lemma related_peek :
  related_run R (Parser.on_input source_peek) (Parser.on_input source_peek).
Proof. apply related_on_input. intros s1 s2 H. apply (HR s1 s2 H). Qed.

Lemma related_next :
  related_run R (Parser.on_input source_next) (Parser.on_input source_next).
Proof. apply related_on_input. intros s1 s2 H. apply (HR s1 s2 H). Qed.

Lemma related_eof :
  related_run R (Parser.on_input source_eof) (Parser.on_input source_eof).
Proof. apply related_on_input. intros s1 s2 H. apply (HR s1 s2 H). Qed.

Lemma related_throw {A : Type} (msg : ErrorMsg) :
  related_run R (Parser.on_input (source_throw (A := A) msg))
    (Parser.on_input (source_throw (A := A) msg)).
Proof. apply related_on_input. intros s1 s2 H. apply (HR s1 s2 H). Qed.

Lemma related_get_is_lazy :
  related_run R Parser.get_is_lazy Parser.get_is_lazy.
Proof.
  intros p1 p2 [Hin Hlazy]. unfold Parser.get_is_lazy, related_outcome.
  simpl. repeat split; assumption.
Qed.

Lemma related_set_is_lazy (b : bool) :
  related_run R (Parser.set_is_lazy b) (Parser.set_is_lazy b).
Proof.
  intros p1 p2 [Hin Hlazy]. unfold Parser.set_is_lazy, related_outcome.
  simpl. repeat split; assumption.
Qed.

Lemma related_out_of_fuel {A : Type} :
  related_run R (out_of_fuel (A := A)) (out_of_fuel (A := A)).
Proof. intros p1 p2 H. exact I. Qed.

End Simulation.

(** One step of a simulation proof. *)
Ltac related_step :=
  first
    [ apply related_ret
    | apply related_out_of_fuel
    | apply related_peek; assumption
    | apply related_next; assumption
    | apply related_eof; assumption
    | apply related_throw; assumption
    | apply related_get_is_lazy
    | apply related_set_is_lazy
    | match goal with
      | H : _ |- _ => apply H
      end
    | apply related_bind; [| intros ?]
    | match goal with
      | |- related_run _ (if ?b then _ else _) _ => destruct b
      | |- related_run _ (match ?x with _ => _ end) _ => destruct x
      end ].

Section SimulationParser.

Context {S1 S2 : Type} {src1 : TokenSource S1} {src2 : TokenSource S2}.
Variable R : S1 -> S2 -> Prop.
Hypothesis HR : simulates R.

Lemma related_primitives :
  (forall ch, related_run R (Parser.is_punc ch) (Parser.is_punc ch))
  /\ related_run R Parser.is_op Parser.is_op
  /\ related_run R Parser.is_not Parser.is_not
  /\ related_run R Parser.is_term Parser.is_term
  /\ (forall ch, related_run R (Parser.skip_punc ch) (Parser.skip_punc ch))
  /\ related_run R Parser.parse_term Parser.parse_term
  /\ related_run R (Parser.unexpected (A := Node)) Parser.unexpected
  /\ related_run R (Parser.throw_lazy (A := unit)) Parser.throw_lazy.
Proof.
  assert (Hpunc : forall ch,
             related_run R (Parser.is_punc ch) (Parser.is_punc ch)).
  { intros ch. unfold Parser.is_punc. repeat related_step. }
  repeat split.
  - exact Hpunc.
  - unfold Parser.is_op. repeat related_step.
  - unfold Parser.is_not. repeat related_step.
  - unfold Parser.is_term. repeat related_step.
  - intros ch. unfold Parser.skip_punc. repeat related_step.
  - unfold Parser.parse_term. repeat related_step.
  - unfold Parser.unexpected. repeat related_step.
  - unfold Parser.throw_lazy. repeat related_step.
Qed.

End SimulationParser.

Section SimulationDescent.

Context {S1 S2 : Type} {src1 : TokenSource S1} {src2 : TokenSource S2}.
Variable R : S1 -> S2 -> Prop.
Hypothesis HR : simulates R.

(** The recursive descent gives the same tree, or fails the same way, on
    related sources. *)
Lemma related_descent (fuel : nat) :
  (forall b, related_run R (Parser.parse_operand fuel b)
               (Parser.parse_operand fuel b))
  /\ related_run R (Parser.operand_expr fuel) (Parser.operand_expr fuel)
  /\ related_run R (Parser.lazy_operator fuel) (Parser.lazy_operator fuel)
  /\ (forall l prec, related_run R (Parser.parse_operator fuel l prec)
                       (Parser.parse_operator fuel l prec))
  /\ related_run R (Parser.parse_not fuel) (Parser.parse_not fuel)
  /\ related_run R (Parser.parse_operands fuel) (Parser.parse_operands fuel).
Proof.
  destruct (related_primitives R HR)
    as (Hpunc & Hop & Hnot & Hterm & Hskip & Hpterm & Hunex & Hlazy).
  induction fuel as [|fuel (IH1 & IH2 & IH3 & IH4 & IH5 & IH6)].
  - repeat split; intros; apply related_out_of_fuel.
  - repeat split; intros.
    + rewrite !parse_operand_S. repeat related_step.
    + rewrite !operand_expr_S. repeat related_step.
    + rewrite !lazy_operator_S. repeat related_step.
    + rewrite !parse_operator_S. repeat related_step.
    + rewrite !parse_not_S. repeat related_step.
    + rewrite !parse_operands_S. repeat related_step.
Qed.

End SimulationDescent.

(** ** The token stream as a source of a list of tokens *)

(** Lexing never touches the lookahead buffer. *)
Lemma read_while_loop_current (fuel : nat) (predicate : string -> bool)
    (str : string) (s : TokenStream.t) :
  TokenStream.current (snd (TokenStream.read_while_loop fuel predicate str s))
  = TokenStream.current s.
Proof.
  revert str s. induction fuel as [|fuel IH]; intros str s; [reflexivity|].
  cbn [TokenStream.read_while_loop].
  unfold bind, TokenStream.on_input, on_field, InputStream.eof,
    InputStream.peek, InputStream.next, bind, ret.
  cbn -[JS.charAt TokenStream.read_while_loop String.eqb String.append].
  destruct (negb _ && _); [|reflexivity].
  now rewrite IH.
Qed.

Lemma read_escaped_loop_current (fuel : nat) (end_ : string)
    (escaped : bool) (str : string) (s : TokenStream.t) :
  TokenStream.current
    (snd (TokenStream.read_escaped_loop fuel end_ escaped str s))
  = TokenStream.current s.
Proof.
  revert escaped str s.
  induction fuel as [|fuel IH]; intros escaped str s; [reflexivity|].
  cbn [TokenStream.read_escaped_loop].
  unfold bind, TokenStream.on_input, on_field, InputStream.eof,
    InputStream.peek, InputStream.next, bind, ret.
  cbn -[JS.charAt TokenStream.read_escaped_loop String.eqb String.append].
  destruct (negb _); [|reflexivity].
  cbn -[JS.charAt TokenStream.read_escaped_loop String.eqb String.append].
  destruct escaped; [now rewrite IH|].
  destruct (String.eqb _ JS.backslash); [now rewrite IH|].
  destruct (String.eqb _ end_); [reflexivity | now rewrite IH].
Qed.

Lemma read_next_current (s : TokenStream.t) :
  TokenStream.current (snd (TokenStream.read_next s)) = TokenStream.current s.
Proof.
  unfold TokenStream.read_next. unfold bind at 1.
  pose proof (read_while_loop_current
                (String.length (InputStream.input (TokenStream.input s)))
                TokenStream.is_ch_whitespace "" s) as Hws.
  unfold TokenStream.read_while at 1.
  destruct (TokenStream.read_while_loop _ TokenStream.is_ch_whitespace "" s)
    as [[v | e |] s0]; cbn [snd] in *; try assumption.
  rewrite <- Hws. clear Hws.
  unfold bind, TokenStream.on_input, on_field, InputStream.eof,
    InputStream.peek, InputStream.next, bind, ret.
  cbn -[JS.charAt String.eqb String.append TokenStream.read_string
        TokenStream.read_term TokenStream.is_ch_term TokenStream.is_ch_op
        TokenStream.is_ch_punc].
  destruct (String.eqb (JS.charAt _ _) ""); [reflexivity|].
  destruct (String.eqb _ JS.dquote).
  { unfold TokenStream.read_string, TokenStream.read_escaped, bind, ret,
      TokenStream.on_input, on_field, InputStream.next.
    cbn -[JS.charAt TokenStream.read_escaped_loop String.eqb String.append].
    match goal with
    | |- context [TokenStream.read_escaped_loop ?f ?e ?b ?x ?st] =>
        pose proof (read_escaped_loop_current f e b x st) as H;
        destruct (TokenStream.read_escaped_loop f e b x st) as [[? | ? |] ?]
    end; exact H. }
  destruct (String.eqb _ "!"); [reflexivity|].
  destruct (TokenStream.is_ch_term _).
  { unfold TokenStream.read_term, TokenStream.read_while, bind, ret.
    match goal with
    | |- context [TokenStream.read_while_loop ?f ?pr ?x ?st] =>
        pose proof (read_while_loop_current f pr x st) as H;
        destruct (TokenStream.read_while_loop f pr x st) as [[? | ? |] ?]
    end; exact H. }
  destruct (TokenStream.is_ch_op _); [reflexivity|].
  destruct (TokenStream.is_ch_punc _); reflexivity.
Qed.

Lemma stream_eta (s : TokenStream.t) :
  s = TokenStream.mk (TokenStream.current s) (TokenStream.input s).
Proof. now destruct s. Qed.

(** A stream at the end of its input, with an empty buffer, delivers
    nothing more. *)
Lemma delivers_nil_at_end (i : InputStream.t) :
  JS.charAt (InputStream.input i) (InputStream.pos i) = "" ->
  delivers (TokenStream.mk None i) [].
Proof.
  intros H. exists 1. cbn [lex]. unfold TokenStream.next.
  cbn [TokenStream.current TokenStream.input].
  now rewrite (read_next_at_end None i H).
Qed.

Lemma delivers_nil (s : TokenStream.t) :
  delivers s [] ->
  TokenStream.current s = None
  /\ exists s1,
      TokenStream.read_next (TokenStream.mk None (TokenStream.input s)) =
      (Return None, TokenStream.mk None s1)
      /\ JS.charAt (InputStream.input s1) (InputStream.pos s1) = "".
Proof.
  intros [[|fuel] H]; [discriminate|]. cbn [lex] in H.
  unfold TokenStream.next in H.
  destruct (TokenStream.current s) as [c|] eqn:Ecur.
  - destruct (lex fuel _); discriminate.
  - split; [reflexivity|].
    destruct (TokenStream.read_next _) as [[[t|] | e |] s1] eqn:Hnext;
      try discriminate.
    + destruct (lex fuel s1); discriminate.
    + apply read_next_None in Hnext as Hend. destruct Hend as [Hc Hend].
      destruct s1 as [c1 i1]. cbn in Hc, Hend. subst c1.
      exists i1. split; [reflexivity | exact Hend].
Qed.

Lemma delivers_cons (s : TokenStream.t) (tok : Token) (toks : list Token) :
  delivers s (tok :: toks) ->
  exists s1, TokenStream.next s = (Return (Some tok), s1) /\ delivers s1 toks.
Proof.
  intros [[|fuel] H]; [discriminate|]. cbn [lex] in H.
  destruct (TokenStream.next s) as [[[t|] | e |] s1]; try discriminate.
  destruct (lex fuel s1) as [l|] eqn:E; [|discriminate].
  injection H as -> ->. exists s1. split; [reflexivity | now exists fuel].
Qed.

Lemma delivers_peek (s : TokenStream.t) (toks : list Token) :
  delivers s toks ->
  exists s', TokenStream.peek s = (Return (head toks), s')
             /\ delivers s' toks.
Proof.
  intros H. destruct toks as [|tok toks].
  - destruct (delivers_nil s H) as (Hcur & s1 & Hnext & Hend).
    exists (TokenStream.mk None s1). split.
    + unfold TokenStream.peek. rewrite Hcur. unfold bind.
      destruct s as [c i]. cbn [TokenStream.current TokenStream.input] in *.
      subst c. now rewrite Hnext.
    + now apply delivers_nil_at_end.
  - destruct (delivers_cons s tok toks H) as (s1 & Hnext & Htail).
    unfold TokenStream.next in Hnext.
    destruct (TokenStream.current s) as [c|] eqn:Ecur.
    + injection Hnext as -> <-. exists s. split; [|exact H].
      unfold TokenStream.peek. now rewrite Ecur.
    + exists (TokenStream.mk (Some tok) (TokenStream.input s1)). split.
      * unfold TokenStream.peek. rewrite Ecur. unfold bind.
        destruct s as [c i]. cbn [TokenStream.current TokenStream.input] in *.
        subst c. now rewrite Hnext.
      * destruct Htail as [fuel Hlex]. exists (S fuel). cbn [lex].
        unfold TokenStream.next. cbn [TokenStream.current TokenStream.input].
        pose proof (read_next_current
                      (TokenStream.mk None (TokenStream.input s))) as Hc.
        rewrite Hnext in Hc. cbn in Hc.
        rewrite (stream_eta s1), Hc in Hlex. now rewrite Hlex.
Qed.

(** The token stream and the list of the tokens it delivers are related
    sources. *)
Lemma delivers_simulates : simulates delivers.
Proof.
  intros s toks H. unfold related_outcome.
  destruct (delivers_peek s toks H) as (s' & Hpeek & Hs').
  split; [|split; [|split]].
  - cbn [source_peek TokenStream_source list_source]. rewrite Hpeek.
    cbn. split; [reflexivity | exact Hs'].
  - cbn [source_next TokenStream_source list_source].
    destruct toks as [|tok toks].
    + destruct (delivers_nil s H) as (Hcur & s1 & Hnext & Hend).
      unfold TokenStream.next. rewrite Hcur, Hnext. cbn.
      split; [reflexivity | now apply delivers_nil_at_end].
    + destruct (delivers_cons s tok toks H) as (s1 & Hnext & Htail).
      rewrite Hnext. cbn. split; [reflexivity | exact Htail].
  - cbn [source_eof TokenStream_source list_source].
    unfold TokenStream.eof, bind, ret. rewrite Hpeek. cbn.
    split; [now destruct toks | exact Hs'].
  - intros A msg. reflexivity.
Qed.

(** ** Lexing of words and signs *)

Lemma at_pos_shift (inp : string) (p : nat) (a b : string) :
  at_pos inp p (a ++ b) -> at_pos inp (p + String.length a) b.
Proof.
  intros (pre & -> & <-). exists (pre ++ a). split.
  - now rewrite append_assoc.
  - apply length_append.
Qed.

Section ReadWhile.

Variables (cur : option Token) (inp : string) (predicate : string -> bool).

Lemma read_while_loop_char (fuel : nat) (str : string) (p : nat) (c : ascii)
    (x : string) :
  at_pos inp p (String c x) ->
  TokenStream.read_while_loop (S fuel) predicate str (stream_at cur inp p) =
  if predicate (String c EmptyString) then
    TokenStream.read_while_loop fuel predicate (str ++ String c EmptyString)
      (stream_at cur inp (S p))
  else (Return str, stream_at cur inp p).
Proof.
  intros H. apply charAt_at_pos in H.
  cbn [TokenStream.read_while_loop].
  unfold bind, TokenStream.on_input, on_field, InputStream.eof,
    InputStream.next, InputStream.peek, bind, ret, stream_at.
  cbn -[JS.charAt TokenStream.read_while_loop String.eqb String.append].
  rewrite H. change (String.eqb (String c "") "") with false. cbn [negb andb].
  destruct (predicate (String c "")); [|reflexivity].
  cbn -[JS.charAt TokenStream.read_while_loop String.eqb String.append].
  now rewrite H.
Qed.

Lemma read_while_loop_end (fuel : nat) (str : string) (p : nat) :
  at_pos inp p "" ->
  TokenStream.read_while_loop fuel predicate str (stream_at cur inp p) =
  (Return str, stream_at cur inp p).
Proof.
  intros H. apply charAt_at_end in H. destruct fuel; [reflexivity|].
  cbn [TokenStream.read_while_loop].
  unfold bind, TokenStream.on_input, on_field, InputStream.eof,
    InputStream.next, InputStream.peek, bind, ret, stream_at.
  cbn -[JS.charAt TokenStream.read_while_loop String.eqb String.append].
  rewrite H. reflexivity.
Qed.

(** [read_while] reads a whole run and stops after it. *)
Lemma read_while_loop_run (w : string) :
  forall fuel str p rest,
    at_pos inp p (w ++ rest) ->
    run_of predicate w = true ->
    stops predicate rest = true ->
    String.length w <= fuel ->
    TokenStream.read_while_loop fuel predicate str (stream_at cur inp p) =
    (Return (str ++ w), stream_at cur inp (p + String.length w)).
Proof.
  induction w as [|c w IH]; intros fuel str p rest Hpos Hrun Hstop Hfuel.
  - simpl in Hpos. rewrite append_empty_r, Nat.add_0_r.
    destruct rest as [|d rest].
    + now apply read_while_loop_end.
    + destruct fuel as [|fuel]; [reflexivity|].
      rewrite (read_while_loop_char _ _ _ _ _ Hpos).
      simpl in Hstop. now destruct (predicate (String d "")).
  - destruct fuel as [|fuel]; [simpl in Hfuel; lia|].
    simpl in Hpos, Hrun. apply andb_true_iff in Hrun as [Hc Hrun].
    rewrite (read_while_loop_char _ _ _ _ _ Hpos), Hc.
    apply at_pos_next in Hpos.
    rewrite (IH fuel _ _ rest Hpos Hrun Hstop) by (simpl in Hfuel; lia).
    rewrite append_assoc. simpl. do 2 f_equal. unfold stream_at.
    do 2 f_equal. lia.
Qed.

End ReadWhile.

Lemma run_of_spaces (n : nat) :
  run_of TokenStream.is_ch_whitespace (spaces n) = true.
Proof. induction n as [|n IH]; simpl; [reflexivity | exact IH]. Qed.

Lemma length_spaces (n : nat) : String.length (spaces n) = n.
Proof. induction n as [|n IH]; simpl; [reflexivity | now rewrite IH]. Qed.

Lemma run_of_alnum (w : string) :
  all_alnum w = true -> run_of TokenStream.is_ch_term w = true.
Proof.
  induction w as [|c w IH]; simpl; [reflexivity|].
  intros H. apply andb_true_iff in H as [Hc Hw].
  rewrite Hc, (IH Hw). reflexivity.
Qed.

(** A letter or digit is none of the signs of the language. *)
Lemma alnum_not_sign (c : ascii) :
  JS.alnum c = true ->
  Ascii.eqb c " " = false /\ Ascii.eqb c "034" = false
  /\ Ascii.eqb c "!" = false.
Proof.
  destruct c as [[] [] [] [] [] [] [] []]; intros H;
    try discriminate H; repeat split.
Qed.

(** [read_next] skips the spaces before a token. *)
Lemma read_next_at_char (cur : option Token) (inp : string) (p n : nat)
    (c : ascii) (x : string) :
  at_pos inp p (spaces n ++ String c x) ->
  Ascii.eqb c " " = false ->
  TokenStream.read_next (stream_at cur inp p) =
  read_token (String c EmptyString) (stream_at cur inp (p + n)).
Proof.
  intros Hpos Hc. unfold TokenStream.read_next, TokenStream.read_while.
  unfold bind at 1.
  pose proof (at_pos_length _ _ _ Hpos) as Hlen.
  rewrite length_append, length_spaces in Hlen.
  change (InputStream.input (TokenStream.input (stream_at cur inp p)))
    with inp.
  rewrite (read_while_loop_run cur inp TokenStream.is_ch_whitespace
             (spaces n) _ "" p (String c x) Hpos (run_of_spaces n)).
  - rewrite length_spaces.
    apply at_pos_shift in Hpos. rewrite length_spaces in Hpos.
    apply charAt_at_pos in Hpos.
    unfold bind, TokenStream.on_input, on_field, InputStream.eof,
      InputStream.peek, bind, ret, stream_at.
    cbn -[JS.charAt String.eqb String.append read_token
          TokenStream.read_string TokenStream.read_term
          TokenStream.is_ch_term TokenStream.is_ch_op TokenStream.is_ch_punc
          TokenStream.throw].
    rewrite Hpos. change (String.eqb (String c "") "") with false.
    cbn -[JS.charAt String.eqb String.append read_token
          TokenStream.read_string TokenStream.read_term
          TokenStream.is_ch_term TokenStream.is_ch_op TokenStream.is_ch_punc
          TokenStream.throw].
    rewrite Hpos. unfold read_token, bind, ret, TokenStream.on_input, on_field.
    destruct (String.eqb (String c "") JS.dquote); [reflexivity|].
    destruct (String.eqb (String c "") "!"); [reflexivity|].
    destruct (TokenStream.is_ch_term (String c "")); [reflexivity|].
    destruct (TokenStream.is_ch_op (String c "")); [reflexivity|].
    destruct (TokenStream.is_ch_punc (String c "")); reflexivity.
  - simpl. unfold TokenStream.is_ch_whitespace. simpl. now rewrite Hc.
  - rewrite length_spaces. lia.
Qed.

Lemma next_char_at (cur : option Token) (inp : string) (p : nat) (c : ascii)
    (x : string) :
  at_pos inp p (String c x) ->
  TokenStream.on_input InputStream.next (stream_at cur inp p) =
  (Return (String c EmptyString), stream_at cur inp (S p)).
Proof.
  intros H. apply charAt_at_pos in H.
  unfold TokenStream.on_input, on_field, InputStream.next, stream_at.
  cbn -[JS.charAt]. now rewrite H.
Qed.

(** [read_next] on the literal of a token, after any number of spaces,
    yields that token and stops right after the literal. *)
Lemma read_next_plain (cur : option Token) (inp : string) (p n : nat)
    (tok : Token) (rest : string) :
  plain_token tok ->
  (tok_type tok = "term" -> stops TokenStream.is_ch_term rest = true) ->
  at_pos inp p (spaces n ++ literal tok ++ rest) ->
  TokenStream.read_next (stream_at cur inp p) =
  (Return (Some tok),
   stream_at cur inp (p + n + String.length (literal tok))).
Proof.
  intros Hplain Hstop Hpos.
  pose proof (at_pos_shift _ _ _ _ Hpos) as Hpos'.
  rewrite length_spaces in Hpos'.
  destruct Hplain as [w Hw | | | | |]; cbn [literal tok_value tok_type] in *.
  - unfold is_word in Hw. apply andb_true_iff in Hw as [Hne Hw].
    destruct w as [|c w]; [discriminate|]. clear Hne.
    specialize (Hstop eq_refl). pose proof Hw as Hall. simpl in Hw.
    apply andb_true_iff in Hw as [Hc _].
    destruct (alnum_not_sign c Hc) as (Hsp & Hdq & Hbang).
    rewrite (read_next_at_char cur inp p n c (w ++ rest) Hpos Hsp).
    unfold read_token.
    rewrite eqb_char_dquote, Hdq.
    replace (String.eqb (String c "") "!") with false
      by (simpl; now rewrite Hbang).
    replace (TokenStream.is_ch_term (String c "")) with true
      by (unfold TokenStream.is_ch_term; simpl; now rewrite Hc).
    unfold TokenStream.read_term, TokenStream.read_while. unfold bind.
    change (InputStream.input (TokenStream.input (stream_at cur inp (p + n))))
      with inp.
    pose proof (at_pos_length _ _ _ Hpos') as Hlen.
    rewrite length_append in Hlen.
    rewrite (read_while_loop_run cur inp TokenStream.is_ch_term
               (String c w) _ "" (p + n) rest Hpos' (run_of_alnum _ Hall)
               Hstop) by lia.
    reflexivity.
  - rewrite (read_next_at_char cur inp p n "!" rest Hpos eq_refl).
    change (read_token "!") with
      (let* ty := TokenStream.on_input InputStream.next in
       ret (Some (mkToken ty None))).
    unfold bind. rewrite (next_char_at _ _ _ _ _ Hpos'). unfold ret.
    do 2 f_equal. unfold stream_at. do 2 f_equal. simpl. lia.
  - rewrite (read_next_at_char cur inp p n "&" rest Hpos eq_refl).
    change (read_token "&") with
      (let* ty := TokenStream.on_input InputStream.next in
       ret (Some (mkToken ty None))).
    unfold bind. rewrite (next_char_at _ _ _ _ _ Hpos'). unfold ret.
    do 2 f_equal. unfold stream_at. do 2 f_equal. simpl. lia.
  - rewrite (read_next_at_char cur inp p n "|" rest Hpos eq_refl).
    change (read_token "|") with
      (let* ty := TokenStream.on_input InputStream.next in
       ret (Some (mkToken ty None))).
    unfold bind. rewrite (next_char_at _ _ _ _ _ Hpos'). unfold ret.
    do 2 f_equal. unfold stream_at. do 2 f_equal. simpl. lia.
  - rewrite (read_next_at_char cur inp p n "(" rest Hpos eq_refl).
    change (read_token "(") with
      (let* v := TokenStream.on_input InputStream.next in
       ret (Some (mkToken "punc" (Some v)))).
    unfold bind. rewrite (next_char_at _ _ _ _ _ Hpos'). unfold ret.
    do 2 f_equal. unfold stream_at. do 2 f_equal. simpl. lia.
  - rewrite (read_next_at_char cur inp p n ")" rest Hpos eq_refl).
    change (read_token ")") with
      (let* v := TokenStream.on_input InputStream.next in
       ret (Some (mkToken "punc" (Some v)))).
    unfold bind. rewrite (next_char_at _ _ _ _ _ Hpos'). unfold ret.
    do 2 f_equal. unfold stream_at. do 2 f_equal. simpl. lia.
Qed.

(** Lexing what was rendered gives the tokens back. *)
Lemma delivers_render_at (inp : string) (toks : list (nat * Token)) :
  Forall plain_token (map snd toks) ->
  well_spaced toks ->
  forall p,
    at_pos inp p (render toks) ->
    delivers (stream_at None inp p) (map snd toks).
Proof.
  induction toks as [|[n tok] toks IH]; intros Hplain Hsp p Hpos.
  - apply delivers_nil_at_end. now apply charAt_at_end.
  - cbn [map snd] in *. apply Forall_cons in Hplain as [Htok Htoks].
    destruct Hsp as [Hstop Hsp]. cbn [render] in Hpos.
    pose proof (read_next_plain None inp p n tok (render toks) Htok Hstop
                  Hpos) as Hnext.
    apply at_pos_shift in Hpos. rewrite length_spaces in Hpos.
    apply at_pos_shift in Hpos.
    destruct (IH Htoks Hsp _ Hpos) as [fuel Hlex].
    exists (S fuel). cbn [lex]. unfold TokenStream.next.
    cbn [stream_at TokenStream.current TokenStream.input].
    fold (stream_at None inp p). rewrite Hnext. now rewrite Hlex.
Qed.

Lemma delivers_render (toks : list (nat * Token)) :
  Forall plain_token (map snd toks) ->
  well_spaced toks ->
  delivers (TokenStream.new (render toks)) (map snd toks).
Proof.
  intros Hplain Hsp.
  apply (delivers_render_at (render toks) toks Hplain Hsp 0).
  exists "". split; reflexivity.
Qed.

(** Parsing a rendered query is parsing its tokens. *)
Lemma parse_render (fuel : nat) (toks : list (nat * Token)) :
  Forall plain_token (map snd toks) ->
  well_spaced toks ->
  related_outcome (related_parser delivers)
    (Parser.parse_operand fuel true (Parser.new (render toks)))
    (Parser.parse_operand fuel true (Parser.mk (map snd toks) None)).
Proof.
  intros Hplain Hsp.
  apply (proj1 (related_descent delivers delivers_simulates fuel) true).
  split; [now apply delivers_render | reflexivity].
Qed.

(** ** Parsing of queries made of words and signs *)

Lemma related_Return {A X Y : Type} (R : X -> Y -> Prop)
    (x : outcome A * X) (a : A) (y : Y) :
  related_outcome R x (Return a, y) ->
  exists x', x = (Return a, x') /\ R x' y.
Proof.
  unfold related_outcome. destruct x as [[a' | e |] x']; simpl;
    try contradiction.
  intros [-> H]. now exists x'.
Qed.

Lemma related_Throw {A X Y : Type} (R : X -> Y -> Prop)
    (x : outcome A * X) (e : Error) (y : Y) :
  related_outcome R x (Throw e, y) ->
  exists pos x', x = (Throw (mkError (err_msg e) pos), x').
Proof.
  unfold related_outcome. destruct x as [[a' | [msg pos] |] x']; simpl;
    try contradiction.
  intros <-. now exists pos, x'.
Qed.

(** Compiling a rendered query returns what parsing its tokens returns,
    with any larger stack depth as well. *)
Lemma compile_render_Return (fuel k : nat) (toks : list (nat * Token))
    (tree : Node) :
  Forall plain_token (map snd toks) ->
  well_spaced toks ->
  fst (Parser.parse_operand fuel true (Parser.mk (map snd toks) None)) =
    Return tree ->
  exists i,
    Interpreter.compile (fuel + k) (Interpreter.new (render toks)) =
    (Return tree, i).
Proof.
  intros Hplain Hsp Hparse.
  pose proof (parse_render fuel toks Hplain Hsp) as H.
  destruct (Parser.parse_operand fuel true (Parser.mk (map snd toks) None))
    as [r rest]. cbn [fst] in Hparse. subst r.
  apply related_Return in H as (p' & Hp' & _).
  eexists. apply compile_more_fuel; [|discriminate].
  unfold Interpreter.compile, Interpreter.new.
  cbn [Interpreter.value Interpreter.input]. rewrite Hp'. reflexivity.
Qed.

Lemma compile_render_Throw (fuel k : nat) (toks : list (nat * Token))
    (e : Error) :
  Forall plain_token (map snd toks) ->
  well_spaced toks ->
  fst (Parser.parse_operand fuel true (Parser.mk (map snd toks) None)) =
    Throw e ->
  exists pos i,
    Interpreter.compile (fuel + k) (Interpreter.new (render toks)) =
    (Throw (mkError (err_msg e) pos), i).
Proof.
  intros Hplain Hsp Hparse.
  pose proof (parse_render fuel toks Hplain Hsp) as H.
  destruct (Parser.parse_operand fuel true (Parser.mk (map snd toks) None))
    as [r rest]. cbn [fst] in Hparse. subst r.
  apply related_Throw in H as (pos & p' & Hp').
  exists pos. eexists. apply compile_more_fuel; [|discriminate].
  unfold Interpreter.compile, Interpreter.new.
  cbn [Interpreter.value Interpreter.input]. rewrite Hp'. reflexivity.
Qed.

(** Rewrites the query of the goal into the rendering of its tokens. *)
Ltac as_rendered toks :=
  match goal with
  | |- context [Interpreter.new ?q] =>
      replace q with (render toks)
        by (cbn [render spaces literal word_token tok_value tok_type
                 String.append];
            rewrite ?append_empty_r; reflexivity)
  end.

Ltac plain_tokens :=
  unfold word_token; cbn [map snd];
  repeat first [ assumption | constructor ].

Ltac spaced_tokens :=
  cbn [well_spaced]; repeat split;
  first [ intros _; reflexivity | intros H; discriminate H ].

(** The outcome of compiling the query of the goal, from the parse of its
    tokens with stack depth [n]. *)
Ltac compile_returns n toks :=
  as_rendered toks;
  eapply (compile_render_Return n _ toks);
  [plain_tokens | spaced_tokens | vm_compute; reflexivity].

Ltac compile_throws n toks :=
  as_rendered toks;
  eapply (compile_render_Throw n _ toks (mkError CannotMixLazy 0));
  [plain_tokens | spaced_tokens | vm_compute; reflexivity].



(** The scope of a negation on queries of words: it stops before an
    explicit operator and covers the operands juxtaposed to its own. *)
Lemma negation_of_words (a b : string) (fuel : nat) :
  is_word a = true -> is_word b = true ->
  let A := new_Term a in
  let B := new_Term b in
  (exists i, Interpreter.compile (16 + fuel)
               (Interpreter.new ("!" ++ a ++ " & " ++ b)) =
             (Return (Op "&" (Not A) B), i))
  /\ (exists i, Interpreter.compile (16 + fuel)
                  (Interpreter.new ("!" ++ a ++ " | " ++ b)) =
                (Return (Op "|" (Not A) B), i))
  /\ (exists i, Interpreter.compile (16 + fuel)
                  (Interpreter.new ("!" ++ a ++ " " ++ b)) =
                (Return (Not (Op "|" A B)), i))
  /\ (exists i, Interpreter.compile (16 + fuel)
                  (Interpreter.new ("!(" ++ a ++ " & " ++ b ++ ")")) =
                (Return (Not (Op "&" A B)), i))
  /\ (exists i, Interpreter.compile (16 + fuel)
                  (Interpreter.new ("!!" ++ a ++ " & " ++ b)) =
                (Return (Op "&" (Not (Not A)) B), i)).
Proof.
  intros Ha Hb A B. subst A B.
  pose (not_ := mkToken "!" None).
  pose (and_ := mkToken "&" None). pose (or_ := mkToken "|" None).
  pose (open := mkToken "punc" (Some "(")).
  pose (close := mkToken "punc" (Some ")")).
  split; [|split; [|split; [|split]]].
  - compile_returns 16
      [(0, not_); (0, word_token a); (1, and_); (1, word_token b)].
  - compile_returns 16
      [(0, not_); (0, word_token a); (1, or_); (1, word_token b)].
  - compile_returns 16 [(0, not_); (0, word_token a); (1, word_token b)].
  - compile_returns 16
      [(0, not_); (0, open); (0, word_token a); (1, and_); (1, word_token b);
       (0, close)].
  - compile_returns 16
      [(0, not_); (0, not_); (0, word_token a); (1, and_); (1, word_token b)].
Qed.

(** * Further properties of the code *)

(** ** What a term matches *)

Lemma occurs_at_prefix (a b s : string) (i : nat) :
  occurs_at (a ++ b) s i -> occurs_at a s i.
Proof.
  intros (pre & post & -> & <-). exists pre, (b ++ post).
  split; [now rewrite append_assoc | reflexivity].
Qed.

Lemma occurs_at_inside (c s pre post : string) (i : nat) :
  occurs_at c s i -> occurs_at c (pre ++ s ++ post) (String.length pre + i).
Proof.
  intros (p & q & -> & <-). exists (pre ++ p), (q ++ post). split.
  - now rewrite !append_assoc.
  - apply length_append.
Qed.

Lemma str_take_split (k k' : nat) (v : string) :
  k' <= k -> exists b, str_take k v = str_take k' v ++ b.
Proof.
  revert k v. induction k' as [|k' IH]; intros k v H.
  - exists (str_take k v). reflexivity.
  - destruct k as [|k]; [lia|]. destruct v as [|c v]; [now exists ""|].
    destruct (IH k v ltac:(lia)) as [b Hb]. exists b. simpl. now rewrite Hb.
Qed.

(** A candidate occurs wherever a longer one does. *)
Lemma candidate_occurs_shorter (v s : string) (g g' i : nat) :
  g <= g' -> occurs_at (candidate v g) s i -> occurs_at (candidate v g') s i.
Proof.
  intros H Hocc. unfold candidate in *.
  destruct (str_take_split (String.length v - g) (String.length v - g') v
              ltac:(lia)) as [b Hb].
  rewrite Hb in Hocc. now apply occurs_at_prefix in Hocc.
Qed.

(** The boolean the loop of [Term.exec] ends with, for any tolerance. *)
Lemma Term_exec_loop_bool (v : string) (tol : nat) (s : string) :
  forall fuel gap ctx,
    S tol - gap <= fuel ->
    snd (fst (Term_exec_loop fuel v tol s gap false ctx)) = true <->
    exists g i, gap <= g <= tol /\ occurs_at (candidate v g) s i.
Proof.
  induction fuel as [|fuel IH]; intros gap ctx Hfuel.
  - simpl. split; [discriminate | intros (g & i & Hg & _); lia].
  - cbn [Term_exec_loop].
    destruct (Nat.leb_spec gap tol) as [Hle | Hgt]; cbn [andb negb].
    + unfold Term_match. rewrite substring_prefix. fold (candidate v gap).
      destruct (indexOf_cases s (candidate v gap))
        as [[-> Hnone] | (k & -> & Hk)].
      * rewrite Z.eqb_refl. cbv beta iota zeta. rewrite IH by lia. split.
        -- intros (g & i & Hg & Hocc). exists g, i. split; [lia | exact Hocc].
        -- intros (g & i & Hg & Hocc). exists g, i. split; [|exact Hocc].
           destruct (Nat.eq_dec g gap) as [-> | Hne]; [|lia].
           exfalso. now apply (Hnone i).
      * destruct (Z.eqb_spec (Z.of_nat k) (-1)) as [E | _]; [lia|].
        cbv beta iota zeta.
        rewrite Term_exec_loop_matched. cbn [fst snd]. split; [|reflexivity].
        intros _. exists gap, k. split; [lia | apply Hk].
    + cbn [fst snd]. split; [discriminate | intros (g & i & Hg & _); lia].
Qed.

Lemma Term_matches_iff (v : string) (tol : nat) (s : string)
    (ctx : Context.t) :
  fst (exec (Term v tol) s ctx) = true <->
  exists g i, g <= tol /\ occurs_at (candidate v g) s i.
Proof.
  cbn [exec]. unfold Term_exec.
  pose proof (Term_exec_loop_bool v tol s (S (S tol)) 0 ctx ltac:(lia)) as H.
  destruct (Term_exec_loop (S (S tol)) v tol s 0 false ctx) as [[g m] c].
  cbn [fst snd] in *. rewrite H. split.
  - intros (g0 & i & Hg & Hocc). exists g0, i. split; [lia | exact Hocc].
  - intros (g0 & i & Hg & Hocc). exists g0, i. split; [lia | exact Hocc].
Qed.

(** X1. Whether a term matches is decided by its shortest candidate alone:
    a term of value [v] and tolerance [tol] matches a subject exactly when
    the prefix of [v] cut by [tol] characters occurs in it.  The loop over
    the gaps only decides which entry is recorded. *)
Theorem Term_matches_shortest_candidate (v : string) (tol : nat)
    (s : string) (ctx : Context.t) :
  fst (exec (Term v tol) s ctx) = true <->
  exists i, occurs_at (candidate v tol) s i.
Proof.
  rewrite Term_matches_iff. split.
  - intros (g & i & Hg & Hocc). exists i.
    now apply (candidate_occurs_shorter v s g tol).
  - intros (i & Hocc). exists tol, i. split; [lia | exact Hocc].
Qed.

(** X2. A query without negation is monotone in the subject: if it matches
    a subject, it matches every subject that contains that one. *)
Theorem positive_query_monotone (n : Node) (s pre post : string) :
  positive n = true ->
  matches n s = true ->
  matches n (pre ++ s ++ post) = true.
Proof.
  induction n as [v tol | n IH | ty l IHl r IHr]; simpl positive.
  - intros _. unfold matches. rewrite !Term_matches_iff.
    intros (g & i & Hg & Hocc).
    exists g, (String.length pre + i). split; [exact Hg|].
    now apply occurs_at_inside.
  - discriminate.
  - intros Hpos. apply andb_true_iff in Hpos as [Hl Hr].
    unfold matches. rewrite !Op_exec_matches. cbn [fst].
    destruct (String.eqb ty "&").
    + rewrite !andb_true_iff. intros [H1 H2]. split; auto.
    + rewrite !orb_true_iff. intros [H1 | H2]; auto.
Qed.

Lemma positive_query_monotone_witness :
  matches (Op "&" (new_Term "defg") (new_Term "abc"))
    ("my " ++ "abc defg" ++ " string") = true.
Proof.
  apply (positive_query_monotone (Op "&" (new_Term "defg") (new_Term "abc"))
           "abc defg" "my " " string"); reflexivity.
Defined.

(** ** What a tree records *)

Lemma exec_context_leaves (n : Node) (s : string) (ctx : Context.t) :
  snd (exec n s ctx) = run_terms (leaves n) s ctx.
Proof.
  revert ctx. induction n as [v tol | n IH | ty l IHl r IHr]; intros ctx.
  - reflexivity.
  - cbn [exec leaves]. rewrite <- IH. now destruct (exec n s ctx).
  - cbn [exec leaves]. unfold run_terms. rewrite fold_left_app.
    fold (run_terms (leaves l) s ctx).
    fold (run_terms (leaves r) s (run_terms (leaves l) s ctx)).
    rewrite <- IHl, <- IHr.
    destruct (exec l s ctx) as [a c1]. cbn [snd].
    now destruct (exec r s c1).
Qed.

(** X3. What a tree records depends on its terms only: the context after
    [exec] is the one obtained by running the terms of the tree from left
    to right, whatever the operators and negations around them, and
    whatever each term or subtree returns.  Two trees with the same terms
    in the same order leave the same context. *)
Theorem exec_records_every_term :
  (forall n s ctx, snd (exec n s ctx) = run_terms (leaves n) s ctx)
  /\ (forall n1 n2 s ctx,
        leaves n1 = leaves n2 ->
        snd (exec n1 s ctx) = snd (exec n2 s ctx)).
Proof.
  split; [apply exec_context_leaves|].
  intros n1 n2 s ctx H. now rewrite !exec_context_leaves, H.
Qed.

Lemma exec_records_every_term_witness :
  snd (exec (Op "&" (Not (new_Term "abc")) (new_Term "xyz")) "abc xy"
         Context.new) =
  snd (exec (Op "|" (new_Term "abc") (Not (new_Term "xyz"))) "abc xy"
         Context.new).
Proof.
  apply (proj2 exec_records_every_term). reflexivity.
Defined.

(** What one term of sound tolerance leaves in the context. *)
Lemma Term_exec_writes (v : string) (tol : nat) (s : string)
    (ctx : Context.t) :
  tol <= String.length v ->
  snd (Term_exec v tol s ctx) = ctx
  \/ exists g k,
      g <= tol
      /\ first_occurrence (candidate v g) s k
      /\ snd (Term_exec v tol s ctx) =
         Context.set_term_at (Z.of_nat k)
           (mkEntry (String.length v - g) g) ctx.
Proof.
  intros Htol. unfold Term_exec.
  destruct (Term_exec_loop_spec v tol s Htol (S (S tol)) 0 ctx
              ltac:(lia) ltac:(lia))
    as [[_ Hrun] | (g & i & Hg & Hfind & _ & Hrun)]; rewrite Hrun.
  - now left.
  - right. exists g, i. split; [lia|]. split; [now apply find_Some|].
    reflexivity.
Qed.

Lemma run_terms_sound (ts : list (string * nat)) (s : string) :
  Forall (fun t => snd t <= String.length (fst t)) ts ->
  forall ctx i e,
    Context.lookup (run_terms ts s ctx) i = Some e ->
    Context.lookup ctx i = Some e \/ recorded_by ts s i e.
Proof.
  induction 1 as [|[v tol] ts Hv Hts IH]; intros ctx i e Hlook.
  - now left.
  - unfold run_terms in Hlook. cbn [fold_left fst snd] in Hlook.
    fold (run_terms ts s (snd (Term_exec v tol s ctx))) in Hlook.
    assert (Hin : forall e', recorded_by ts s i e' ->
                             recorded_by ((v, tol) :: ts) s i e').
    { intros e' (v' & tol' & k & Hin & H'). exists v', tol', k.
      split; [now right | exact H']. }
    destruct (IH _ _ _ Hlook) as [Hone | Hrec]; [|right; now apply Hin].
    cbn [snd fst] in Hv.
    destruct (Term_exec_writes v tol s ctx Hv)
      as [Heq | (g & k & Hg & Hfirst & Heq)]; rewrite Heq in Hone.
    + now left.
    + destruct (Z.eq_dec (Z.of_nat k) i) as [<- | Hne].
      * rewrite lookup_set_term_at in Hone. injection Hone as <-.
        right. exists v, tol, k. cbn [entry_gap entry_length].
        split; [now left|]. repeat split; try assumption; apply Hfirst.
      * rewrite lookup_set_term_at_ne in Hone by assumption. now left.
Qed.

Lemma constructed_tolerance (n : Node) :
  constructed n ->
  Forall (fun t => snd t <= String.length (fst t)) (leaves n).
Proof.
  induction n as [v tol | n IH | ty l IHl r IHr]; cbn [constructed leaves].
  - intros ->. constructor; [|constructor]. cbn. apply ceil_div_4_spec.
  - exact IH.
  - intros (_ & Hl & Hr). apply Forall_app. split; auto.
Qed.

(** X4. Every entry of the context is a real match: after [exec] of a
    tree built by the constructors, an entry at an offset is either the
    one that was there before, or the one some term of the tree writes at
    the first occurrence in the subject of its prefix cut by [gap]
    characters, with [gap] within the tolerance and [length] the length
    of that prefix. *)
Theorem recorded_entries_are_matches (n : Node) (s : string)
    (ctx : Context.t) (i : Z) (e : Entry) :
  constructed n ->
  Context.lookup (snd (exec n s ctx)) i = Some e ->
  Context.lookup ctx i = Some e \/ recorded_by (leaves n) s i e.
Proof.
  intros Hn. rewrite exec_context_leaves.
  apply run_terms_sound. now apply constructed_tolerance.
Qed.

Lemma recorded_entries_are_matches_witness :
  Context.lookup Context.new 13 = Some (mkEntry 8 1)
  \/ recorded_by
       (leaves (Op "|" (Not (new_Term "abc")) (new_Term "defg ghij")))
       "mystring abc defg ghi jkl" 13 (mkEntry 8 1).
Proof.
  apply (recorded_entries_are_matches
           (Op "|" (Not (new_Term "abc")) (new_Term "defg ghij"))
           "mystring abc defg ghi jkl" Context.new 13 (mkEntry 8 1)).
  - cbn. repeat split; auto.
  - reflexivity.
Defined.

(** X5. [exec] of a tree never removes an offset from the context, never
    touches [success], and leaves a context without [term] as it is when
    no term of the tree matches. *)
Theorem exec_keeps_offsets (n : Node) (s : string) (ctx : Context.t) :
  (forall i e, Context.lookup ctx i = Some e ->
               exists e', Context.lookup (snd (exec n s ctx)) i = Some e')
  /\ Context.success (snd (exec n s ctx)) = Context.success ctx
  /\ (Forall (fun t => matches (Term (fst t) (snd t)) s = false) (leaves n) ->
      snd (exec n s ctx) = ctx).
Proof.
  rewrite exec_context_leaves. generalize (leaves n). intros ts.
  revert ctx. induction ts as [|[v tol] ts IH]; intros ctx.
  - split; [intros i e H; now exists e|]. split; reflexivity.
  - unfold run_terms. cbn [fold_left fst snd].
    fold (run_terms ts s (snd (Term_exec v tol s ctx))).
    destruct (IH (snd (Term_exec v tol s ctx))) as (IH1 & IH2 & IH3).
    pose proof (Term_exec_context v tol s ctx) as Hctx. cbn [exec] in Hctx.
    split; [|split].
    + intros i e Hi. destruct Hctx as [H | (j & e0 & H)]; rewrite H in *.
      * now apply (IH1 i e).
      * cbn [snd] in *. destruct (Z.eq_dec j i) as [-> | Hne].
        -- apply (IH1 i e0). apply lookup_set_term_at.
        -- apply (IH1 i e). now rewrite lookup_set_term_at_ne.
    + rewrite IH2. destruct Hctx as [H | (j & e0 & H)]; rewrite H.
      * reflexivity.
      * apply success_set_term_at.
    + intros Hall. apply Forall_cons in Hall as [Hv Hts]. cbn [fst snd] in Hv.
      assert (E : snd (Term_exec v tol s ctx) = ctx).
      { destruct Hctx as [H | (j & e0 & H)]; [now rewrite H|].
        pose proof (exec_matches (Term v tol) s ctx) as Hm.
        cbn [exec] in Hm. rewrite H, Hv in Hm. discriminate. }
      rewrite E in *. now apply IH3.
Qed.

Lemma exec_keeps_offsets_witness :
  snd (exec (Op "|" (new_Term "wxyz") (Not (new_Term "klmn"))) "abc"
         Context.new) = Context.new.
Proof.
  apply (exec_keeps_offsets
           (Op "|" (new_Term "wxyz") (Not (new_Term "klmn"))) "abc"
           Context.new).
  repeat constructor.
Defined.

(** ** Short terms and the algebra of the operators *)

Lemma occurs_at_in_empty (c : string) (i : nat) :
  occurs_at c "" i -> c = "".
Proof.
  intros (pre & post & H & _). destruct pre; [|discriminate].
  destruct c; [reflexivity | discriminate].
Qed.

Lemma length_candidate (v : string) (g : nat) :
  String.length (candidate v g) = String.length v - g.
Proof. unfold candidate. apply length_str_take. lia. Qed.

(** X6. The tolerance makes every term of at most one character match
    every subject, and its negation match none: the shortest candidate of
    such a term is the empty string.  These are the only terms that match
    the empty subject. *)
Theorem short_term_matches_everything (v : string) :
  (String.length v <= 1 <-> matches (new_Term v) "" = true)
  /\ (String.length v <= 1 ->
      forall s ctx,
        fst (exec (new_Term v) s ctx) = true
        /\ fst (exec (Not (new_Term v)) s ctx) = false).
Proof.
  pose proof (ceil_div_4_spec (String.length v)) as (H1 & H2 & H3).
  assert (Hall : String.length v <= 1 ->
                 forall s ctx, fst (exec (new_Term v) s ctx) = true).
  { intros Hv s ctx. unfold new_Term. apply Term_matches_iff.
    exists (JS.ceil_div (String.length v) 4), 0. split; [lia|].
    assert (E : candidate v (JS.ceil_div (String.length v) 4) = "").
    { pose proof (length_candidate v (JS.ceil_div (String.length v) 4)) as L.
      destruct (candidate v _); [reflexivity|]. cbn [String.length] in L.
      lia. }
    rewrite E. now exists "", s. }
  split; [split|].
  - intros Hv. apply Hall, Hv.
  - unfold matches, new_Term. rewrite Term_matches_iff.
    intros (g & i & Hg & Hocc). apply occurs_at_in_empty in Hocc.
    pose proof (length_candidate v g) as L. rewrite Hocc in L.
    cbn [String.length] in L. lia.
  - intros Hv s ctx. split; [now apply Hall|].
    pose proof (Hall Hv s ctx) as H. cbn [exec].
    destruct (exec (new_Term v) s ctx) as [r c]. cbn [fst] in *. now subst r.
Qed.

Lemma short_term_matches_everything_witness :
  fst (exec (new_Term "a") "xyz" Context.new) = true
  /\ fst (exec (Not (new_Term "a")) "xyz" Context.new) = false.
Proof.
  apply (proj2 (short_term_matches_everything "a")). simpl. lia.
Defined.

(** X7. The operators form a boolean algebra on results and, where the
    order of the terms is kept, on contexts too: a double negation and the
    De Morgan duals evaluate to the same result and the same context as
    the tree they rewrite; swapping the operands of an operator keeps the
    result (the context may differ, a later term overwriting an earlier
    one); and a result never depends on the context handed in. *)
Theorem exec_boolean_laws (a b : Node) (s : string) (ctx : Context.t) :
  exec (Not (Not a)) s ctx = exec a s ctx
  /\ exec (Not (Op "&" a b)) s ctx = exec (Op "|" (Not a) (Not b)) s ctx
  /\ exec (Not (Op "|" a b)) s ctx = exec (Op "&" (Not a) (Not b)) s ctx
  /\ (forall ty ctx', fst (exec (Op ty a b) s ctx) =
                      fst (exec (Op ty b a) s ctx'))
  /\ (forall ctx', fst (exec a s ctx) = fst (exec a s ctx')).
Proof.
  split; [|split; [|split; [|split]]].
  - cbn [exec]. destruct (exec a s ctx) as [r c]. now rewrite negb_involutive.
  - cbn [exec String.eqb Ascii.eqb Bool.eqb].
    destruct (exec a s ctx) as [ra c1].
    destruct (exec b s c1) as [rb c2]. now rewrite negb_andb.
  - cbn [exec String.eqb Ascii.eqb Bool.eqb].
    destruct (exec a s ctx) as [ra c1].
    destruct (exec b s c1) as [rb c2]. now rewrite negb_orb.
  - intros ty ctx'. rewrite !Op_exec_matches. cbn [fst].
    destruct (String.eqb ty "&"); [apply andb_comm | apply orb_comm].
  - intros ctx'. apply exec_result_indep.
Qed.

(** ** The moves of the lexer *)

Lemma advances_refl (s : TokenStream.t) : advances s s.
Proof. unfold advances. auto. Qed.

Lemma advances_trans (s1 s2 s3 : TokenStream.t) :
  advances s1 s2 -> advances s2 s3 -> advances s1 s3.
Proof.
  unfold advances. intros (C1 & T1 & P1 & B1) (C2 & T2 & P2 & B2).
  rewrite T1 in *. repeat split; try congruence; try lia.
Qed.

Lemma charAt_cases (s : string) (i : nat) :
  (JS.charAt s i = "" /\ String.length s <= i)
  \/ (exists c, JS.charAt s i = String c "" /\ i < String.length s).
Proof.
  destruct (le_lt_dec (String.length s) i) as [H | H].
  - left. split; [now apply charAt_past_end | exact H].
  - right. unfold JS.charAt. revert i H.
    induction s as [|d s IH]; intros i H; simpl in H; [lia|].
    destruct i as [|i]; simpl.
    + exists d. split; [reflexivity | lia].
    + destruct (IH i ltac:(lia)) as (c & Hc & Hi). exists c.
      split; [exact Hc | lia].
Qed.

(** One character read by the lexer. *)
Lemma advances_next (cur : option Token) (inp : string) (p : nat) :
  p < String.length inp ->
  advances (stream_at cur inp p) (stream_at cur inp (S p)).
Proof. intros H. unfold advances, stream_at. cbn. repeat split; lia. Qed.

(** [read_while] returns, having moved forward to the end of the text or
    to a character that fails the predicate. *)
Lemma read_while_loop_advances (predicate : string -> bool) (fuel : nat) :
  forall str cur inp p,
    exists w p',
      TokenStream.read_while_loop fuel predicate str (stream_at cur inp p) =
      (Return w, stream_at cur inp p')
      /\ advances (stream_at cur inp p) (stream_at cur inp p')
      /\ (String.length inp - p <= fuel ->
          JS.charAt inp p' = ""
          \/ predicate (JS.charAt inp p') = false).
Proof.
  induction fuel as [|fuel IH]; intros str cur inp p.
  - exists str, p. split; [reflexivity|]. split; [apply advances_refl|].
    intros H. left. apply charAt_past_end. lia.
  - cbn [TokenStream.read_while_loop].
    unfold bind, TokenStream.on_input, on_field, InputStream.eof,
      InputStream.next, InputStream.peek, bind, ret, stream_at.
    cbn -[JS.charAt TokenStream.read_while_loop String.eqb String.append].
    destruct (charAt_cases inp p) as [[E Hp] | (c & E & Hp)]; rewrite E.
    + exists str, p. split; [reflexivity|]. split; [apply advances_refl|].
      intros _. now left.
    + change (String.eqb (String c "") "") with false. cbn [negb andb].
      destruct (predicate (String c "")) eqn:Hpred.
      * cbn -[JS.charAt TokenStream.read_while_loop String.eqb String.append].
        rewrite E.
        destruct (IH (str ++ String c "") cur inp (S p))
          as (w & p' & Hrun & Hadv & Hstop).
        exists w, p'. split; [exact Hrun|]. split.
        -- eapply advances_trans; [now apply advances_next | exact Hadv].
        -- intros H. apply Hstop. lia.
      * exists str, p. split; [reflexivity|]. split; [apply advances_refl|].
        intros _. right. now rewrite E.
Qed.

Lemma read_escaped_loop_advances (end_ : string) (fuel : nat) :
  forall escaped str cur inp p,
    exists w p',
      TokenStream.read_escaped_loop fuel end_ escaped str
        (stream_at cur inp p) =
      (Return w, stream_at cur inp p')
      /\ advances (stream_at cur inp p) (stream_at cur inp p').
Proof.
  induction fuel as [|fuel IH]; intros escaped str cur inp p.
  - exists str, p. split; [reflexivity | apply advances_refl].
  - cbn [TokenStream.read_escaped_loop].
    unfold bind, TokenStream.on_input, on_field, InputStream.eof,
      InputStream.next, InputStream.peek, bind, ret, stream_at.
    cbn -[JS.charAt TokenStream.read_escaped_loop String.eqb String.append].
    destruct (charAt_cases inp p) as [[E Hp] | (c & E & Hp)]; rewrite E.
    + exists str, p. split; [reflexivity | apply advances_refl].
    + change (String.eqb (String c "") "") with false. cbn [negb].
      cbn -[JS.charAt TokenStream.read_escaped_loop String.eqb String.append].
      rewrite E.
      assert (Hstep : forall b x,
                 exists w p',
                   TokenStream.read_escaped_loop fuel end_ b x
                     (stream_at cur inp (S p)) =
                   (Return w, stream_at cur inp p')
                   /\ advances (stream_at cur inp p) (stream_at cur inp p')).
      { intros b x. destruct (IH b x cur inp (S p)) as (w & p' & Hrun & Hadv).
        exists w, p'. split; [exact Hrun|].
        eapply advances_trans; [now apply advances_next | exact Hadv]. }
      destruct escaped; [apply Hstep|].
      destruct (String.eqb (String c "") JS.backslash); [apply Hstep|].
      destruct (String.eqb (String c "") end_); [|apply Hstep].
      exists str, (S p). split; [reflexivity | now apply advances_next].
Qed.

Lemma is_ch_op_char (c : ascii) :
  TokenStream.is_ch_op (String c "") = Ascii.eqb c "&" || Ascii.eqb c "|".
Proof. destruct c as [[] [] [] [] [] [] [] []]; reflexivity. Qed.

Lemma is_ch_punc_char (c : ascii) :
  TokenStream.is_ch_punc (String c "") = Ascii.eqb c "(" || Ascii.eqb c ")".
Proof. destruct c as [[] [] [] [] [] [] [] []]; reflexivity. Qed.

Lemma is_ch_term_char (c : ascii) :
  TokenStream.is_ch_term (String c "") = JS.alnum c.
Proof. unfold TokenStream.is_ch_term. simpl. apply orb_false_r. Qed.

Lemma eqb_char (c d : ascii) :
  String.eqb (String c "") (String d "") = Ascii.eqb c d.
Proof. cbn [String.eqb]. now destruct (Ascii.eqb c d). Qed.

(** [read_next] skips the spaces, then yields [null] at the end of the
    text or reads the token that starts at the character found. *)
Lemma read_next_unfold (cur : option Token) (inp : string) (p : nat) :
  exists p0,
    advances (stream_at cur inp p) (stream_at cur inp p0)
    /\ ((JS.charAt inp p0 = ""
         /\ TokenStream.read_next (stream_at cur inp p) =
            (Return None, stream_at cur inp p0))
        \/ (exists c,
              JS.charAt inp p0 = String c ""
              /\ p0 < String.length inp
              /\ Ascii.eqb c " " = false
              /\ TokenStream.read_next (stream_at cur inp p) =
                 read_token (String c "") (stream_at cur inp p0))).
Proof.
  destruct (read_while_loop_advances TokenStream.is_ch_whitespace
              (String.length inp) "" cur inp p)
    as (w & p0 & Hrun & Hadv & Hstop).
  specialize (Hstop ltac:(lia)).
  exists p0. split; [exact Hadv|].
  remember (TokenStream.read_next (stream_at cur inp p)) as rn eqn:Hrn.
  unfold TokenStream.read_next, TokenStream.read_while in Hrn.
  unfold bind at 1 in Hrn.
  change (InputStream.input (TokenStream.input (stream_at cur inp p)))
    with inp in Hrn.
  rewrite Hrun in Hrn.
  unfold bind, TokenStream.on_input, on_field, InputStream.eof,
    InputStream.peek, bind, ret, stream_at in Hrn.
  cbn -[JS.charAt String.eqb String.append read_token
        TokenStream.read_string TokenStream.read_term
        TokenStream.is_ch_term TokenStream.is_ch_op TokenStream.is_ch_punc
        TokenStream.throw] in Hrn.
  destruct (charAt_cases inp p0) as [[E Hlen] | (c & E & Hlen)];
    rewrite E in Hrn.
  - left. split; [exact E | exact Hrn].
  - right. exists c. split; [exact E|]. split; [exact Hlen|].
    change (String.eqb (String c "") "") with false in Hrn.
    cbn -[JS.charAt String.eqb String.append read_token
          TokenStream.read_string TokenStream.read_term
          TokenStream.is_ch_term TokenStream.is_ch_op TokenStream.is_ch_punc
          TokenStream.throw] in Hrn.
    rewrite E in Hrn. split.
    + destruct Hstop as [Hstop | Hstop]; rewrite E in Hstop; [discriminate|].
      unfold TokenStream.is_ch_whitespace in Hstop.
      change " " with (String " "%char "") in Hstop.
      now rewrite eqb_char in Hstop.
    + rewrite Hrn.
      unfold read_token, bind, ret, TokenStream.on_input, on_field, stream_at.
      destruct (String.eqb (String c "") JS.dquote); [reflexivity|].
      destruct (String.eqb (String c "") "!"); [reflexivity|].
      destruct (TokenStream.is_ch_term (String c "")); [reflexivity|].
      destruct (TokenStream.is_ch_op (String c "")); [reflexivity|].
      destruct (TokenStream.is_ch_punc (String c "")); reflexivity.
Qed.

(** What [read_next] does, whatever the state of the stream: it moves
    forward and yields [null] at the end of the text, a token of the
    language after reading at least one character, or the error on the
    character it stands at, which starts no token. *)
Lemma read_next_cases (cur : option Token) (inp : string) (p : nat) :
  exists r p',
    TokenStream.read_next (stream_at cur inp p) = (r, stream_at cur inp p')
    /\ advances (stream_at cur inp p) (stream_at cur inp p')
    /\ match r with
       | Return None => JS.charAt inp p' = ""
       | Return (Some tok) => lexical tok /\ p < p' <= String.length inp
       | Throw e =>
           exists c,
             JS.charAt inp p' = String c ""
             /\ legal c = false
             /\ e = mkError (UnexpectedCharacter (String c "")) p'
       | OutOfFuel => False
       end.
Proof.
  destruct (read_next_unfold cur inp p)
    as (p0 & Hadv & [[E ->] | (c & E & Hlen & Hsp & ->)]).
  { exists (Return None), p0. auto. }
  assert (Hp0 : p <= p0) by apply Hadv.
  assert (Hnext : TokenStream.on_input InputStream.next (stream_at cur inp p0)
                  = (Return (String c ""), stream_at cur inp (S p0))).
  { unfold TokenStream.on_input, on_field, InputStream.next, stream_at.
    cbn -[JS.charAt]. now rewrite E. }
  assert (Hadv1 : advances (stream_at cur inp p) (stream_at cur inp (S p0))).
  { eapply advances_trans; [exact Hadv | now apply advances_next]. }
  unfold read_token.
  rewrite eqb_char_dquote.
  destruct (Ascii.eqb c "034") eqn:Hdq.
  { unfold TokenStream.read_string, TokenStream.read_escaped. unfold bind.
    rewrite Hnext.
    change (InputStream.input (TokenStream.input (stream_at cur inp p0)))
      with inp.
    destruct (read_escaped_loop_advances JS.dquote (String.length inp) false
                "" cur inp (S p0)) as (v & p' & -> & Hadv2).
    exists (Return (Some (mkToken "term" (Some v)))), p'.
    split; [reflexivity|]. split.
    - eapply advances_trans; [exact Hadv1 | exact Hadv2].
    - split; [constructor|]. destruct Hadv2 as (_ & _ & H & H').
      cbn [stream_at TokenStream.input InputStream.pos InputStream.input]
        in H, H'. lia. }
  change "!" with (String "!"%char "") at 1. rewrite eqb_char.
  destruct (Ascii.eqb c "!") eqn:Hbang.
  { unfold bind. rewrite Hnext. apply Ascii.eqb_eq in Hbang. subst c.
    exists (Return (Some (mkToken "!" None))), (S p0).
    split; [reflexivity|]. split; [exact Hadv1|].
    split; [constructor | lia]. }
  rewrite is_ch_term_char.
  destruct (JS.alnum c) eqn:Halnum.
  { unfold TokenStream.read_term, TokenStream.read_while. unfold bind.
    change (InputStream.input (TokenStream.input (stream_at cur inp p0)))
      with inp.
    destruct (String.length inp) as [|fuel] eqn:Hfuel; [lia|].
    assert (Hstep : TokenStream.read_while_loop (S fuel)
                      TokenStream.is_ch_term "" (stream_at cur inp p0) =
                    TokenStream.read_while_loop fuel TokenStream.is_ch_term
                      ("" ++ String c "") (stream_at cur inp (S p0))).
    { cbn [TokenStream.read_while_loop].
      unfold bind, TokenStream.on_input, on_field, InputStream.eof,
        InputStream.next, InputStream.peek, bind, ret, stream_at.
      cbn -[JS.charAt TokenStream.read_while_loop String.eqb String.append
            TokenStream.is_ch_term].
      rewrite E. change (String.eqb (String c "") "") with false.
      rewrite is_ch_term_char, Halnum. cbn [negb andb].
      cbn -[JS.charAt TokenStream.read_while_loop String.eqb String.append
            TokenStream.is_ch_term].
      now rewrite E. }
    rewrite Hstep.
    destruct (read_while_loop_advances TokenStream.is_ch_term fuel
                ("" ++ String c "") cur inp (S p0))
      as (v & p' & -> & Hadv2 & _).
    exists (Return (Some (mkToken "term" (Some v)))), p'.
    split; [reflexivity|]. split.
    - eapply advances_trans; [exact Hadv1 | exact Hadv2].
    - split; [constructor|]. destruct Hadv2 as (_ & _ & H & H').
      cbn [stream_at TokenStream.input InputStream.pos InputStream.input]
        in H, H'. lia. }
  rewrite is_ch_op_char.
  destruct (Ascii.eqb c "&") eqn:Hand.
  { cbn [orb]. unfold bind. rewrite Hnext. apply Ascii.eqb_eq in Hand.
    subst c. exists (Return (Some (mkToken "&" None))), (S p0).
    split; [reflexivity|]. split; [exact Hadv1|].
    split; [constructor | lia]. }
  destruct (Ascii.eqb c "|") eqn:Hor.
  { cbn [orb]. unfold bind. rewrite Hnext. apply Ascii.eqb_eq in Hor.
    subst c. exists (Return (Some (mkToken "|" None))), (S p0).
    split; [reflexivity|]. split; [exact Hadv1|].
    split; [constructor | lia]. }
  cbn [orb]. rewrite is_ch_punc_char.
  destruct (Ascii.eqb c "(") eqn:Hopen.
  { cbn [orb]. unfold bind. rewrite Hnext. apply Ascii.eqb_eq in Hopen.
    subst c. exists (Return (Some (mkToken "punc" (Some "(")))), (S p0).
    split; [reflexivity|]. split; [exact Hadv1|].
    split; [constructor | lia]. }
  destruct (Ascii.eqb c ")") eqn:Hclose.
  { cbn [orb]. unfold bind. rewrite Hnext. apply Ascii.eqb_eq in Hclose.
    subst c. exists (Return (Some (mkToken "punc" (Some ")")))), (S p0).
    split; [reflexivity|]. split; [exact Hadv1|].
    split; [constructor | lia]. }
  cbn [orb].
  exists (Throw (mkError (UnexpectedCharacter (String c "")) p0)), p0.
  split; [reflexivity|]. split; [exact Hadv|].
  exists c. split; [exact E|]. split; [|reflexivity].
  unfold legal. now rewrite Hsp, Hdq, Hbang, Halnum, Hand, Hor, Hopen, Hclose.
Qed.

(** ** Every text scans *)

Lemma scans_nil (s : TokenStream.t) :
  scans s (mkScan [] None) ->
  TokenStream.current s = None
  /\ exists s1,
      TokenStream.read_next (TokenStream.mk None (TokenStream.input s)) =
      (Return None, TokenStream.mk None s1)
      /\ JS.charAt (InputStream.input s1) (InputStream.pos s1) = "".
Proof.
  intros [[|fuel] H]; [discriminate|]. cbn [scan] in H.
  unfold TokenStream.next in H.
  destruct (TokenStream.current s) as [c|] eqn:Ecur.
  - destruct (scan fuel _); discriminate.
  - split; [reflexivity|].
    destruct (TokenStream.read_next _) as [[[t|] | e |] s1] eqn:Hnext;
      try discriminate.
    + destruct (scan fuel s1); discriminate.
    + apply read_next_None in Hnext as Hend. destruct Hend as [Hc Hend].
      destruct s1 as [c1 i1]. cbn in Hc, Hend. subst c1.
      exists i1. split; [reflexivity | exact Hend].
Qed.

Lemma scans_fault (s : TokenStream.t) (msg : ErrorMsg) :
  scans s (mkScan [] (Some msg)) ->
  TokenStream.current s = None
  /\ exists e s1,
      TokenStream.read_next (TokenStream.mk None (TokenStream.input s)) =
      (Throw e, s1)
      /\ err_msg e = msg.
Proof.
  intros [[|fuel] H]; [discriminate|]. cbn [scan] in H.
  unfold TokenStream.next in H.
  destruct (TokenStream.current s) as [c|] eqn:Ecur.
  - destruct (scan fuel _); discriminate.
  - split; [reflexivity|].
    destruct (TokenStream.read_next _) as [[[t|] | e |] s1] eqn:Hnext;
      try discriminate.
    + destruct (scan fuel s1); discriminate.
    + injection H as <-. now exists e, s1.
Qed.

Lemma scans_cons (s : TokenStream.t) (tok : Token) (toks : list Token)
    (fault : option ErrorMsg) :
  scans s (mkScan (tok :: toks) fault) ->
  exists s1,
    TokenStream.next s = (Return (Some tok), s1)
    /\ scans s1 (mkScan toks fault).
Proof.
  intros [[|fuel] H]; [discriminate|]. cbn [scan] in H.
  destruct (TokenStream.next s) as [[[t|] | e |] s1]; try discriminate.
  destruct (scan fuel s1) as [[l f]|] eqn:E; [|discriminate].
  cbn in H. injection H as -> -> ->.
  exists s1. split; [reflexivity | now exists fuel].
Qed.

Lemma scans_peek (s : TokenStream.t) (sc : Scan) :
  scans s sc ->
  related_outcome scans (TokenStream.peek s) (scan_read false sc).
Proof.
  intros H. destruct sc as [[|tok toks] [msg|]]; unfold related_outcome.
  - destruct (scans_fault s msg H) as (Hcur & e & s1 & Hnext & Hmsg).
    unfold TokenStream.peek. rewrite Hcur. unfold bind.
    destruct s as [c i]. cbn [TokenStream.current TokenStream.input] in *.
    subst c. rewrite Hnext. cbn. exact Hmsg.
  - destruct (scans_nil s H) as (Hcur & s1 & Hnext & Hend).
    unfold TokenStream.peek. rewrite Hcur. unfold bind.
    destruct s as [c i]. cbn [TokenStream.current TokenStream.input] in *.
    subst c. rewrite Hnext. cbn. split; [reflexivity|].
    exists 1. cbn [scan]. unfold TokenStream.next.
    cbn [TokenStream.current TokenStream.input].
    now rewrite (read_next_at_end None s1 Hend).
  - destruct (scans_cons s tok toks _ H) as (s1 & Hnext & Htail).
    unfold TokenStream.next in Hnext.
    destruct (TokenStream.current s) as [c|] eqn:Ecur.
    + injection Hnext as -> <-. unfold TokenStream.peek. rewrite Ecur.
      cbn. split; [reflexivity | exact H].
    + unfold TokenStream.peek. rewrite Ecur. unfold bind.
      destruct s as [c i]. cbn [TokenStream.current TokenStream.input] in *.
      subst c. rewrite Hnext. cbn. split; [reflexivity|].
      destruct Htail as [fuel Hscan]. exists (S fuel). cbn [scan].
      unfold TokenStream.next. cbn [TokenStream.current TokenStream.input].
      pose proof (read_next_current (TokenStream.mk None i)) as Hc.
      rewrite Hnext in Hc. cbn in Hc.
      rewrite (stream_eta s1), Hc in Hscan. now rewrite Hscan.
  - destruct (scans_cons s tok toks _ H) as (s1 & Hnext & Htail).
    unfold TokenStream.next in Hnext.
    destruct (TokenStream.current s) as [c|] eqn:Ecur.
    + injection Hnext as -> <-. unfold TokenStream.peek. rewrite Ecur.
      cbn. split; [reflexivity | exact H].
    + unfold TokenStream.peek. rewrite Ecur. unfold bind.
      destruct s as [c i]. cbn [TokenStream.current TokenStream.input] in *.
      subst c. rewrite Hnext. cbn. split; [reflexivity|].
      destruct Htail as [fuel Hscan]. exists (S fuel). cbn [scan].
      unfold TokenStream.next. cbn [TokenStream.current TokenStream.input].
      pose proof (read_next_current (TokenStream.mk None i)) as Hc.
      rewrite Hnext in Hc. cbn in Hc.
      rewrite (stream_eta s1), Hc in Hscan. now rewrite Hscan.
Qed.

(** The token stream and its scan are related sources. *)
Lemma scans_simulates : simulates scans.
Proof.
  intros s sc H. pose proof (scans_peek s sc H) as Hpeek.
  split; [exact Hpeek|]. split; [|split].
  - cbn [source_next TokenStream_source Scan_source].
    destruct sc as [[|tok toks] [msg|]]; unfold related_outcome.
    + destruct (scans_fault s msg H) as (Hcur & e & s1 & Hnext & Hmsg).
      unfold TokenStream.next. rewrite Hcur, Hnext. cbn. exact Hmsg.
    + destruct (scans_nil s H) as (Hcur & s1 & Hnext & Hend).
      unfold TokenStream.next. rewrite Hcur, Hnext. cbn.
      split; [reflexivity|]. exists 1. cbn [scan]. unfold TokenStream.next.
      cbn [TokenStream.current TokenStream.input].
      now rewrite (read_next_at_end None s1 Hend).
    + destruct (scans_cons s tok toks _ H) as (s1 & Hnext & Htail).
      rewrite Hnext. cbn. split; [reflexivity | exact Htail].
    + destruct (scans_cons s tok toks _ H) as (s1 & Hnext & Htail).
      rewrite Hnext. cbn. split; [reflexivity | exact Htail].
  - cbn [source_eof TokenStream_source Scan_source].
    unfold TokenStream.eof, bind, ret, related_outcome in *.
    destruct (TokenStream.peek s) as [[t1 | e1 |] s1],
      (scan_read false sc) as [[t2 | e2 |] sc2];
      cbn in *; try contradiction; try assumption.
    destruct Hpeek as [-> Hs]. split; [reflexivity | exact Hs].
  - intros A msg. reflexivity.
Qed.

(** Every text scans: the lexer reaches the end of the text or stops at a
    character that starts no token, after tokens of the language, fewer
    than the characters left. *)
Lemma scans_total (inp : string) (n : nat) :
  forall p,
    String.length inp - p <= n ->
    exists sc,
      scans (stream_at None inp p) sc
      /\ Forall lexical (scan_tokens sc)
      /\ lexical_fault (scan_fault sc)
      /\ length (scan_tokens sc) <= String.length inp - p.
Proof.
  induction n as [|n IH]; intros p Hn.
  - exists (mkScan [] None).
    split; [|split; [constructor | split; [exact I | cbn; lia]]].
    exists 1. cbn [scan]. unfold TokenStream.next, stream_at.
    cbn [TokenStream.current TokenStream.input].
    rewrite (read_next_at_end None (InputStream.mk p inp)); [reflexivity|].
    cbn. apply charAt_past_end. lia.
  - destruct (read_next_cases None inp p) as (r & p' & Hnext & Hadv & Hr).
    destruct r as [[tok|] | e |].
    + destruct Hr as [Htok Hp].
      destruct (IH p' ltac:(lia))
        as (sc & [fuel Hscan] & Htoks & Hfault & Hlen).
      exists (mkScan (tok :: scan_tokens sc) (scan_fault sc)).
      split; [|split; [|split]].
      * exists (S fuel). cbn [scan]. unfold TokenStream.next.
        cbn [stream_at TokenStream.current TokenStream.input].
        fold (stream_at None inp p). rewrite Hnext. now rewrite Hscan.
      * now constructor.
      * exact Hfault.
      * cbn [scan_tokens length]. lia.
    + exists (mkScan [] None).
      split; [|split; [constructor | split; [exact I | cbn; lia]]].
      exists 1. cbn [scan]. unfold TokenStream.next.
      cbn [stream_at TokenStream.current TokenStream.input].
      fold (stream_at None inp p). now rewrite Hnext.
    + destruct Hr as (c & Hc & Hlegal & ->).
      exists (mkScan [] (Some (UnexpectedCharacter (String c "")))).
      split; [|split; [constructor | split; [|cbn; lia]]].
      * exists 1. cbn [scan]. unfold TokenStream.next.
        cbn [stream_at TokenStream.current TokenStream.input].
        fold (stream_at None inp p). now rewrite Hnext.
      * now exists c.
    + contradiction.
Qed.

(** Parsing a query is parsing its scan. *)
Lemma parse_scanned (q : string) :
  exists sc,
    Forall lexical (scan_tokens sc)
    /\ lexical_fault (scan_fault sc)
    /\ length (scan_tokens sc) <= String.length q
    /\ forall fuel,
        related_outcome (related_parser scans)
          (Parser.parse_operand fuel true (Parser.new q))
          (Parser.parse_operand fuel true (Parser.mk sc None)).
Proof.
  destruct (scans_total q (String.length q) 0 ltac:(lia))
    as (sc & Hscan & Htoks & Hfault & Hlen).
  exists sc. split; [exact Htoks|]. split; [exact Hfault|].
  split; [lia|]. intros fuel.
  apply (proj1 (related_descent scans scans_simulates fuel) true).
  split; [exact Hscan | reflexivity].
Qed.

(** ** The parser on a scan *)

Lemma follows_refl (p : Parser.t Scan) : follows p p.
Proof. unfold follows, pinned. auto. Qed.

Lemma follows_trans (p1 p2 p3 : Parser.t Scan) :
  follows p1 p2 -> follows p2 p3 -> follows p1 p3.
Proof.
  unfold follows, pinned. intros (L1 & X1 & F1 & P1) (L2 & X2 & F2 & P2).
  repeat split; try lia; try congruence; auto.
Qed.

Lemma parse_error_follows (p p' : Parser.t Scan) (msg : ErrorMsg) :
  follows p p' ->
  parse_error (scan_fault (Parser.input p')) msg ->
  parse_error (scan_fault (Parser.input p)) msg.
Proof. intros (_ & _ & E & _). now rewrite E. Qed.

Lemma style_ok_pinned (lz lz' : option bool) (n : Node) :
  style_ok lz n -> pinned lz lz' -> style_ok lz' n.
Proof.
  unfold style_ok, pinned. intros [H1 H2] Hp.
  destruct lz as [[|]|].
  - split; intros E; [specialize (Hp true eq_refl); congruence | auto].
  - split; intros E; specialize (Hp false eq_refl); congruence.
  - rewrite H1 by reflexivity. split; intros; [reflexivity | constructor].
Qed.

(** The primitives of the parser on a scan that has a token to give. *)
Section ScanPrimitives.

Variables (tk : Token) (toks : list Token) (fault : option ErrorMsg)
  (lz : option bool).

Lemma scan_peek_cons :
  Parser.on_input source_peek (Parser.mk (mkScan (tk :: toks) fault) lz) =
  (Return (Some tk), Parser.mk (mkScan (tk :: toks) fault) lz).
Proof. reflexivity. Qed.

Lemma scan_next_cons :
  Parser.on_input source_next (Parser.mk (mkScan (tk :: toks) fault) lz) =
  (Return (Some tk), Parser.mk (mkScan toks fault) lz).
Proof. reflexivity. Qed.

Lemma scan_eof_cons :
  Parser.on_input source_eof (Parser.mk (mkScan (tk :: toks) fault) lz) =
  (Return false, Parser.mk (mkScan (tk :: toks) fault) lz).
Proof. reflexivity. Qed.

Lemma is_not_cons :
  Parser.is_not (Parser.mk (mkScan (tk :: toks) fault) lz) =
  (Return (if String.eqb (tok_type tk) "!" then Some tk else None),
   Parser.mk (mkScan (tk :: toks) fault) lz).
Proof. reflexivity. Qed.

Lemma is_term_cons :
  Parser.is_term (Parser.mk (mkScan (tk :: toks) fault) lz) =
  (Return (if String.eqb (tok_type tk) "term" then Some tk else None),
   Parser.mk (mkScan (tk :: toks) fault) lz).
Proof. reflexivity. Qed.

Lemma is_op_cons :
  Parser.is_op (Parser.mk (mkScan (tk :: toks) fault) lz) =
  (Return (if String.eqb (tok_type tk) "&" || String.eqb (tok_type tk) "|"
           then Some tk else None),
   Parser.mk (mkScan (tk :: toks) fault) lz).
Proof. reflexivity. Qed.

Lemma is_punc_cons (ch : string) :
  Parser.is_punc ch (Parser.mk (mkScan (tk :: toks) fault) lz) =
  (Return (if String.eqb (tok_type tk) "punc"
              && (negb (JS.truthy ch)
                  || match tok_value tk with
                     | Some v => String.eqb v ch
                     | None => false
                     end)
           then Some tk else None),
   Parser.mk (mkScan (tk :: toks) fault) lz).
Proof. reflexivity. Qed.

Lemma skip_punc_cons (ch : string) :
  Parser.skip_punc ch (Parser.mk (mkScan (tk :: toks) fault) lz) =
  if String.eqb (tok_type tk) "punc"
     && (negb (JS.truthy ch)
         || match tok_value tk with
            | Some v => String.eqb v ch
            | None => false
            end)
  then (Return tt, Parser.mk (mkScan toks fault) lz)
  else (Throw (mkError (ExpectingPunctuation ch) 0),
        Parser.mk (mkScan (tk :: toks) fault) lz).
Proof.
  unfold Parser.skip_punc, bind. rewrite is_punc_cons.
  now destruct (String.eqb (tok_type tk) "punc" && _).
Qed.

End ScanPrimitives.

(** The primitives at the end of a scan: they throw its fault, if any. *)
Lemma scan_peek_nil (fault : option ErrorMsg) (lz : option bool) :
  Parser.on_input source_peek (Parser.mk (mkScan [] fault) lz) =
  (match fault with
   | Some msg => Throw (mkError msg 0)
   | None => Return None
   end, Parser.mk (mkScan [] fault) lz).
Proof. now destruct fault. Qed.

Lemma follows_next (tk : Token) (toks : list Token)
    (fault : option ErrorMsg) (lz : option bool) :
  follows (Parser.mk (mkScan (tk :: toks) fault) lz)
    (Parser.mk (mkScan toks fault) lz).
Proof.
  unfold follows, pinned. cbn. repeat split; auto.
  intros H. now inversion H.
Qed.

(** [skip_punc(')')] after a parse. *)
Lemma skip_close_parsed (p : Parser.t Scan) :
  let y := Parser.skip_punc ")" p in
  follows p (snd y)
  /\ Parser.is_lazy (snd y) = Parser.is_lazy p
  /\ match fst y with
     | Return _ => True
     | Throw e => parse_error (scan_fault (Parser.input p)) (err_msg e)
     | OutOfFuel => False
     end.
Proof.
  destruct p as [[[|tk toks] fault] lz].
  - unfold Parser.skip_punc, Parser.is_punc, bind. rewrite scan_peek_nil.
    destruct fault as [msg|]; cbn.
    + split; [apply follows_refl|]. split; [reflexivity|].
      right. right. now right.
    + split; [apply follows_refl|]. split; [reflexivity|].
      right. now left.
  - cbn zeta. rewrite skip_punc_cons.
    destruct (String.eqb (tok_type tk) "punc" && _); cbn.
    + split; [apply follows_next|]. split; [reflexivity | exact I].
    + split; [apply follows_refl|]. split; [reflexivity|].
      right. now left.
Qed.

Section Descent.

Variable n : nat.
Hypothesis IH : parser_spec n.

Lemma operand_expr_parsed (p : Parser.t Scan) (fuel : nat) :
  length (scan_tokens (Parser.input p)) < S n ->
  Forall lexical (scan_tokens (Parser.input p)) ->
  5 * S n + 1 <= fuel ->
  parsed true p (Parser.operand_expr fuel p).
Proof.
  intros Hlen Hlex Hfuel.
  destruct fuel as [|fuel]; [lia|]. rewrite operand_expr_S.
  destruct p as [[toks fault] lz].
  cbn [Parser.input scan_tokens] in Hlen, Hlex.
  destruct toks as [|[ty v] toks].
  - unfold bind, Parser.is_not, Parser.is_punc, Parser.is_term,
      Parser.unexpected, Parser.on_input, on_field, bind, ret.
    cbn. destruct fault as [msg|]; cbn.
    + split; [apply follows_refl|]. cbn. right. right. now right.
    + split; [apply follows_refl|]. cbn. right. right. left.
      now exists None.
  - set (tk := mkToken ty v) in *.
    set (here := Parser.mk (mkScan (tk :: toks) fault) lz).
    set (after := Parser.mk (mkScan toks fault) lz).
    assert (Hafter : follows here after) by apply follows_next.
    assert (IHafter : forall f, 5 * n + 4 <= f -> forall b,
               parsed true after (Parser.parse_operand f b after)).
    { intros f Hf b.
      apply (IH after);
        [cbn in *; lia | now inversion Hlex | destruct b; lia]. }
    unfold bind at 1. unfold here at 2. rewrite is_not_cons. fold here.
    cbn [tok_type tk].
    destruct (String.eqb ty "!") eqn:Hnot; cbn [JS.defined].
    { (* parse_not *)
      destruct fuel as [|fuel]; [lia|]. rewrite parse_not_S.
      unfold bind at 1. unfold here at 2. rewrite scan_next_cons. fold after.
      unfold bind, ret.
      pose proof (IHafter fuel ltac:(lia) false) as H.
      destruct (Parser.parse_operand fuel false after) as [[e | err |] p'];
        destruct H as [Hf Hr]; cbn [fst snd] in *.
      - split; [eapply follows_trans; eassumption|]. cbn [fst snd].
        destruct Hr as (Hc & Hs & Hp). repeat split; try assumption;
          try apply Hs. intros _. specialize (Hp eq_refl). cbn in *. lia.
      - split; [eapply follows_trans; eassumption|]. exact Hr.
      - contradiction. }
    unfold bind at 1. unfold here at 2. rewrite is_punc_cons. fold here.
    cbn [tok_type tok_value tk JS.truthy negb orb].
    destruct (String.eqb ty "punc"
              && match v with Some v0 => String.eqb v0 "(" | None => false end)
      eqn:Hpunc; cbn [JS.defined].
    { (* parse_operands *)
      destruct fuel as [|fuel]; [lia|]. rewrite parse_operands_S.
      unfold bind at 1. unfold here at 2. rewrite skip_punc_cons. fold after.
      cbn [tok_type tok_value tk JS.truthy negb orb]. rewrite Hpunc.
      unfold bind at 1.
      pose proof (IHafter fuel ltac:(lia) true) as H.
      destruct (Parser.parse_operand fuel true after) as [[e | err |] p'];
        destruct H as [Hf Hr]; cbn [fst snd] in *.
      - destruct Hr as (Hc & Hs & Hp). specialize (Hp eq_refl).
        destruct (skip_close_parsed p') as (Hf' & Hlz & Hr').
        unfold bind, ret.
        destruct (Parser.skip_punc ")" p') as [[[] | err |] p''];
          cbn [fst snd] in *.
        + split; [eapply follows_trans; [exact Hafter|];
                  eapply follows_trans; eassumption|].
          cbn [fst snd]. rewrite Hlz. repeat split; try assumption;
            try apply Hs. intros _.
          destruct Hf' as (Hl & _). cbn in *. lia.
        + split; [eapply follows_trans; [exact Hafter|];
                  eapply follows_trans; eassumption|].
          cbn [fst snd]. eapply parse_error_follows; [|exact Hr'].
          eapply follows_trans; eassumption.
        + contradiction.
      - split; [eapply follows_trans; eassumption|]. exact Hr.
      - contradiction. }
    unfold bind at 1. unfold here at 2. rewrite is_term_cons. fold here.
    cbn [tok_type tk].
    destruct (String.eqb ty "term") eqn:Hterm; cbn [JS.defined].
    { (* parse_term *)
      unfold Parser.parse_term, bind. unfold here at 2.
      rewrite scan_next_cons. fold after.
      apply String.eqb_eq in Hterm. subst ty.
      assert (Hv : exists w, v = Some w).
      { inversion Hlex as [|? ? Htk _]; subst. inversion Htk; subst.
        now eexists. }
      destruct Hv as [w ->]. unfold tk, ret.
      split; [exact Hafter|]. cbn [fst snd].
      split; [reflexivity|].
      split; [split; intros; [reflexivity | constructor]|].
      intros _. cbn. lia. }
    (* unexpected *)
    unfold Parser.unexpected, bind. unfold here at 2.
    rewrite scan_peek_cons. fold here.
    split; [apply follows_refl|]. cbn [fst snd]. right. right. left.
    exists (Some tk). split; [reflexivity|].
    unfold starts_operand. cbn [tok_type tok_value tk].
    now rewrite Hnot, Hpunc, Hterm.
Qed.

Lemma lazy_operator_parsed (p : Parser.t Scan) (fuel : nat) :
  length (scan_tokens (Parser.input p)) < S n ->
  Forall lexical (scan_tokens (Parser.input p)) ->
  5 * S n + 2 <= fuel ->
  parsed true p (Parser.lazy_operator fuel p).
Proof.
  intros Hlen Hlex Hfuel.
  destruct fuel as [|fuel]; [lia|]. rewrite lazy_operator_S.
  unfold bind at 1.
  pose proof (operand_expr_parsed p fuel Hlen Hlex ltac:(lia)) as H.
  destruct (Parser.operand_expr fuel p) as [[e | err |] p1];
    destruct H as [Hf Hr]; cbn [fst snd] in *;
    [|split; [exact Hf | exact Hr] | contradiction].
  destruct Hr as (Hc & Hs & Hp). specialize (Hp eq_refl).
  assert (Hret : parsed true p (Return e, p1)).
  { split; [exact Hf|]. cbn [fst snd]. auto. }
  destruct p1 as [[[|tk1 toks1] fault1] lz1].
  - unfold bind at 1. unfold Parser.on_input, on_field.
    cbn [Parser.input source_eof Scan_source]. unfold bind, scan_read, ret.
    cbn [scan_tokens scan_fault].
    destruct fault1 as [msg|]; [|exact Hret].
    split; [exact Hf|]. cbn [fst snd err_msg].
    destruct Hf as (_ & _ & Hfault & _). cbn in Hfault.
    right. right. right. now rewrite <- Hfault.
  - unfold bind at 1. rewrite scan_eof_cons. cbv iota.
    unfold bind at 1. rewrite is_op_cons.
    destruct (String.eqb (tok_type tk1) "&" || String.eqb (tok_type tk1) "|");
      cbn [JS.defined]; [exact Hret|].
    unfold bind at 1. rewrite is_punc_cons.
    destruct (String.eqb (tok_type tk1) "punc" && _);
      cbn [JS.defined]; [exact Hret|].
    set (p1 := Parser.mk (mkScan (tk1 :: toks1) fault1) lz1) in *.
    set (q := Parser.mk (mkScan (tk1 :: toks1) fault1) (Some true)).
    assert (Hlazy : lz1 <> Some false ->
              parsed true p
                ((let* right := Parser.parse_operand fuel true in
                  ret (Op "|" e right)) q)).
    { intros Hlz.
      assert (Hq : follows p1 q).
      { unfold follows, pinned. cbn. repeat split; auto.
        intros b ->. destruct b; [reflexivity | contradiction]. }
      assert (Hlenq : length (scan_tokens (Parser.input q)) < n)
        by (unfold p1 in Hp; cbn in *; lia).
      assert (Hlexq : Forall lexical (scan_tokens (Parser.input q)))
        by (apply Hf; exact Hlex).
      destruct (IH q Hlenq Hlexq) as (_ & _ & IHo & _).
      pose proof (IHo fuel true ltac:(cbv iota; lia)) as H.
      unfold bind, ret.
      destruct (Parser.parse_operand fuel true q) as [[r | err |] p2];
        destruct H as [Hf2 Hr2]; cbn [fst snd] in *.
      - destruct Hr2 as (Hc2 & Hs2 & Hp2).
        assert (Hlz2 : Parser.is_lazy p2 = Some true).
        { destruct Hf2 as (_ & _ & _ & Hpin). now apply Hpin. }
        split; [eapply follows_trans; [exact Hf|];
                eapply follows_trans; eassumption|].
        cbn [fst snd]. split; [|split].
        + cbn. auto.
        + rewrite Hlz2. split; [discriminate|]. intros _. cbn [ops].
          constructor; [reflexivity|]. apply Forall_app. split.
          * assert (He : style_ok (Some true) e).
            { apply (style_ok_pinned lz1); [exact Hs|].
              intros b ->. destruct b; [reflexivity | contradiction]. }
            now apply He.
          * rewrite Hlz2 in Hs2. now apply Hs2.
        + intros _. destruct Hf2 as (Hl2 & _). cbn in *. lia.
      - split; [eapply follows_trans; [exact Hf|];
                eapply follows_trans; eassumption|].
        cbn [fst snd]. eapply parse_error_follows; [|exact Hr2].
        eapply follows_trans; eassumption.
      - contradiction. }
    unfold bind at 1. unfold Parser.get_is_lazy at 1. cbn [Parser.is_lazy].
    destruct lz1 as [[|]|].
    + unfold bind at 1. unfold Parser.set_is_lazy at 1.
      cbn [Parser.input Parser.is_lazy]. now apply Hlazy.
    + unfold bind at 1. unfold Parser.throw_lazy, Parser.on_input, on_field.
      cbn. split; [exact Hf|]. cbn. now left.
    + unfold bind at 1. unfold Parser.set_is_lazy at 1.
      cbn [Parser.input Parser.is_lazy]. now apply Hlazy.
Qed.

Lemma parse_operator_parsed (p : Parser.t Scan) (fuel : nat) (left : Node)
    (prec : nat) :
  length (scan_tokens (Parser.input p)) < S n ->
  Forall lexical (scan_tokens (Parser.input p)) ->
  5 * S n + 1 <= fuel ->
  constructed left -> style_ok (Parser.is_lazy p) left ->
  parsed false p (Parser.parse_operator fuel left prec p).
Proof.
  intros Hlen Hlex Hfuel Hleft Hstyle.
  destruct fuel as [|fuel]; [lia|]. rewrite parse_operator_S.
  assert (Hret : parsed false p (Return left, p)).
  { split; [apply follows_refl|]. cbn [fst snd].
    split; [exact Hleft|]. split; [exact Hstyle | discriminate]. }
  destruct p as [[[|tk toks] fault] lz].
  - unfold bind at 1. unfold Parser.is_op, bind. rewrite scan_peek_nil.
    destruct fault as [msg|]; [|exact Hret].
    split; [apply follows_refl|]. cbn. right. right. now right.
  - unfold bind at 1. rewrite is_op_cons.
    destruct (String.eqb (tok_type tk) "&" || String.eqb (tok_type tk) "|")
      eqn:Hop; [|exact Hret].
    cbv iota.
    set (here := Parser.mk (mkScan (tk :: toks) fault) lz) in *.
    set (q := Parser.mk (mkScan (tk :: toks) fault) (Some false)).
    set (after := Parser.mk (mkScan toks fault) (Some false)).
    assert (Hprec : exists next,
               Parser._precedence (tok_type tk) = Some next).
    { apply orb_true_iff in Hop as [H | H]; apply String.eqb_eq in H;
        rewrite H; eexists; reflexivity. }
    destruct Hprec as [next Hnext].
    assert (Hty : tok_type tk = "&" \/ tok_type tk = "|").
    { apply orb_true_iff in Hop as [H | H]; apply String.eqb_eq in H; auto. }
    assert (Hstrict : lz <> Some true ->
              parsed false here
                (match Parser._precedence (tok_type tk) with
                 | Some next =>
                     if (prec <? next)%nat then
                       Parser.on_input source_next ;;
                       let* operand := Parser.parse_operand fuel false in
                       let* right := Parser.parse_operator fuel operand next in
                       Parser.parse_operator fuel (Op (tok_type tk) left right)
                         prec
                     else ret left
                 | None => ret left
                 end q)).
    { intros Hlz. rewrite Hnext.
      assert (Hq : follows here q).
      { unfold follows, pinned. cbn. repeat split; auto.
        intros b ->. destruct b; [contradiction | reflexivity]. }
      assert (Hqa : follows here after).
      { eapply follows_trans; [exact Hq | apply follows_next]. }
      destruct (prec <? next)%nat.
      2:{ split; [exact Hq|]. cbn [fst snd]. split; [exact Hleft|].
          split; [|discriminate]. split; discriminate. }
      unfold bind at 1. unfold q at 1. rewrite scan_next_cons. fold after.
      assert (Hlex' : Forall lexical toks) by now inversion Hlex.
      destruct (IH after ltac:(cbn in *; lia) Hlex') as (_ & _ & IHo & _).
      pose proof (IHo fuel false ltac:(cbv iota; lia)) as H.
      unfold bind at 1.
      destruct (Parser.parse_operand fuel false after) as [[o | err |] p2];
        destruct H as [Hf2 Hr2]; cbn [fst snd] in *;
        [|split; [eapply follows_trans; eassumption | exact Hr2]
         | contradiction].
      destruct Hr2 as (Hc2 & Hs2 & Hp2). specialize (Hp2 eq_refl).
      assert (Hlen2 : length (scan_tokens (Parser.input p2)) < n)
        by (cbn in *; lia).
      assert (Hlex2 : Forall lexical (scan_tokens (Parser.input p2)))
        by (apply Hf2; exact Hlex').
      destruct (IH p2 Hlen2 Hlex2) as (_ & _ & _ & IHp).
      pose proof (IHp fuel o next ltac:(lia) Hc2 Hs2) as H.
      unfold bind at 1.
      destruct (Parser.parse_operator fuel o next p2) as [[r | err |] p3];
        destruct H as [Hf3 Hr3]; cbn [fst snd] in *.
      - destruct Hr3 as (Hc3 & Hs3 & _).
        assert (Hlen3 : length (scan_tokens (Parser.input p3)) < n)
          by (destruct Hf3 as (Hl3 & _); lia).
        assert (Hlex3 : Forall lexical (scan_tokens (Parser.input p3)))
          by (apply Hf3; exact Hlex2).
        assert (Hlz3 : Parser.is_lazy p3 = Some false).
        { destruct Hf3 as (_ & _ & _ & Hpin3).
          destruct Hf2 as (_ & _ & _ & Hpin2).
          apply Hpin3, Hpin2. reflexivity. }
        destruct (IH p3 Hlen3 Hlex3) as (_ & _ & _ & IHp3).
        assert (Hc' : constructed (Op (tok_type tk) left r))
          by (cbn; auto).
        assert (Hs' : style_ok (Parser.is_lazy p3) (Op (tok_type tk) left r))
          by (rewrite Hlz3; split; discriminate).
        pose proof (IHp3 fuel _ prec ltac:(lia) Hc' Hs') as H.
        assert (Hf13 : follows here p3).
        { eapply follows_trans; [exact Hqa|].
          eapply follows_trans; eassumption. }
        destruct (Parser.parse_operator fuel _ prec p3) as [[t | err |] p4];
          destruct H as [Hf4 Hr4]; cbn [fst snd] in *.
        + split; [eapply follows_trans; eassumption|]. cbn [fst snd].
          destruct Hr4 as (Hc4 & Hs4 & _). split; [exact Hc4|].
          split; [exact Hs4 | discriminate].
        + split; [eapply follows_trans; eassumption|]. cbn [fst snd].
          eapply parse_error_follows; eassumption.
        + contradiction.
      - split; [eapply follows_trans; [exact Hqa|];
                eapply follows_trans; eassumption|].
        cbn [fst snd]. eapply parse_error_follows; [|exact Hr3].
        eapply follows_trans; eassumption.
      - contradiction. }
    unfold bind at 1. unfold Parser.get_is_lazy at 1. cbn [Parser.is_lazy].
    destruct lz as [[|]|].
    + unfold bind at 1. unfold Parser.throw_lazy, Parser.on_input, on_field.
      cbn. split; [apply follows_refl|]. cbn. now left.
    + unfold bind at 1. unfold Parser.set_is_lazy at 1.
      cbn [Parser.input Parser.is_lazy]. now apply Hstrict.
    + unfold bind at 1. unfold Parser.set_is_lazy at 1.
      cbn [Parser.input Parser.is_lazy]. now apply Hstrict.
Qed.

Lemma parse_operand_parsed (p : Parser.t Scan) (fuel : nat) (b : bool) :
  length (scan_tokens (Parser.input p)) < S n ->
  Forall lexical (scan_tokens (Parser.input p)) ->
  5 * S n + 4 <= fuel + (if b then 0 else 1) ->
  parsed true p (Parser.parse_operand fuel b p).
Proof.
  intros Hlen Hlex Hfuel.
  destruct fuel as [|fuel]; [destruct b; lia|]. rewrite parse_operand_S.
  destruct b; [|apply lazy_operator_parsed; try assumption; lia].
  destruct fuel as [|fuel]; [lia|]. rewrite parse_operand_S.
  unfold bind at 1.
  pose proof (lazy_operator_parsed p fuel Hlen Hlex ltac:(lia)) as H.
  destruct (Parser.lazy_operator fuel p) as [[o | err |] p1];
    destruct H as [Hf Hr]; cbn [fst snd] in *;
    [|split; [exact Hf | exact Hr] | contradiction].
  destruct Hr as (Hc & Hs & Hp). specialize (Hp eq_refl).
  destruct (IH p1 ltac:(lia) ltac:(apply Hf; exact Hlex)) as (_ & _ & _ & IHp).
  pose proof (IHp (S fuel) o 0 ltac:(lia) Hc Hs) as H.
  destruct (Parser.parse_operator (S fuel) o 0 p1) as [[t | err |] p2];
    destruct H as [Hf2 Hr2]; cbn [fst snd] in *.
  - split; [eapply follows_trans; eassumption|]. cbn [fst snd].
    destruct Hr2 as (Hc2 & Hs2 & _). split; [exact Hc2|].
    split; [exact Hs2|]. intros _. destruct Hf2 as (Hl2 & _). lia.
  - split; [eapply follows_trans; eassumption|]. cbn [fst snd].
    eapply parse_error_follows; eassumption.
  - contradiction.
Qed.

End Descent.

(** With a stack depth linear in the number of tokens, the parser returns
    a tree or throws one of its errors. *)
Lemma parser_spec_all (n : nat) : parser_spec n.
Proof.
  induction n as [|n IH]; intros p Hlen Hlex; [lia|].
  split; [|split; [|split]].
  - intros fuel Hfuel. now apply (operand_expr_parsed n IH).
  - intros fuel Hfuel. now apply (lazy_operator_parsed n IH).
  - intros fuel b Hfuel. now apply (parse_operand_parsed n IH).
  - intros fuel left prec Hfuel Hc Hs. now apply (parse_operator_parsed n IH).
Qed.

(** ** The parser on every query *)

Lemma parse_error_compile (fault : option ErrorMsg) (msg : ErrorMsg) :
  lexical_fault fault -> parse_error fault msg -> compile_error msg.
Proof.
  intros Hfault [H | [H | [H | H]]].
  - now left.
  - right. now left.
  - right. right. now left.
  - right. right. right. subst fault. exact Hfault.
Qed.

(** The outcome of a parse of a query from the start, whatever the stack
    depth. *)
Lemma parse_outcome (q : string) (fuel : nat) :
  let x := Parser.parse_operand fuel true (Parser.new q) in
  (enough_stack q <= fuel -> fst x <> OutOfFuel)
  /\ match fst x with
     | Return n => constructed n /\ style_ok (Parser.is_lazy (snd x)) n
     | Throw e => compile_error (err_msg e)
     | OutOfFuel => True
     end.
Proof.
  destruct (parse_scanned q) as (sc & Hlex & Hfault & Hlen & Hrel).
  set (bound := 5 * S (length (scan_tokens sc)) + 4).
  assert (Hbound : bound <= enough_stack q)
    by (unfold bound, enough_stack; lia).
  assert (Hgood : forall f, bound <= f ->
            let x := Parser.parse_operand f true (Parser.new q) in
            fst x <> OutOfFuel
            /\ match fst x with
               | Return n =>
                   constructed n /\ style_ok (Parser.is_lazy (snd x)) n
               | Throw e => compile_error (err_msg e)
               | OutOfFuel => True
               end).
  { intros f Hf x. subst x. specialize (Hrel f).
    destruct (parser_spec_all (S (length (scan_tokens sc)))
                (Parser.mk sc None) ltac:(cbn; lia) Hlex) as (_ & _ & Hp & _).
    specialize (Hp f true ltac:(unfold bound in Hf; cbv iota; lia)).
    unfold related_outcome in Hrel.
    destruct (Parser.parse_operand f true (Parser.mk sc None))
      as [[n2 | e2 |] p2]; destruct Hp as [_ Hp]; cbn [fst snd] in *;
      destruct (Parser.parse_operand f true (Parser.new q))
      as [[n1 | e1 |] p1]; cbn [fst snd] in *; try contradiction.
    - split; [discriminate|]. destruct Hrel as [-> [_ Hlz]].
      destruct Hp as (Hc & Hs & _). rewrite Hlz. auto.
    - split; [discriminate|]. rewrite Hrel.
      eapply parse_error_compile; eassumption. }
  intros x. subst x.
  destruct (le_lt_dec bound fuel) as [Hle | Hlt].
  - destruct (Hgood fuel Hle) as [H1 H2].
    split; [intros _; exact H1 | exact H2].
  - split.
    + intros H. lia.
    + destruct (proj1 (parse_fuel_mono fuel) bound true (Parser.new q)
                  ltac:(lia)) as [H | H].
      * now rewrite H.
      * rewrite H. apply (Hgood bound). lia.
Qed.

Lemma compile_new (q : string) (fuel : nat) :
  Interpreter.compile fuel (Interpreter.new q) =
  match Parser.parse_operand fuel true (Parser.new q) with
  | (Return n, p) => (Return n, Interpreter.mk p (Some n) 1)
  | (Throw e, p) => (Throw e, Interpreter.mk p None 1)
  | (OutOfFuel, p) => (OutOfFuel, Interpreter.mk p None 1)
  end.
Proof. reflexivity. Qed.

(** X8. The parser terminates on every query: a stack depth of five
    frames per character of the query, plus nine, is enough for [compile]
    to return a tree or throw, and a deeper stack changes nothing. *)
Theorem compile_terminates (q : string) (fuel : nat) :
  enough_stack q <= fuel ->
  fst (Interpreter.compile fuel (Interpreter.new q)) <> OutOfFuel
  /\ forall fuel',
      fuel <= fuel' ->
      Interpreter.compile fuel' (Interpreter.new q) =
      Interpreter.compile fuel (Interpreter.new q).
Proof.
  intros Hfuel.
  assert (H : fst (Interpreter.compile fuel (Interpreter.new q)) <> OutOfFuel).
  { rewrite compile_new. pose proof (parse_outcome q fuel) as [H _].
    specialize (H Hfuel).
    destruct (Parser.parse_operand fuel true (Parser.new q)) as [[n | e |] p];
      cbn in *; congruence. }
  split; [exact H|]. intros fuel' Hle.
  apply fuel_le_result; [|exact H]. now apply compile_fuel_mono.
Qed.

Lemma compile_terminates_witness :
  fst (Interpreter.compile 34 (Interpreter.new "a & b")) <> OutOfFuel
  /\ forall fuel',
      34 <= fuel' ->
      Interpreter.compile fuel' (Interpreter.new "a & b") =
      Interpreter.compile 34 (Interpreter.new "a & b").
Proof. apply (compile_terminates "a & b" 34). vm_compute. lia. Defined.

(** X9. What [compile] can throw, on any query and with any stack: the
    "cannot mix" error, the missing closing parenthesis, an unexpected
    token that starts no operand (an operator, a closing parenthesis or
    the end of the query), or an unexpected character that starts no
    token.  It never fails on a token without value and never misses an
    opening parenthesis; a failed compile caches nothing. *)
Theorem compile_throws_only (q : string) (fuel : nat) (e : Error)
    (i : Interpreter.t) :
  Interpreter.compile fuel (Interpreter.new q) = (Throw e, i) ->
  compile_error (err_msg e)
  /\ err_msg e <> TypeError
  /\ err_msg e <> ExpectingPunctuation "("
  /\ Interpreter.value i = None.
Proof.
  rewrite compile_new. pose proof (parse_outcome q fuel) as [_ H].
  destruct (Parser.parse_operand fuel true (Parser.new q)) as [[n | e' |] p];
    intros [= <- <-]. cbn [fst] in H.
  split; [exact H|].
  split; [|split; [|reflexivity]];
    intros E; rewrite E in H;
    destruct H as [H | [H | [(tok & H & _) | (c & _ & H)]]]; discriminate.
Qed.

Lemma compile_throws_only_witness :
  compile_error CannotMixLazy
  /\ CannotMixLazy <> TypeError
  /\ CannotMixLazy <> ExpectingPunctuation "("
  /\ Interpreter.value
       (snd (Interpreter.compile 12 (Interpreter.new "a b & c"))) = None.
Proof.
  apply (compile_throws_only "a b & c" 12 (mkError CannotMixLazy 5)).
  vm_compute. reflexivity.
Defined.

(** X10. What [compile] can return, on any query: a tree as the
    constructors build it, every term with the tolerance of its length and
    every operator an ['&'] or an ['|'].  When the query has used no
    operator ([is_lazy] still unset) the tree has none, and when it has
    juxtaposed operands ([is_lazy] true) the tree is a pure disjunction. *)
Theorem compile_returns_only (q : string) (fuel : nat) (root : Node)
    (i : Interpreter.t) :
  Interpreter.compile fuel (Interpreter.new q) = (Return root, i) ->
  constructed root
  /\ (Parser.is_lazy (Interpreter.input i) = None -> ops root = [])
  /\ (Parser.is_lazy (Interpreter.input i) = Some true ->
      Forall (eq "|") (ops root)).
Proof.
  rewrite compile_new. pose proof (parse_outcome q fuel) as [_ H].
  destruct (Parser.parse_operand fuel true (Parser.new q)) as [[n | e' |] p];
    intros [= <- <-]. cbn [fst snd] in H.
  destruct H as [Hc [Hs1 Hs2]]. auto.
Qed.

Lemma compile_returns_only_witness :
  constructed (Op "|" (new_Term "a") (Op "|" (new_Term "b") (new_Term "c")))
  /\ (Parser.is_lazy
        (Interpreter.input
           (snd (Interpreter.compile 12 (Interpreter.new "a b c")))) = None ->
      ops (Op "|" (new_Term "a") (Op "|" (new_Term "b") (new_Term "c"))) = [])
  /\ (Parser.is_lazy
        (Interpreter.input
           (snd (Interpreter.compile 12 (Interpreter.new "a b c")))) =
      Some true ->
      Forall (eq "|")
        (ops (Op "|" (new_Term "a") (Op "|" (new_Term "b") (new_Term "c"))))).
Proof.
  apply (compile_returns_only "a b c" 12). vm_compute. reflexivity.
Defined.

(** X11. Every entry [exec] reports, on any query and subject, is a real
    match: [success] is the result of the compiled tree, and an entry at
    an offset is the first occurrence in the subject of the prefix of a
    term of the query cut by [gap] characters, [gap] being within the
    tolerance of the term and [length] the length of the prefix. *)
Theorem Interpreter_exec_sound (q s : string) (fuel : nat) (ctx : Context.t)
    (i : Interpreter.t) :
  Interpreter.exec fuel s (Interpreter.new q) = (Return ctx, i) ->
  exists root,
    Interpreter.value i = Some root
    /\ Context.success ctx = Some (matches root s)
    /\ forall k e,
        Context.lookup ctx k = Some e -> recorded_by (leaves root) s k e.
Proof.
  unfold Interpreter.exec, bind.
  destruct (Interpreter.compile fuel (Interpreter.new q))
    as [[root | err |] i'] eqn:Hcompile; try discriminate.
  pose proof (compile_caches _ _ _ _ Hcompile) as Hvalue.
  rewrite compile_new in Hcompile.
  pose proof (parse_outcome q fuel) as [_ H].
  destruct (Parser.parse_operand fuel true (Parser.new q)) as [[n | e' |] p];
    try discriminate.
  injection Hcompile as -> <-. cbn [fst] in H. destruct H as [Hc _].
  pose proof (exec_matches root s Context.new) as Hm.
  pose proof (exec_context_leaves root s Context.new) as Hl.
  destruct (exec root s Context.new) as [r c]. cbn [fst snd] in Hm, Hl.
  unfold ret. intros [= <- <-].
  exists root. split; [reflexivity|]. split; [cbn; now rewrite Hm|].
  intros k e Hlook.
  assert (Hlook' : Context.lookup c k = Some e) by exact Hlook.
  rewrite Hl in Hlook'.
  destruct (run_terms_sound (leaves root) s (constructed_tolerance root Hc)
              Context.new k e Hlook') as [Hnew | Hrec].
  - discriminate.
  - exact Hrec.
Qed.

Lemma Interpreter_exec_sound_witness :
  exists root,
    Interpreter.value
      (snd (Interpreter.exec 12 "mystring abc defg ghi jkl"
              (Interpreter.new "abc | defgh"))) = Some root
    /\ Context.success
         (Context.mk (Some (<[13%Z := mkEntry 4 1]> (<[9%Z := mkEntry 3 0]> ∅)))
            (Some true)) = Some (matches root "mystring abc defg ghi jkl")
    /\ forall k e,
        Context.lookup
          (Context.mk (Some (<[13%Z := mkEntry 4 1]> (<[9%Z := mkEntry 3 0]> ∅)))
             (Some true)) k = Some e ->
        recorded_by (leaves root) "mystring abc defg ghi jkl" k e.
Proof.
  apply (Interpreter_exec_sound "abc | defgh" "mystring abc defg ghi jkl" 12).
  vm_compute. reflexivity.
Defined.

(** ** The lexer on every text *)

(** X12. [read_next] on any stream, whatever its position and buffer: it
    only moves the cursor forward, never past the end of the text, and
    leaves the buffer alone; it yields [null] only at the end of the text;
    a token it yields is a term with a value or one of the five signs, and
    has consumed at least one character; and it throws nothing but
    "unexpected character", at the position of a character that starts no
    token, where the cursor stays. *)
Theorem read_next_total (s : TokenStream.t) :
  let x := TokenStream.read_next s in
  let text := InputStream.input (TokenStream.input s) in
  let pos := InputStream.pos (TokenStream.input s) in
  let pos' := InputStream.pos (TokenStream.input (snd x)) in
  advances s (snd x)
  /\ match fst x with
     | Return None => String.length text <= pos'
     | Return (Some tok) => lexical tok /\ pos < pos' <= String.length text
     | Throw e =>
         exists c,
           String.get pos' text = Some c
           /\ legal c = false
           /\ e = mkError (UnexpectedCharacter (String c "")) pos'
     | OutOfFuel => False
     end.
Proof.
  destruct s as [cur [p inp]]. cbn zeta.
  destruct (read_next_cases cur inp p) as (r & p' & Hnext & Hadv & Hr).
  fold (stream_at cur inp p). rewrite Hnext.
  cbn [fst snd stream_at TokenStream.input InputStream.input InputStream.pos].
  split; [exact Hadv|].
  destruct r as [[tok|] | e |]; try assumption.
  - destruct (charAt_cases inp p') as [[_ H] | (c & H & _)]; [exact H|].
    rewrite H in Hr. discriminate.
  - destruct Hr as (c & Hc & Hlegal & ->). exists c.
    split; [|split; [exact Hlegal | reflexivity]].
    unfold JS.charAt in Hc. destruct (String.get p' inp); [|discriminate].
    now injection Hc as ->.
Qed.

(** ** Lookahead *)

Lemma peek_current (s s' : TokenStream.t) (tok : Token) :
  TokenStream.peek s = (Return (Some tok), s') ->
  TokenStream.current s' = Some tok.
Proof.
  unfold TokenStream.peek.
  destruct (TokenStream.current s) as [t|] eqn:Ecur.
  - now intros [= <- <-].
  - unfold bind. destruct (TokenStream.read_next s) as [[o | e |] s1];
      try discriminate. now intros [= <- <-].
Qed.

(** X13. The lookahead buffer is transparent: after a [peek] that returned
    a token or [null], a second [peek] returns the same and changes
    nothing, [eof] tells whether it was [null], and [next] returns the
    same and empties the buffer; and [next] returns what a [peek] would
    have, leaving the stream as [peek] then [next] do. *)
Theorem lookahead_laws (s s' : TokenStream.t) (tok : option Token) :
  TokenStream.peek s = (Return tok, s') ->
  let after := TokenStream.mk None (TokenStream.input s') in
  TokenStream.peek s' = (Return tok, s')
  /\ TokenStream.eof s' = (Return (negb (JS.defined tok)), s')
  /\ TokenStream.next s' = (Return tok, after)
  /\ TokenStream.next s = (Return tok, after).
Proof.
  intros Hpeek after. pose proof (peek_stable s s' tok Hpeek) as Hagain.
  split; [exact Hagain|]. split.
  { unfold TokenStream.eof, bind, ret. rewrite Hagain. now destruct tok. }
  assert (Hnext : forall t t' : TokenStream.t,
             TokenStream.peek t = (Return tok, t') ->
             TokenStream.next t =
             (Return tok, TokenStream.mk None (TokenStream.input t'))).
  { intros t t'. unfold TokenStream.peek, TokenStream.next.
    destruct t as [[c|] i]; cbn [TokenStream.current TokenStream.input].
    - now intros [= <- <-].
    - unfold bind.
      pose proof (read_next_current (TokenStream.mk None i)) as Hc.
      destruct (TokenStream.read_next (TokenStream.mk None i))
        as [[o | e |] [c1 i1]]; try discriminate.
      cbn in Hc. subst c1. now intros [= <- <-]. }
  split; [apply (Hnext s' s' Hagain) | apply (Hnext s s' Hpeek)].
Qed.

Lemma lookahead_laws_witness :
  let s := TokenStream.new "ab & c" in
  let s' := TokenStream.mk (Some (mkToken "term" (Some "ab")))
              (InputStream.mk 2 "ab & c") in
  let after := TokenStream.mk None (InputStream.mk 2 "ab & c") in
  TokenStream.peek s' = (Return (Some (mkToken "term" (Some "ab"))), s')
  /\ TokenStream.eof s' = (Return false, s')
  /\ TokenStream.next s' = (Return (Some (mkToken "term" (Some "ab"))), after)
  /\ TokenStream.next s = (Return (Some (mkToken "term" (Some "ab"))), after).
Proof.
  apply (lookahead_laws (TokenStream.new "ab & c")). reflexivity.
Defined.

(** ** Lexing what was written *)

(** After the last token, [read_next] skips the spaces and yields
    [null]. *)
Lemma read_next_spaces_end (cur : option Token) (inp : string) (p k : nat) :
  at_pos inp p (spaces k) ->
  TokenStream.read_next (stream_at cur inp p) =
  (Return None, stream_at cur inp (p + k)).
Proof.
  intros Hpos. unfold TokenStream.read_next, TokenStream.read_while.
  unfold bind at 1.
  pose proof (at_pos_length _ _ _ Hpos) as Hlen.
  rewrite length_spaces in Hlen.
  change (InputStream.input (TokenStream.input (stream_at cur inp p)))
    with inp.
  assert (Hpos' : at_pos inp p (spaces k ++ "")) by now rewrite append_empty_r.
  rewrite (read_while_loop_run cur inp TokenStream.is_ch_whitespace
             (spaces k) _ "" p "" Hpos' (run_of_spaces k) eq_refl)
    by (rewrite length_spaces; lia).
  rewrite length_spaces.
  apply at_pos_shift in Hpos'. rewrite length_spaces in Hpos'.
  apply charAt_at_end in Hpos'.
  unfold bind, TokenStream.on_input, on_field, InputStream.eof,
    InputStream.peek, bind, ret, stream_at.
  cbn -[JS.charAt String.eqb String.append]. now rewrite Hpos'.
Qed.

(** [read_next] on a quoted term, after any number of spaces. *)
Lemma read_next_quoted (cur : option Token) (inp : string) (p n : nat)
    (w e rest : string) :
  encodes w e ->
  at_pos inp p (spaces n ++ (JS.dquote ++ e ++ JS.dquote) ++ rest) ->
  TokenStream.read_next (stream_at cur inp p) =
  (Return (Some (mkToken "term" (Some w))),
   stream_at cur inp
     (p + n + String.length (JS.dquote ++ e ++ JS.dquote))).
Proof.
  intros Henc Hpos.
  rewrite (read_next_at_char cur inp p n "034"%char
             ((e ++ JS.dquote) ++ rest) Hpos eq_refl).
  apply at_pos_shift in Hpos. rewrite length_spaces in Hpos.
  change (read_token (String "034" "")) with
    (let* tok := TokenStream.read_string in ret (Some tok)).
  unfold TokenStream.read_string, bind. rewrite read_escaped_start.
  pose proof (at_pos_length _ _ _ Hpos) as Hlen.
  rewrite append_assoc in Hpos. apply at_pos_next in Hpos.
  rewrite append_assoc in Hpos.
  rewrite (read_escaped_loop_closed cur inp w e Henc _ "" (S (p + n)) rest
             Hpos).
  - assert (Hn : S (p + n) + String.length e + 1 =
                 p + n + String.length (JS.dquote ++ e ++ JS.dquote)).
    { unfold JS.dquote. cbn [String.append String.length].
      rewrite length_append. cbn [String.length]. lia. }
    rewrite Hn. reflexivity.
  - unfold JS.dquote in Hlen. rewrite !length_append in Hlen.
    cbn [String.append String.length] in Hlen.
    rewrite ?length_append in Hlen. cbn [String.length] in Hlen. lia.
Qed.

Lemma scans_delivers (s : TokenStream.t) (toks : list Token) :
  scans s (mkScan toks None) <-> delivers s toks.
Proof.
  split; intros [fuel H]; exists fuel; revert s toks H;
    induction fuel as [|fuel IH]; intros s toks H; try discriminate;
    cbn [lex scan] in *;
    destruct (TokenStream.next s) as [[[tok|] | e |] s1]; try discriminate.
  - destruct (scan fuel s1) as [[l f]|] eqn:E; [|discriminate].
    cbn in H. injection H as <- ->. now rewrite (IH s1 l E).
  - now injection H as <-.
  - destruct (lex fuel s1) as [l|] eqn:E; [|discriminate].
    injection H as <-. now rewrite (IH s1 l E).
  - now injection H as <-.
Qed.

Lemma scans_next (s s1 : TokenStream.t) (tok : Token) (sc : Scan) :
  TokenStream.next s = (Return (Some tok), s1) ->
  scans s1 sc ->
  scans s (mkScan (tok :: scan_tokens sc) (scan_fault sc)).
Proof.
  intros Hnext [fuel Hscan]. exists (S fuel). cbn [scan].
  now rewrite Hnext, Hscan.
Qed.

(** The scan of a query written token by token begins with the tokens
    written, whatever text follows them. *)
Lemma scans_write_at (inp tail : string) (toks : list Token)
    (items : list (nat * string)) :
  Forall2 spelling toks (map snd items) ->
  apart tail items ->
  forall p sc,
    at_pos inp p (write items ++ tail) ->
    scans (stream_at None inp (p + String.length (write items))) sc ->
    scans (stream_at None inp p)
      (mkScan (toks ++ scan_tokens sc) (scan_fault sc)).
Proof.
  revert toks. induction items as [|[n text] items IH];
    intros toks Hspell Hapart p sc Hpos Hsc.
  - inversion Hspell; subst. cbn in *. rewrite Nat.add_0_r in Hsc.
    now destruct sc.
  - cbn [map snd] in Hspell.
    inversion Hspell as [|tok ? toks' ? Htok Htoks]; subst.
    destruct Hapart as [Hstop Hapart]. cbn [write] in Hpos, Hsc.
    rewrite !append_assoc in Hpos.
    assert (Hnext : TokenStream.read_next (stream_at None inp p) =
                    (Return (Some tok),
                     stream_at None inp (p + n + String.length text))).
    { inversion Htok as [tok0 Hplain | w e Henc]; subst.
      - apply (read_next_plain None inp p n tok (write items ++ tail)
                 Hplain); [|exact Hpos].
        intros Hty. apply Hstop.
        destruct Hplain; try discriminate Hty. assumption.
      - apply (read_next_quoted None inp p n w e (write items ++ tail) Henc).
        exact Hpos. }
    apply at_pos_shift in Hpos. rewrite length_spaces in Hpos.
    apply at_pos_shift in Hpos.
    rewrite !length_append, length_spaces in Hsc.
    replace (p + (n + (String.length text + String.length (write items))))
      with (p + n + String.length text + String.length (write items))
      in Hsc by lia.
    pose proof (IH toks' Htoks Hapart _ sc Hpos Hsc) as Htail.
    assert (Hnext' : TokenStream.next (stream_at None inp p) =
                     (Return (Some tok),
                      stream_at None inp (p + n + String.length text)))
      by exact Hnext.
    apply (scans_next _ _ tok _ Hnext' Htail).
Qed.

Lemma scans_write (tail : string) (toks : list Token)
    (items : list (nat * string)) :
  Forall2 spelling toks (map snd items) ->
  apart tail items ->
  exists sc,
    scans (TokenStream.new (write items ++ tail))
      (mkScan (toks ++ scan_tokens sc) (scan_fault sc))
    /\ lexical_fault (scan_fault sc).
Proof.
  intros Hspell Hapart.
  destruct (scans_total (write items ++ tail)
              (String.length (write items ++ tail))
              (0 + String.length (write items)) ltac:(lia))
    as (sc & Hsc & _ & Hfault & _).
  exists sc. split; [|exact Hfault].
  apply (scans_write_at (write items ++ tail) tail toks items Hspell Hapart
           0 sc); [|exact Hsc].
  exists "". split; reflexivity.
Qed.

Lemma delivers_write (k : nat) (toks : list Token)
    (items : list (nat * string)) :
  Forall2 spelling toks (map snd items) ->
  apart (spaces k) items ->
  delivers (TokenStream.new (write items ++ spaces k)) toks.
Proof.
  intros Hspell Hapart. apply scans_delivers.
  rewrite <- (app_nil_r toks).
  apply (scans_write_at (write items ++ spaces k) (spaces k) toks items
           Hspell Hapart 0 (mkScan [] None)).
  - exists "". split; reflexivity.
  - exists 1. cbn [scan]. unfold TokenStream.next.
    cbn [stream_at TokenStream.current TokenStream.input].
    fold (stream_at None (write items ++ spaces k)
            (0 + String.length (write items))).
    rewrite (read_next_spaces_end None _ _ k); [reflexivity|].
    exists (write items). split; reflexivity.
Qed.

(** X14. Lexing is the inverse of writing: write the tokens of a list one
    after the other, a sign by its character, a term by its word or by
    any quoted encoding of its value (any string has one), with any
    number of spaces before each and after the last, and no word running
    into the next token; the stream then yields exactly the tokens of the
    list, and then [null]. *)
Theorem lexer_round_trip (k : nat) (toks : list Token)
    (items : list (nat * string)) :
  Forall2 spelling toks (map snd items) ->
  apart (spaces k) items ->
  delivers (TokenStream.new (write items ++ spaces k)) toks
  /\ forall w, spelling (mkToken "term" (Some w))
                 (JS.dquote ++ escape w ++ JS.dquote).
Proof.
  intros Hspell Hapart. split; [now apply delivers_write|].
  intros w. constructor. apply encodes_escape.
Qed.

Lemma lexer_round_trip_witness :
  delivers
    (TokenStream.new
       (write [(1, "ab"); (0, "&"); (2, JS.dquote ++ "c d" ++ JS.dquote);
               (0, "x1")] ++ spaces 2))
    [mkToken "term" (Some "ab"); mkToken "&" None;
     mkToken "term" (Some "c d"); mkToken "term" (Some "x1")]
  /\ forall w, spelling (mkToken "term" (Some w))
                 (JS.dquote ++ escape w ++ JS.dquote).
Proof.
  apply (lexer_round_trip 2
           [mkToken "term" (Some "ab"); mkToken "&" None;
            mkToken "term" (Some "c d"); mkToken "term" (Some "x1")]
           [(1, "ab"); (0, "&"); (2, JS.dquote ++ "c d" ++ JS.dquote);
            (0, "x1")]).
  - constructor;
      [apply (spelling_plain (mkToken "term" (Some "ab"))); now constructor|].
    constructor; [apply (spelling_plain (mkToken "&" None)); constructor|].
    constructor;
      [apply (spelling_quoted "c d" "c d"); apply (encodes_escape "c d")|].
    constructor;
      [apply (spelling_plain (mkToken "term" (Some "x1"))); now constructor|].
    constructor.
  - cbn. repeat split; try discriminate; reflexivity.
Defined.

(** ** Queries with the same tokens *)

Lemma same_outcome_related {A S1 S2 S3 : Type} (R1 : S1 -> S3 -> Prop)
    (R2 : S2 -> S3 -> Prop) (x : outcome A * S1) (y : outcome A * S2)
    (z : outcome A * S3) :
  related_outcome R1 x z -> related_outcome R2 y z -> same_outcome x y.
Proof.
  unfold related_outcome, same_outcome.
  destruct (fst x), (fst y), (fst z); try contradiction; try tauto.
  - intros [-> _] [-> _]. reflexivity.
  - congruence.
Qed.

Lemma compile_same_scan (q1 q2 : string) (sc : Scan) (fuel : nat) :
  scans (TokenStream.new q1) sc ->
  scans (TokenStream.new q2) sc ->
  same_outcome (Interpreter.compile fuel (Interpreter.new q1))
    (Interpreter.compile fuel (Interpreter.new q2)).
Proof.
  intros H1 H2. rewrite !compile_new.
  assert (H : same_outcome
                (Parser.parse_operand fuel true (Parser.new q1))
                (Parser.parse_operand fuel true (Parser.new q2))).
  { eapply (same_outcome_related (related_parser scans)
              (related_parser scans) _ _
              (Parser.parse_operand fuel true (Parser.mk sc None)));
      apply (proj1 (related_descent scans scans_simulates fuel) true);
      split; (assumption || reflexivity). }
  unfold same_outcome in *.
  destruct (Parser.parse_operand fuel true (Parser.new q1)) as [[? | ? |] ?],
    (Parser.parse_operand fuel true (Parser.new q2)) as [[? | ? |] ?];
    exact H.
Qed.

(** X15. The spelling of a query does not matter, only its tokens do:
    two queries that are spellings of the same list of tokens, whatever
    the spacing and whether the terms are quoted or not, compile to the
    same tree, or both fail with the same error message, at every stack
    depth. *)
Theorem spelling_is_irrelevant (k1 k2 : nat) (toks : list Token)
    (items1 items2 : list (nat * string)) (fuel : nat) :
  Forall2 spelling toks (map snd items1) -> apart (spaces k1) items1 ->
  Forall2 spelling toks (map snd items2) -> apart (spaces k2) items2 ->
  same_outcome
    (Interpreter.compile fuel (Interpreter.new (write items1 ++ spaces k1)))
    (Interpreter.compile fuel (Interpreter.new (write items2 ++ spaces k2))).
Proof.
  intros Hs1 Ha1 Hs2 Ha2.
  apply (compile_same_scan _ _ (mkScan toks None));
    apply scans_delivers; now apply delivers_write.
Qed.

Lemma spelling_is_irrelevant_witness :
  same_outcome
    (Interpreter.compile 12
       (Interpreter.new
          (write [(0, "ab"); (1, "&"); (1, JS.dquote ++ "cd" ++ JS.dquote)]
             ++ spaces 0)))
    (Interpreter.compile 12
       (Interpreter.new
          (write [(2, JS.dquote ++ "ab" ++ JS.dquote); (0, "&"); (0, "cd")]
             ++ spaces 3))).
Proof.
  apply (spelling_is_irrelevant 0 3
           [mkToken "term" (Some "ab"); mkToken "&" None;
            mkToken "term" (Some "cd")]).
  - constructor;
      [apply (spelling_plain (mkToken "term" (Some "ab"))); now constructor|].
    constructor; [apply (spelling_plain (mkToken "&" None)); constructor|].
    constructor;
      [apply (spelling_quoted "cd" "cd"); apply (encodes_escape "cd")|].
    constructor.
  - cbn. repeat split; try discriminate; reflexivity.
  - constructor;
      [apply (spelling_quoted "ab" "ab"); apply (encodes_escape "ab")|].
    constructor; [apply (spelling_plain (mkToken "&" None)); constructor|].
    constructor;
      [apply (spelling_plain (mkToken "term" (Some "cd"))); now constructor|].
    constructor.
  - cbn. repeat split; try discriminate; reflexivity.
Defined.

(** ** Every tree is the parse of a query *)

Lemma closes_ends_scan (rest : list Token) (fault : option ErrorMsg) :
  closes rest fault -> ends_scan rest fault.
Proof. destruct rest as [|tk rest]; [auto|]. now intros ->. Qed.

(** [lazy_operator] returns its operand when the scan ends after it. *)
Lemma lazy_operator_returns (fuel : nat) (p0 : Parser.t Scan) (e : Node)
    (rest : list Token) (fault : option ErrorMsg) (lz : option bool) :
  Parser.operand_expr fuel p0 = (Return e, Parser.mk (mkScan rest fault) lz) ->
  ends_scan rest fault ->
  Parser.lazy_operator (S fuel) p0 =
  (Return e, Parser.mk (mkScan rest fault) lz).
Proof.
  intros Hexpr Hends. rewrite lazy_operator_S. unfold bind at 1.
  rewrite Hexpr. destruct rest as [|tk rest].
  - cbn in Hends. subst fault. reflexivity.
  - unfold bind at 1. rewrite scan_eof_cons. cbv iota.
    unfold bind at 1. rewrite is_op_cons.
    cbn [ends_scan ends_operand] in Hends.
    destruct (String.eqb (tok_type tk) "&" || String.eqb (tok_type tk) "|");
      [reflexivity|].
    cbn [JS.defined orb] in *. unfold bind at 1. rewrite is_punc_cons.
    cbn [JS.truthy negb orb]. now rewrite Hends.
Qed.

(** [parse_operator] returns its left operand when no operator follows. *)
Lemma parse_operator_returns (fuel : nat) (left : Node) (prec : nat)
    (rest : list Token) (fault : option ErrorMsg) (lz : option bool) :
  closes rest fault ->
  Parser.parse_operator (S fuel) left prec
    (Parser.mk (mkScan rest fault) lz) =
  (Return left, Parser.mk (mkScan rest fault) lz).
Proof.
  intros Hcloses. rewrite parse_operator_S. destruct rest as [|tk rest].
  - cbn in Hcloses. subst fault. reflexivity.
  - cbn in Hcloses. subst tk. reflexivity.
Qed.

(** A group in parentheses, once its content parses. *)
Lemma parse_group (fuel : nat) (toks rest : list Token)
    (fault : option ErrorMsg) (lz lz' : option bool) (n : Node) :
  Parser.parse_operand fuel true
    (Parser.mk (mkScan (toks ++ mkToken "punc" (Some ")") :: rest) fault) lz) =
  (Return n,
   Parser.mk (mkScan (mkToken "punc" (Some ")") :: rest) fault) lz') ->
  ends_scan rest fault ->
  Parser.parse_operand (4 + fuel) false
    (Parser.mk
       (mkScan (mkToken "punc" (Some "(") :: toks
                  ++ mkToken "punc" (Some ")") :: rest) fault) lz) =
  (Return n, Parser.mk (mkScan rest fault) lz').
Proof.
  intros Hparse Hends.
  change (4 + fuel) with (S (S (S (S fuel)))).
  rewrite parse_operand_S.
  apply lazy_operator_returns; [|exact Hends].
  rewrite operand_expr_S. unfold bind at 1. rewrite is_not_cons.
  cbn [tok_type String.eqb Ascii.eqb Bool.eqb JS.defined].
  unfold bind at 1. rewrite is_punc_cons.
  cbn [tok_type tok_value String.eqb Ascii.eqb Bool.eqb JS.defined JS.truthy
       negb orb andb].
  rewrite parse_operands_S. unfold bind at 1. rewrite skip_punc_cons.
  cbn [tok_type tok_value String.eqb Ascii.eqb Bool.eqb JS.truthy
       negb orb andb].
  unfold bind at 1. rewrite Hparse.
  unfold bind at 1. rewrite skip_punc_cons.
  cbn [tok_type tok_value String.eqb Ascii.eqb Bool.eqb JS.truthy
       negb orb andb].
  reflexivity.
Qed.

Lemma style_after_not_lazy (lz : option bool) (n : Node) :
  lz <> Some true -> style_after lz n <> Some true.
Proof. unfold style_after. destruct (ops n); [auto | discriminate]. Qed.

Lemma style_after_false (n : Node) : style_after (Some false) n = Some false.
Proof. unfold style_after. now destruct (ops n). Qed.

(** The parse of the tokens of a tree is the tree. *)
Lemma parse_tokens_of (n : Node) :
  constructed n ->
  forall fuel rest fault lz,
    stack_of n <= fuel ->
    closes rest fault ->
    lz <> Some true ->
    Parser.parse_operand fuel true
      (Parser.mk (mkScan (tokens_of n ++ rest) fault) lz) =
    (Return n, Parser.mk (mkScan rest fault) (style_after lz n)).
Proof.
  induction n as [v tol | n IH | ty l IHl r IHr];
    intros Hc fuel rest fault lz Hfuel Hcloses Hlz;
    cbn [constructed stack_of tokens_of] in *.
  - (* a term *)
    subst tol. fold (new_Term v).
    do 4 (destruct fuel as [|fuel]; [lia|]).
    rewrite parse_operand_S. unfold bind at 1. rewrite parse_operand_S.
    rewrite (lazy_operator_returns (S fuel) _ (new_Term v) rest fault lz).
    + now apply parse_operator_returns.
    + reflexivity.
    + now apply closes_ends_scan.
  - (* a negation *)
    destruct fuel as [|fuel]; [lia|].
    rewrite parse_operand_S. unfold bind at 1.
    assert (Hnot : Parser.parse_operand fuel false
                     (Parser.mk
                        (mkScan
                           ((mkToken "!" None :: mkToken "punc" (Some "(")
                               :: tokens_of n ++ [mkToken "punc" (Some ")")])
                              ++ rest) fault) lz) =
                   (Return (Not n),
                    Parser.mk (mkScan rest fault) (style_after lz n))).
    { do 4 (destruct fuel as [|fuel]; [lia|]).
      rewrite parse_operand_S.
      apply lazy_operator_returns; [|now apply closes_ends_scan].
      rewrite operand_expr_S. cbn [app]. unfold bind at 1.
      rewrite is_not_cons.
      cbn [tok_type String.eqb Ascii.eqb Bool.eqb JS.defined].
      rewrite parse_not_S. unfold bind at 1. rewrite scan_next_cons.
      rewrite <- app_assoc. cbn [app]. unfold bind.
      replace fuel with (4 + (fuel - 4)) by lia.
      rewrite (parse_group (fuel - 4) (tokens_of n) rest fault lz
                 (style_after lz n) n).
      - reflexivity.
      - apply IH; [exact Hc | lia | reflexivity | exact Hlz].
      - now apply closes_ends_scan. }
    rewrite Hnot. destruct fuel as [|fuel]; [lia|].
    now apply parse_operator_returns.
  - (* an operator *)
    destruct Hc as (Hty & Hcl & Hcr).
    destruct fuel as [|fuel]; [lia|].
    rewrite parse_operand_S. unfold bind at 1.
    cbn [app]. rewrite <- app_assoc. cbn [app].
    rewrite <- app_assoc. cbn [app].
    replace fuel with (4 + (fuel - 4)) at 1 by lia.
    rewrite (parse_group (fuel - 4) (tokens_of l) _ fault lz
               (style_after lz l) l).
    2:{ apply IHl; [exact Hcl | lia | reflexivity | exact Hlz]. }
    2:{ cbn [ends_scan ends_operand tok_type].
        destruct Hty as [-> | ->]; reflexivity. }
    destruct fuel as [|fuel]; [lia|].
    rewrite parse_operator_S. unfold bind at 1. rewrite is_op_cons.
    assert (Hop : String.eqb ty "&" || String.eqb ty "|" = true)
      by (destruct Hty as [-> | ->]; reflexivity).
    cbn [tok_type]. rewrite Hop.
    assert (Hprec : exists next, Parser._precedence ty = Some next
                                 /\ (0 <? next)%nat = true).
    { destruct Hty as [-> | ->]; eexists; split; reflexivity. }
    destruct Hprec as (next & Hprec & Hnext).
    unfold bind at 1. unfold Parser.get_is_lazy at 1. cbn [Parser.is_lazy].
    pose proof (style_after_not_lazy lz l Hlz) as Hlz1.
    cbn [tok_type].
    assert (Hrest :
              (match Parser._precedence ty with
               | Some next =>
                   if (0 <? next)%nat then
                     Parser.on_input source_next ;;
                     let* operand := Parser.parse_operand fuel false in
                     let* right := Parser.parse_operator fuel operand next in
                     Parser.parse_operator fuel (Op ty l right) 0
                   else ret l
               | None => ret l
               end)
                (Parser.mk
                   (mkScan (mkToken ty None :: mkToken "punc" (Some "(")
                              :: tokens_of r
                              ++ mkToken "punc" (Some ")") :: rest) fault)
                   (Some false)) =
              (Return (Op ty l r),
               Parser.mk (mkScan rest fault) (Some false))).
    { rewrite Hprec, Hnext.
      unfold bind at 1. rewrite scan_next_cons.
      unfold bind at 1.
      replace fuel with (4 + (fuel - 4)) at 1 by lia.
      rewrite (parse_group (fuel - 4) (tokens_of r) rest fault (Some false)
                 (Some false) r).
      2:{ rewrite <- (style_after_false r) at 2.
          apply IHr; [exact Hcr | lia | reflexivity | discriminate]. }
      2:{ now apply closes_ends_scan. }
      unfold bind at 1.
      destruct fuel as [|fuel]; [lia|].
      rewrite (parse_operator_returns fuel r next rest fault (Some false)
                 Hcloses).
      now rewrite (parse_operator_returns fuel (Op ty l r) 0 rest fault
                     (Some false) Hcloses). }
    change (style_after lz (Op ty l r)) with (Some false).
    destruct (style_after lz l) as [[|]|];
      [contradiction | exact Hrest | exact Hrest].
Qed.

Lemma token_text_not_word (tok : Token) :
  lexical tok -> is_word (token_text tok) = false.
Proof. intros []; reflexivity. Qed.

Lemma tokens_of_lexical (n : Node) :
  constructed n -> Forall lexical (tokens_of n).
Proof.
  induction n as [v tol | n IH | ty l IHl r IHr]; cbn [constructed tokens_of].
  - intros _. repeat constructor.
  - intros Hc. repeat constructor. apply Forall_app. split; [auto|].
    repeat constructor.
  - intros (Hty & Hl & Hr). constructor; [constructor|].
    apply Forall_app. split; [auto|]. constructor; [constructor|].
    constructor; [destruct Hty as [-> | ->]; constructor|].
    constructor; [constructor|]. apply Forall_app. split; [auto|].
    repeat constructor.
Qed.

Lemma spelling_token_text (tok : Token) :
  lexical tok -> spelling tok (token_text tok).
Proof.
  intros [v | | | | |].
  - apply spelling_quoted, encodes_escape.
  - apply (spelling_plain (mkToken "!" None)). constructor.
  - apply (spelling_plain (mkToken "&" None)). constructor.
  - apply (spelling_plain (mkToken "|" None)). constructor.
  - apply (spelling_plain (mkToken "punc" (Some "("))). constructor.
  - apply (spelling_plain (mkToken "punc" (Some ")"))). constructor.
Qed.

Lemma delivers_texts (toks : list Token) :
  Forall lexical toks ->
  delivers
    (TokenStream.new (write (map (fun tok => (0, token_text tok)) toks)))
    toks.
Proof.
  intros Hlex.
  assert (H : delivers
                (TokenStream.new
                   (write (map (fun tok => (0, token_text tok)) toks)
                      ++ spaces 0)) toks);
    [|cbn [spaces] in H; now rewrite append_empty_r in H].
  apply delivers_write.
  - induction Hlex as [|tok toks Htok _ IH]; cbn [map snd]; constructor.
    + now apply spelling_token_text.
    + exact IH.
  - induction Hlex as [|tok toks Htok _ IH]; cbn [map apart]; [exact I|].
    split; [|exact IH]. intros H.
    rewrite (token_text_not_word tok Htok) in H. discriminate.
Qed.

(** X16. Every tree is the parse of a query: written back with its terms
    quoted and its operands in parentheses, a tree built by the
    constructors compiles to itself, with a stack depth that grows with
    the depth of the tree. *)
Theorem unparse_round_trip (n : Node) (fuel : nat) :
  constructed n ->
  stack_of n <= fuel ->
  exists i,
    Interpreter.compile fuel (Interpreter.new (unparse n)) = (Return n, i).
Proof.
  intros Hc Hfuel.
  pose proof (proj2 (scans_delivers _ _)
                (delivers_texts (tokens_of n) (tokens_of_lexical n Hc)))
    as Hscan.
  pose proof (proj1 (related_descent scans scans_simulates fuel) true
                (Parser.new (unparse n))
                (Parser.mk (mkScan (tokens_of n) None) None)
                (conj Hscan eq_refl)) as Hrel.
  pose proof (parse_tokens_of n Hc fuel [] None None Hfuel eq_refl
                ltac:(discriminate)) as Hparse.
  rewrite app_nil_r in Hparse. rewrite Hparse in Hrel.
  apply related_Return in Hrel as (p' & Hp' & _).
  rewrite compile_new. rewrite Hp'. now eexists.
Qed.

Lemma unparse_round_trip_witness :
  exists i,
    Interpreter.compile 25
      (Interpreter.new
         (unparse (Op "&" (Not (new_Term "a b")) (new_Term "c")))) =
    (Return (Op "&" (Not (new_Term "a b")) (new_Term "c")), i).
Proof.
  apply (unparse_round_trip (Op "&" (Not (new_Term "a b")) (new_Term "c")) 25).
  - cbn. auto.
  - cbn. lia.
Defined.

(** ** Malformed queries *)

(** Compiling a query is parsing its scan. *)
Lemma compile_scan_Return (q : string) (sc : Scan) (fuel k : nat) (n : Node) :
  scans (TokenStream.new q) sc ->
  fst (Parser.parse_operand fuel true (Parser.mk sc None)) = Return n ->
  compiles_to (fuel + k) q n.
Proof.
  intros Hscan Hparse.
  pose proof (proj1 (related_descent scans scans_simulates fuel) true
                (Parser.new q) (Parser.mk sc None) (conj Hscan eq_refl))
    as Hrel.
  destruct (Parser.parse_operand fuel true (Parser.mk sc None)) as [r rest].
  cbn [fst] in Hparse. subst r.
  apply related_Return in Hrel as (p' & Hp' & _).
  eexists. apply compile_more_fuel; [|discriminate].
  rewrite compile_new, Hp'. reflexivity.
Qed.

Lemma compile_scan_Throw (q : string) (sc : Scan) (fuel k : nat) (e : Error) :
  scans (TokenStream.new q) sc ->
  fst (Parser.parse_operand fuel true (Parser.mk sc None)) = Throw e ->
  throws (fuel + k) q (err_msg e).
Proof.
  intros Hscan Hparse.
  pose proof (proj1 (related_descent scans scans_simulates fuel) true
                (Parser.new q) (Parser.mk sc None) (conj Hscan eq_refl))
    as Hrel.
  destruct (Parser.parse_operand fuel true (Parser.mk sc None)) as [r rest].
  cbn [fst] in Hparse. subst r.
  apply related_Throw in Hrel as (pos & p' & Hp').
  exists pos. eexists. apply compile_more_fuel; [|discriminate].
  rewrite compile_new, Hp'. reflexivity.
Qed.

(** At a character that starts no token, after any number of spaces,
    [read_next] throws and stays there. *)
Lemma read_next_stuck (cur : option Token) (inp : string) (p n : nat)
    (c : ascii) (x : string) :
  at_pos inp p (spaces n ++ String c x) ->
  legal c = false ->
  TokenStream.read_next (stream_at cur inp p) =
  (Throw (mkError (UnexpectedCharacter (String c "")) (p + n)),
   stream_at cur inp (p + n)).
Proof.
  intros Hpos Hlegal. unfold legal in Hlegal.
  repeat (apply orb_false_iff in Hlegal as [Hlegal ?]).
  rewrite (read_next_at_char cur inp p n c x Hpos Hlegal).
  unfold read_token.
  rewrite eqb_char_dquote.
  change "!" with (String "!"%char "") at 1. rewrite eqb_char.
  rewrite is_ch_term_char, is_ch_op_char, is_ch_punc_char.
  repeat match goal with H : _ = false |- _ => rewrite H; clear H end.
  reflexivity.
Qed.

Lemma scans_stuck (inp : string) (p n : nat) (c : ascii) (x : string) :
  at_pos inp p (spaces n ++ String c x) ->
  legal c = false ->
  scans (stream_at None inp p)
    (mkScan [] (Some (UnexpectedCharacter (String c "")))).
Proof.
  intros Hpos Hlegal. exists 1. cbn [scan]. unfold TokenStream.next.
  cbn [stream_at TokenStream.current TokenStream.input].
  fold (stream_at None inp p).
  now rewrite (read_next_stuck None inp p n c x Hpos Hlegal).
Qed.

Lemma spelling_word (a : string) :
  is_word a = true -> spelling (mkToken "term" (Some a)) a.
Proof.
  intros Ha. apply (spelling_plain (mkToken "term" (Some a))).
  now constructor.
Qed.

Lemma spelling_sign (ty : string) :
  ty = "!" \/ ty = "&" \/ ty = "|" -> spelling (mkToken ty None) ty.
Proof.
  intros [-> | [-> | ->]].
  - apply (spelling_plain (mkToken "!" None)). constructor.
  - apply (spelling_plain (mkToken "&" None)). constructor.
  - apply (spelling_plain (mkToken "|" None)). constructor.
Qed.

Lemma spelling_punc (v : string) :
  v = "(" \/ v = ")" -> spelling (mkToken "punc" (Some v)) v.
Proof.
  intros [-> | ->].
  - apply (spelling_plain (mkToken "punc" (Some "("))). constructor.
  - apply (spelling_plain (mkToken "punc" (Some ")"))). constructor.
Qed.

(** A query that ends after its tokens, written with single pieces. *)
Lemma throws_written (fuel k j : nat) (toks : list Token)
    (items : list (nat * string)) (e : Error) :
  Forall2 spelling toks (map snd items) ->
  apart (spaces j) items ->
  fst (Parser.parse_operand fuel true (Parser.mk (mkScan toks None) None)) =
    Throw e ->
  throws (fuel + k) (write items ++ spaces j) (err_msg e).
Proof.
  intros Hspell Hapart Hparse.
  apply (compile_scan_Throw _ (mkScan toks None)); [|exact Hparse].
  apply scans_delivers. now apply delivers_write.
Qed.

(** A query that fails on its first tokens, whatever follows them. *)
Lemma throws_prefix (fuel k : nat) (tail : string) (toks : list Token)
    (items : list (nat * string)) (msg : ErrorMsg) :
  Forall2 spelling toks (map snd items) ->
  apart tail items ->
  (forall rest fault,
      fst (Parser.parse_operand fuel true
             (Parser.mk (mkScan (toks ++ rest) fault) None)) =
      Throw (mkError msg 0)) ->
  throws (fuel + k) (write items ++ tail) msg.
Proof.
  intros Hspell Hapart Hparse.
  destruct (scans_write tail toks items Hspell Hapart) as (sc & Hscan & _).
  apply (compile_scan_Throw _ _ fuel k (mkError msg 0) Hscan).
  apply Hparse.
Qed.

(** X17. Malformed queries are rejected, for every word [a], every
    character [c] that starts no token and any spacing at the end: the
    empty query, a query that ends after an operator or a ['!'], and an
    empty pair of parentheses fail on an unexpected token, as does a query
    that begins with an operator or a closing parenthesis, whatever
    follows; a parenthesis left open fails on the missing [')']; and a
    query fails on [c] when the parser gets to it. *)
Theorem malformed_queries (a : string) (c : ascii) (tail : string)
    (k fuel : nat) :
  is_word a = true ->
  legal c = false ->
  throws (12 + fuel) (spaces k) (UnexpectedToken None)
  /\ throws (12 + fuel) (a ++ " &" ++ spaces k) (UnexpectedToken None)
  /\ throws (12 + fuel) (a ++ " |" ++ spaces k) (UnexpectedToken None)
  /\ throws (12 + fuel) ("!" ++ spaces k) (UnexpectedToken None)
  /\ throws (12 + fuel) ("&" ++ tail)
       (UnexpectedToken (Some (mkToken "&" None)))
  /\ throws (12 + fuel) ("|" ++ tail)
       (UnexpectedToken (Some (mkToken "|" None)))
  /\ throws (12 + fuel) (")" ++ tail)
       (UnexpectedToken (Some (mkToken "punc" (Some ")"))))
  /\ throws (12 + fuel) ("()" ++ tail)
       (UnexpectedToken (Some (mkToken "punc" (Some ")"))))
  /\ throws (12 + fuel) ("(" ++ a ++ spaces k) (ExpectingPunctuation ")")
  /\ throws (12 + fuel) (a ++ " " ++ String c tail)
       (UnexpectedCharacter (String c "")).
Proof.
  intros Ha Hc.
  pose proof (spelling_word a Ha) as Hword.
  assert (Hsp : forall j, stops TokenStream.is_ch_term (spaces j) = true)
    by (intros [|j]; reflexivity).
  split; [|split; [|split; [|split; [|split; [|split; [|split; [|split;
    [|split]]]]]]]].
  - apply (throws_written 12 fuel k [] [] (mkError (UnexpectedToken None) 0));
      [constructor | exact I | reflexivity].
  - replace (a ++ " &" ++ spaces k)
      with (write [(0, a); (1, "&")] ++ spaces k)
      by (cbn; now rewrite !append_assoc).
    apply (throws_written 12 fuel k
             [mkToken "term" (Some a); mkToken "&" None] _
             (mkError (UnexpectedToken None) 0)).
    + repeat (constructor; [first [exact Hword | apply spelling_sign; auto]|]).
      constructor.
    + cbn. repeat split; auto.
    + vm_compute. reflexivity.
  - replace (a ++ " |" ++ spaces k)
      with (write [(0, a); (1, "|")] ++ spaces k)
      by (cbn; now rewrite !append_assoc).
    apply (throws_written 12 fuel k
             [mkToken "term" (Some a); mkToken "|" None] _
             (mkError (UnexpectedToken None) 0)).
    + repeat (constructor; [first [exact Hword | apply spelling_sign; auto]|]).
      constructor.
    + cbn. repeat split; auto.
    + vm_compute. reflexivity.
  - apply (throws_written 12 fuel k [mkToken "!" None] [(0, "!")]
             (mkError (UnexpectedToken None) 0)).
    + constructor; [apply spelling_sign; auto | constructor].
    + cbn. repeat split; auto.
    + vm_compute. reflexivity.
  - apply (throws_prefix 12 fuel tail [mkToken "&" None] [(0, "&")]).
    + constructor; [apply spelling_sign; auto | constructor].
    + cbn. split; [discriminate | exact I].
    + intros rest fault. vm_compute. reflexivity.
  - apply (throws_prefix 12 fuel tail [mkToken "|" None] [(0, "|")]).
    + constructor; [apply spelling_sign; auto | constructor].
    + cbn. split; [discriminate | exact I].
    + intros rest fault. vm_compute. reflexivity.
  - apply (throws_prefix 12 fuel tail [mkToken "punc" (Some ")")] [(0, ")")]).
    + constructor; [apply spelling_punc; auto | constructor].
    + cbn. split; [discriminate | exact I].
    + intros rest fault. vm_compute. reflexivity.
  - apply (throws_prefix 12 fuel tail
             [mkToken "punc" (Some "("); mkToken "punc" (Some ")")]
             [(0, "("); (0, ")")]).
    + repeat (constructor; [apply spelling_punc; auto|]). constructor.
    + cbn. repeat split; discriminate.
    + intros rest fault. vm_compute. reflexivity.
  - replace ("(" ++ a ++ spaces k)
      with (write [(0, "("); (0, a)] ++ spaces k)
      by (cbn; now rewrite !append_assoc).
    apply (throws_written 12 fuel k
             [mkToken "punc" (Some "("); mkToken "term" (Some a)] _
             (mkError (ExpectingPunctuation ")") 0)).
    + constructor; [apply spelling_punc; auto|].
      constructor; [exact Hword | constructor].
    + cbn. repeat split; auto. discriminate.
    + vm_compute. reflexivity.
  - apply (compile_scan_Throw _
             (mkScan [mkToken "term" (Some a)]
                (Some (UnexpectedCharacter (String c ""))))
             12 fuel (mkError (UnexpectedCharacter (String c "")) 0)).
    + change (mkScan [mkToken "term" (Some a)]
                (Some (UnexpectedCharacter (String c ""))))
        with (mkScan
                ([mkToken "term" (Some a)]
                   ++ scan_tokens
                        (mkScan [] (Some (UnexpectedCharacter (String c "")))))
                (scan_fault
                   (mkScan [] (Some (UnexpectedCharacter (String c "")))))).
      replace (a ++ " " ++ String c tail)
        with (write [(0, a)] ++ " " ++ String c tail)
        by (cbn; now rewrite !append_assoc).
      apply (scans_write_at _ (" " ++ String c tail)
               [mkToken "term" (Some a)] [(0, a)]).
      * constructor; [exact Hword | constructor].
      * cbn. split; [reflexivity | exact I].
      * exists "". split; reflexivity.
      * apply (scans_stuck _ _ 1 c tail); [|exact Hc].
        exists (write [(0, a)]). split; [reflexivity|]. cbn. lia.
    + vm_compute. reflexivity.
Qed.

Lemma malformed_queries_witness :
  throws 12 "  " (UnexpectedToken None)
  /\ throws 12 "ab & " (UnexpectedToken None)
  /\ throws 12 "& #" (UnexpectedToken (Some (mkToken "&" None)))
  /\ throws 12 "(ab" (ExpectingPunctuation ")")
  /\ throws 12 "ab #c" (UnexpectedCharacter "#").
Proof.
  destruct (malformed_queries "ab" "#" " #" 0 0 eq_refl eq_refl)
    as (_ & H2 & _ & _ & H5 & _ & _ & _ & H9 & _).
  destruct (malformed_queries "ab" "#" "c" 1 0 eq_refl eq_refl)
    as (_ & H2' & _ & _ & _ & _ & _ & _ & _ & H10).
  destruct (malformed_queries "ab" "#" "c" 2 0 eq_refl eq_refl)
    as (H1 & _).
  split; [exact H1|]. split; [exact H2'|]. split; [exact H5|].
  split; [exact H9 | exact H10].
Defined.

(** ** An unmatched closing parenthesis *)

Lemma write_app (xs ys : list (nat * string)) :
  write (xs ++ ys) = write xs ++ write ys.
Proof.
  induction xs as [|[n text] xs IH]; cbn [app write]; [reflexivity|].
  now rewrite IH, !append_assoc.
Qed.

Lemma spelling_texts (toks : list Token) :
  Forall lexical toks ->
  Forall2 spelling toks
    (map snd (map (fun tok => (0, token_text tok)) toks)).
Proof.
  induction 1 as [|tok toks Htok _ IH]; cbn [map snd]; constructor.
  - now apply spelling_token_text.
  - exact IH.
Qed.

Lemma apart_texts (tail : string) (toks : list Token) :
  Forall lexical toks ->
  apart tail (map (fun tok => (0, token_text tok)) toks).
Proof.
  induction 1 as [|tok toks Htok _ IH]; cbn [map apart]; [exact I|].
  split; [|exact IH]. intros H.
  rewrite (token_text_not_word tok Htok) in H. discriminate.
Qed.

(** X18. An unmatched closing parenthesis ends the query: whatever text
    follows it, tokens or not, is ignored without an error.  For every
    tree, its query followed by [')'] and any text compiles to the tree;
    so does a word followed by [')'] and any text, to the term of the
    word. *)
Theorem unmatched_close_ends_query (n : Node) (a tail : string)
    (fuel : nat) :
  constructed n ->
  is_word a = true ->
  stack_of n <= fuel ->
  compiles_to fuel (unparse n ++ ")" ++ tail) n
  /\ compiles_to (4 + fuel) (a ++ ")" ++ tail) (new_Term a).
Proof.
  intros Hc Ha Hfuel.
  pose (close := mkToken "punc" (Some ")")).
  assert (Hclose : lexical close) by constructor.
  split.
  - assert (Hlex : Forall lexical (tokens_of n ++ [close])).
    { apply Forall_app. split; [now apply tokens_of_lexical|].
      now constructor. }
    destruct (scans_write tail (tokens_of n ++ [close])
                (map (fun tok => (0, token_text tok))
                   (tokens_of n ++ [close]))
                (spelling_texts _ Hlex) (apart_texts tail _ Hlex))
      as (sc & Hscan & _).
    rewrite map_app, write_app in Hscan. cbn [map write] in Hscan.
    rewrite append_empty_r in Hscan.
    change (token_text close) with ")" in Hscan.
    fold (unparse n) in Hscan.
    rewrite append_assoc in Hscan. cbn [spaces String.append] in Hscan.
    rewrite <- (Nat.add_0_r fuel).
    apply (compile_scan_Return _ _ fuel 0 n Hscan).
    rewrite <- app_assoc.
    rewrite (parse_tokens_of n Hc fuel _ _ None Hfuel);
      [reflexivity | reflexivity | discriminate].
  - destruct (scans_write tail [mkToken "term" (Some a); close]
                [(0, a); (0, ")")]) as (sc & Hscan & _).
    + constructor; [now apply spelling_word|].
      constructor; [apply spelling_punc; auto | constructor].
    + cbn. repeat split; auto. discriminate.
    + cbn [write spaces String.append] in Hscan.
      rewrite ?append_empty_r, ?append_assoc in Hscan.
      replace (4 + fuel) with (4 + fuel + 0) by lia.
      apply (compile_scan_Return _ _ (4 + fuel) 0 (new_Term a) Hscan).
      reflexivity.
Qed.

Lemma unmatched_close_ends_query_witness :
  compiles_to 10
    (unparse (Op "&" (new_Term "a") (new_Term "b")) ++ ")" ++ " # & (")
    (Op "&" (new_Term "a") (new_Term "b"))
  /\ compiles_to 14 ("ab" ++ ")" ++ " # & (") (new_Term "ab").
Proof.
  apply (unmatched_close_ends_query (Op "&" (new_Term "a") (new_Term "b"))
           "ab" " # & (" 10).
  - cbn. auto.
  - reflexivity.
  - cbn. lia.
Defined.

(** ** Flat queries: any number of operands *)

Lemma ends_and_ends_scan (rest : list Token) (fault : option ErrorMsg) :
  ends_and rest fault -> ends_scan rest fault.
Proof. destruct rest as [|tk rest]; [auto|]. now intros [-> | ->]. Qed.

Lemma closes_ends_and (rest : list Token) (fault : option ErrorMsg) :
  closes rest fault -> ends_and rest fault.
Proof. destruct rest as [|tk rest]; [auto|]. intros ->. now right. Qed.

Lemma ends_scan_and_chain (ws : list string) (rest : list Token)
    (fault : option ErrorMsg) :
  ends_scan rest fault -> ends_scan (and_chain ws ++ rest) fault.
Proof. destruct ws; [auto | reflexivity]. Qed.

Lemma ends_and_or_chain (gs : list Group) (rest : list Token)
    (fault : option ErrorMsg) :
  closes rest fault -> ends_and (or_chain gs ++ rest) fault.
Proof.
  destruct gs; [apply closes_ends_and | intros _; now left].
Qed.

(** A term, when the scan lets [lazy_operator] return after it. *)
Lemma parse_term_operand (fuel : nat) (w : string) (rest : list Token)
    (fault : option ErrorMsg) (lz : option bool) :
  ends_scan rest fault ->
  Parser.parse_operand (3 + fuel) false
    (Parser.mk (mkScan (mkToken "term" (Some w) :: rest) fault) lz) =
  (Return (new_Term w), Parser.mk (mkScan rest fault) lz).
Proof.
  intros Hends. change (3 + fuel) with (S (S (S fuel))).
  rewrite parse_operand_S. now apply lazy_operator_returns.
Qed.

(** At precedence 2 no operator is taken. *)
Lemma parse_operator_top (fuel : nat) (left : Node) (rest : list Token)
    (fault : option ErrorMsg) :
  ends_scan rest fault ->
  Parser.parse_operator (S fuel) left 2
    (Parser.mk (mkScan rest fault) (Some false)) =
  (Return left, Parser.mk (mkScan rest fault) (Some false)).
Proof.
  intros Hends. rewrite parse_operator_S. destruct rest as [|tk rest].
  - cbn in Hends. subst fault. reflexivity.
  - unfold bind at 1. rewrite is_op_cons.
    destruct (String.eqb (tok_type tk) "&") eqn:Hand.
    + apply String.eqb_eq in Hand. cbn [orb]. cbv iota.
      unfold bind. cbn. rewrite Hand. reflexivity.
    + destruct (String.eqb (tok_type tk) "|") eqn:Hor; [|reflexivity].
      apply String.eqb_eq in Hor. cbn [orb]. cbv iota.
      unfold bind. cbn. rewrite Hor. reflexivity.
Qed.

(** At precedence 1 the ['&'] that follow are taken, nesting to the
    left. *)
Lemma parse_and_chain (ws : list string) :
  forall fuel left rest fault,
    length (and_chain ws) + 4 <= fuel ->
    ends_and rest fault ->
    Parser.parse_operator fuel left 1
      (Parser.mk (mkScan (and_chain ws ++ rest) fault) (Some false)) =
    (Return (and_tree left ws), Parser.mk (mkScan rest fault) (Some false)).
Proof.
  induction ws as [|w ws IH]; intros fuel left rest fault Hfuel Hends;
    cbn [and_chain app length] in *.
  - destruct fuel as [|fuel]; [lia|]. rewrite parse_operator_S.
    destruct rest as [|tk rest].
    + cbn in Hends. subst fault. reflexivity.
    + destruct Hends as [-> | ->]; reflexivity.
  - destruct fuel as [|fuel]; [lia|]. rewrite parse_operator_S.
    unfold bind at 1. rewrite is_op_cons.
    cbn [tok_type String.eqb Ascii.eqb Bool.eqb orb]. cbv iota.
    unfold bind at 1. unfold Parser.get_is_lazy at 1. cbn [Parser.is_lazy].
    unfold bind at 1. unfold Parser.set_is_lazy at 1.
    cbn [Parser.input Parser.is_lazy].
    change (Parser._precedence "&") with (Some 2). cbv beta iota.
    change (Nat.ltb 1 2) with true. cbv beta iota.
    unfold bind at 1. rewrite scan_next_cons.
    unfold bind at 1.
    replace fuel with (3 + (fuel - 3)) at 1 by lia.
    rewrite parse_term_operand
      by (apply ends_scan_and_chain; now apply ends_and_ends_scan).
    unfold bind at 1.
    destruct fuel as [|fuel]; [lia|].
    rewrite parse_operator_top
      by (apply ends_scan_and_chain; now apply ends_and_ends_scan).
    apply IH; [lia | exact Hends].
Qed.

(** At precedence 0 every group that follows an ['|'] is taken whole. *)
Lemma parse_or_chain (gs : list Group) :
  forall fuel left rest fault lz,
    length (or_chain gs) + 5 <= fuel ->
    closes rest fault ->
    lz <> Some true ->
    Parser.parse_operator fuel left 0
      (Parser.mk (mkScan (or_chain gs ++ rest) fault) lz) =
    (Return (or_tree left gs),
     Parser.mk (mkScan rest fault)
       (match gs with [] => lz | _ :: _ => Some false end)).
Proof.
  induction gs as [|g gs IH]; intros fuel left rest fault lz Hfuel Hcloses Hlz;
    cbn [or_chain app length] in *.
  - destruct fuel as [|fuel]; [lia|]. now apply parse_operator_returns.
  - destruct fuel as [|fuel]; [lia|]. rewrite parse_operator_S.
    unfold bind at 1. rewrite is_op_cons.
    cbn [tok_type String.eqb Ascii.eqb Bool.eqb orb]. cbv iota.
    rewrite <- app_assoc. rewrite length_app in Hfuel.
    assert (Hrest :
              (match Parser._precedence "|" with
               | Some next =>
                   if (0 <? next)%nat then
                     Parser.on_input source_next ;;
                     let* operand := Parser.parse_operand fuel false in
                     let* right := Parser.parse_operator fuel operand next in
                     Parser.parse_operator fuel (Op "|" left right) 0
                   else ret left
               | None => ret left
               end)
                (Parser.mk
                   (mkScan (mkToken "|" None :: mkToken "term" (Some (fst g))
                              :: and_chain (snd g) ++ or_chain gs ++ rest)
                      fault) (Some false)) =
              (Return (or_tree left (g :: gs)),
               Parser.mk (mkScan rest fault) (Some false))).
    { change (Parser._precedence "|") with (Some 1). cbv beta iota.
      change (Nat.ltb 0 1) with true. cbv beta iota.
      unfold bind at 1. rewrite scan_next_cons.
      unfold bind at 1.
      replace fuel with (3 + (fuel - 3)) at 1 by lia.
      rewrite parse_term_operand
        by (apply ends_scan_and_chain, ends_and_ends_scan;
            now apply ends_and_or_chain).
      unfold bind at 1.
      rewrite parse_and_chain; [|lia | now apply ends_and_or_chain].
      rewrite (IH fuel _ rest fault (Some false)); [|lia | exact Hcloses
                                                     | discriminate].
      cbn [or_tree fold_left]. now destruct gs. }
    unfold bind at 1. unfold Parser.get_is_lazy at 1. cbn [Parser.is_lazy].
    destruct lz as [[|]|]; [contradiction | exact Hrest | exact Hrest].
Qed.

(** At precedence 0 the ['&'] that follow are taken first. *)
Lemma parse_dnf_chain (ws : list string) (gs : list Group) :
  forall fuel left rest fault lz,
    length (and_chain ws ++ or_chain gs)%list + 5 <= fuel ->
    closes rest fault ->
    lz <> Some true ->
    Parser.parse_operator fuel left 0
      (Parser.mk (mkScan (and_chain ws ++ or_chain gs ++ rest) fault) lz) =
    (Return (or_tree (and_tree left ws) gs),
     Parser.mk (mkScan rest fault)
       (match (and_chain ws ++ or_chain gs)%list with
        | [] => lz
        | _ :: _ => Some false
        end)).
Proof.
  induction ws as [|w ws IH]; intros fuel left rest fault lz Hfuel Hcloses Hlz;
    cbn [and_chain app length] in *.
  - rewrite (parse_or_chain gs fuel left rest fault lz Hfuel Hcloses Hlz).
    now destruct gs.
  - destruct fuel as [|fuel]; [lia|]. rewrite parse_operator_S.
    unfold bind at 1. rewrite is_op_cons.
    cbn [tok_type String.eqb Ascii.eqb Bool.eqb orb]. cbv iota.
    assert (Hends : ends_scan (and_chain ws ++ or_chain gs ++ rest) fault).
    { apply ends_scan_and_chain, ends_and_ends_scan.
      now apply ends_and_or_chain. }
    assert (Hrest :
              (match Parser._precedence "&" with
               | Some next =>
                   if (0 <? next)%nat then
                     Parser.on_input source_next ;;
                     let* operand := Parser.parse_operand fuel false in
                     let* right := Parser.parse_operator fuel operand next in
                     Parser.parse_operator fuel (Op "&" left right) 0
                   else ret left
               | None => ret left
               end)
                (Parser.mk
                   (mkScan (mkToken "&" None :: mkToken "term" (Some w)
                              :: and_chain ws ++ or_chain gs ++ rest)
                      fault) (Some false)) =
              (Return (or_tree (and_tree left (w :: ws)) gs),
               Parser.mk (mkScan rest fault) (Some false))).
    { change (Parser._precedence "&") with (Some 2). cbv beta iota.
      change (Nat.ltb 0 2) with true. cbv beta iota.
      unfold bind at 1. rewrite scan_next_cons.
      unfold bind at 1.
      replace fuel with (3 + (fuel - 3)) at 1 by lia.
      rewrite parse_term_operand by exact Hends.
      unfold bind at 1.
      destruct fuel as [|fuel]; [lia|].
      rewrite parse_operator_top by exact Hends.
      rewrite (IH (S fuel) _ rest fault (Some false)); [|lia | exact Hcloses
                                                         | discriminate].
      cbn [and_tree fold_left].
      now destruct (and_chain ws ++ or_chain gs)%list. }
    unfold bind at 1. unfold Parser.get_is_lazy at 1. cbn [Parser.is_lazy].
    destruct lz as [[|]|]; [contradiction | exact Hrest | exact Hrest].
Qed.

Lemma parse_dnf_tokens (g : Group) (gs : list Group) (fuel : nat) :
  length (dnf_tokens g gs) + 6 <= fuel ->
  fst (Parser.parse_operand fuel true
         (Parser.mk (mkScan (dnf_tokens g gs) None) None)) =
  Return (dnf g gs).
Proof.
  intros Hfuel. unfold dnf_tokens in *. cbn [length] in Hfuel.
  destruct fuel as [|fuel]; [lia|]. rewrite parse_operand_S.
  unfold bind at 1.
  replace fuel with (3 + (fuel - 3)) at 1 by lia.
  assert (Hcloses : closes [] None) by reflexivity.
  rewrite parse_term_operand.
  2:{ rewrite <- (app_nil_r (or_chain gs)).
      apply ends_scan_and_chain, ends_and_ends_scan.
      now apply ends_and_or_chain. }
  pose proof (parse_dnf_chain (snd g) gs fuel (new_Term (fst g)) [] None None
                ltac:(lia) Hcloses ltac:(discriminate)) as H.
  rewrite app_nil_r in H. now rewrite H.
Qed.

Lemma matches_and_tree (left : Node) (ws : list string) (s : string) :
  matches (and_tree left ws) s =
  matches left s && forallb (fun w => matches (new_Term w) s) ws.
Proof.
  revert left. induction ws as [|w ws IH]; intros left;
    cbn [and_tree fold_left].
  - cbn. now rewrite andb_true_r.
  - fold (and_tree (Op "&" left (new_Term w)) ws). rewrite IH.
    unfold matches at 1. rewrite Op_and_matches. cbn [forallb].
    now rewrite andb_assoc.
Qed.

Lemma matches_or_tree (left : Node) (gs : list Group) (s : string) :
  matches (or_tree left gs) s =
  matches left s || existsb (fun g => matches (group_tree g) s) gs.
Proof.
  revert left. induction gs as [|g gs IH]; intros left; cbn [or_tree fold_left].
  - cbn. now rewrite orb_false_r.
  - fold (or_tree (Op "|" left (group_tree g)) gs). rewrite IH.
    unfold matches at 1. rewrite Op_or_matches. cbn [existsb].
    now rewrite orb_assoc.
Qed.

(** X19. A query of terms joined by explicit operators, however many, is
    parsed as a disjunction of conjunctions: the terms between two ['|']
    form a conjunction nested to the left, and the conjunctions a
    disjunction nested to the left, whatever the spelling of the tokens.
    It matches a subject exactly when, in one of the groups, every term
    matches. *)
Theorem explicit_query_is_dnf (g : Group) (gs : list Group)
    (items : list (nat * string)) (k fuel : nat) :
  Forall2 spelling (dnf_tokens g gs) (map snd items) ->
  apart (spaces k) items ->
  length (dnf_tokens g gs) + 6 <= fuel ->
  compiles_to fuel (write items ++ spaces k) (dnf g gs)
  /\ forall s,
      matches (dnf g gs) s =
      existsb
        (fun g' => forallb (fun w => matches (new_Term w) s)
                     (fst g' :: snd g'))
        (g :: gs).
Proof.
  intros Hspell Hapart Hfuel. split.
  - rewrite <- (Nat.add_0_r fuel).
    apply (compile_scan_Return _ (mkScan (dnf_tokens g gs) None) fuel 0).
    + apply scans_delivers. now apply delivers_write.
    + now apply parse_dnf_tokens.
  - clear Hspell Hapart Hfuel.
    intros s. unfold dnf. rewrite matches_or_tree. cbn [existsb].
    assert (Hg : forall g' : Group,
               matches (group_tree g') s =
               forallb (fun w => matches (new_Term w) s) (fst g' :: snd g')).
    { intros g'. unfold group_tree. now rewrite matches_and_tree. }
    rewrite Hg. f_equal. induction gs as [|g' gs' IH]; [reflexivity|].
    cbn [existsb]. rewrite Hg. f_equal. exact IH.
Qed.

Lemma explicit_query_is_dnf_witness :
  compiles_to 15
    (write [(0, "a"); (1, "&"); (1, "b"); (1, "|"); (1, "c"); (1, "&");
            (1, "d"); (1, "&"); (1, "e")] ++ spaces 0)
    (dnf ("a", ["b"]) [("c", ["d"; "e"])])
  /\ forall s,
      matches (dnf ("a", ["b"]) [("c", ["d"; "e"])]) s =
      existsb
        (fun g' => forallb (fun w => matches (new_Term w) s)
                     (fst g' :: snd g'))
        [("a", ["b"]); ("c", ["d"; "e"])].
Proof.
  apply (explicit_query_is_dnf ("a", ["b"]) [("c", ["d"; "e"])]).
  - repeat (constructor;
            [first [ apply spelling_word; reflexivity
                   | apply spelling_sign; auto ]|]).
    constructor.
  - cbn. repeat split; try discriminate; reflexivity.
  - cbn. lia.
Defined.

(** Juxtaposed terms nest to the right. *)
Lemma parse_lazy_terms (ws : list string) :
  forall w fuel rest fault lz,
    3 * length ws + 5 <= fuel ->
    closes rest fault ->
    lz <> Some false ->
    Parser.parse_operand fuel true
      (Parser.mk
         (mkScan (mkToken "term" (Some w) :: term_tokens ws ++ rest) fault)
         lz) =
    (Return (lazy_tree w ws),
     Parser.mk (mkScan rest fault)
       (match ws with [] => lz | _ :: _ => Some true end)).
Proof.
  induction ws as [|w' ws IH]; intros w fuel rest fault lz Hfuel Hcloses Hlz;
    cbn [term_tokens map app length lazy_tree] in *.
  - destruct fuel as [|fuel]; [lia|]. rewrite parse_operand_S.
    unfold bind at 1. replace fuel with (3 + (fuel - 3)) at 1 by lia.
    rewrite parse_term_operand by now apply closes_ends_scan.
    destruct fuel as [|fuel]; [lia|]. now apply parse_operator_returns.
  - fold (term_tokens ws) in *.
    do 3 (destruct fuel as [|fuel]; [lia|]).
    rewrite parse_operand_S. unfold bind at 1.
    rewrite parse_operand_S, lazy_operator_S.
    unfold bind at 1.
    assert (Hexpr : Parser.operand_expr fuel
                      (Parser.mk
                         (mkScan (mkToken "term" (Some w)
                                    :: mkToken "term" (Some w')
                                    :: term_tokens ws ++ rest) fault) lz) =
                    (Return (new_Term w),
                     Parser.mk
                       (mkScan (mkToken "term" (Some w')
                                  :: term_tokens ws ++ rest) fault) lz)).
    { destruct fuel as [|fuel]; [lia | reflexivity]. }
    rewrite Hexpr.
    unfold bind at 1. rewrite scan_eof_cons. cbv beta iota.
    unfold bind at 1. rewrite is_op_cons.
    cbn [tok_type String.eqb Ascii.eqb Bool.eqb orb JS.defined].
    unfold bind at 1. rewrite is_punc_cons.
    cbn [tok_type String.eqb Ascii.eqb Bool.eqb andb JS.defined].
    assert (Hrest :
              (let* right := Parser.parse_operand fuel true in
               ret (Op "|" (new_Term w) right))
                (Parser.mk
                   (mkScan (mkToken "term" (Some w')
                              :: term_tokens ws ++ rest) fault) (Some true)) =
              (Return (Op "|" (new_Term w) (lazy_tree w' ws)),
               Parser.mk (mkScan rest fault) (Some true))).
    { unfold bind.
      rewrite (IH w' fuel rest fault (Some true)); [|lia | exact Hcloses
                                                     | discriminate].
      now destruct ws. }
    assert (Hlazy : (let* lz0 := Parser.get_is_lazy in
                     (match lz0 with
                      | Some false => Parser.throw_lazy
                      | _ => Parser.set_is_lazy true
                      end) ;;
                     let* right := Parser.parse_operand fuel true in
                     ret (Op "|" (new_Term w) right))
                      (Parser.mk
                         (mkScan (mkToken "term" (Some w')
                                    :: term_tokens ws ++ rest) fault) lz) =
                    (Return (Op "|" (new_Term w) (lazy_tree w' ws)),
                     Parser.mk (mkScan rest fault) (Some true))).
    { unfold bind at 1. unfold Parser.get_is_lazy at 1. cbn [Parser.is_lazy].
      destruct lz as [[|]|]; [exact Hrest | contradiction | exact Hrest]. }
    rewrite Hlazy. now apply parse_operator_returns.
Qed.

Lemma matches_lazy_tree (w : string) (ws : list string) (s : string) :
  matches (lazy_tree w ws) s =
  existsb (fun w' => matches (new_Term w') s) (w :: ws).
Proof.
  revert w. induction ws as [|w' ws IH]; intros w; cbn [lazy_tree existsb].
  - now rewrite orb_false_r.
  - unfold matches at 1. rewrite Op_or_matches. now rewrite IH.
Qed.

(** X20. A query of juxtaposed terms, however many and however spelled,
    is parsed as their disjunction, nested to the right; it matches a
    subject exactly when one of the terms does. *)
Theorem lazy_query_is_disjunction (w : string) (ws : list string)
    (items : list (nat * string)) (k fuel : nat) :
  Forall2 spelling (term_tokens (w :: ws)) (map snd items) ->
  apart (spaces k) items ->
  3 * length ws + 5 <= fuel ->
  compiles_to fuel (write items ++ spaces k) (lazy_tree w ws)
  /\ forall s,
      matches (lazy_tree w ws) s =
      existsb (fun w' => matches (new_Term w') s) (w :: ws).
Proof.
  intros Hspell Hapart Hfuel. split; [|intros s; apply matches_lazy_tree].
  rewrite <- (Nat.add_0_r fuel).
  apply (compile_scan_Return _ (mkScan (term_tokens (w :: ws)) None) fuel 0).
  - apply scans_delivers. now apply delivers_write.
  - pose proof (parse_lazy_terms ws w fuel [] None None Hfuel eq_refl
                  ltac:(discriminate)) as H.
    rewrite app_nil_r in H. cbn [term_tokens map]. fold (term_tokens ws).
    now rewrite H.
Qed.

Lemma lazy_query_is_disjunction_witness :
  compiles_to 11
    (write [(0, "ab"); (1, JS.dquote ++ "c d" ++ JS.dquote); (2, "ef")]
       ++ spaces 1)
    (lazy_tree "ab" ["c d"; "ef"])
  /\ forall s,
      matches (lazy_tree "ab" ["c d"; "ef"]) s =
      existsb (fun w' => matches (new_Term w') s) ["ab"; "c d"; "ef"].
Proof.
  apply (lazy_query_is_disjunction "ab" ["c d"; "ef"]).
  - constructor; [apply spelling_word; reflexivity|].
    constructor;
      [apply (spelling_quoted "c d" "c d"); apply (encodes_escape "c d")|].
    constructor; [apply spelling_word; reflexivity | constructor].
  - cbn. repeat split; try discriminate; reflexivity.
  - cbn. lia.
Defined.

(** ** Compiling again after a failure *)

Section Kept.

Context {S1 S2 : Type} {src1 : TokenSource S1} {src2 : TokenSource S2}.
Variable R : S1 -> S2 -> Prop.
Hypothesis HR : keeps R.

Lemma kept_ret {A : Type} (a : A) : kept_run R (ret a) (ret a).
Proof. intros p1 p2 H. split; [reflexivity | exact H]. Qed.

Lemma kept_bind {A B : Type} (m1 : M (Parser.t S1) A)
    (m2 : M (Parser.t S2) A) (k1 : A -> M (Parser.t S1) B)
    (k2 : A -> M (Parser.t S2) B) :
  kept_run R m1 m2 ->
  (forall a, kept_run R (k1 a) (k2 a)) ->
  kept_run R (bind m1 k1) (bind m2 k2).
Proof.
  intros Hm Hk p1 p2 Hp. specialize (Hm p1 p2 Hp).
  unfold bind, kept_outcome in *.
  destruct (m1 p1) as [[a1 | e1 |] q1], (m2 p2) as [[a2 | e2 |] q2];
    simpl in *; try contradiction; try assumption.
  destruct Hm as [-> Hq]. apply (Hk a2 q1 q2 Hq).
Qed.

Lemma kept_on_input {A : Type} (m1 : M S1 A) (m2 : M S2 A) :
  (forall s1 s2, R s1 s2 -> kept_outcome R (m1 s1) (m2 s2)) ->
  kept_run R (Parser.on_input m1) (Parser.on_input m2).
Proof.
  intros Hm p1 p2 [Hin Hlazy]. specialize (Hm _ _ Hin).
  unfold Parser.on_input, on_field, kept_outcome in *.
  destruct (m1 (Parser.input p1)) as [[a1 | e1 |] q1],
    (m2 (Parser.input p2)) as [[a2 | e2 |] q2];
    simpl in *; try contradiction; try assumption.
  - destruct Hm as [-> Hq]. repeat split; assumption.
  - destruct Hm as [-> Hq]. repeat split; assumption.
Qed.

Lemma kept_peek :
  kept_run R (Parser.on_input source_peek) (Parser.on_input source_peek).
Proof. apply kept_on_input. intros s1 s2 H. apply (HR s1 s2 H). Qed.

Lemma kept_next :
  kept_run R (Parser.on_input source_next) (Parser.on_input source_next).
Proof. apply kept_on_input. intros s1 s2 H. apply (HR s1 s2 H). Qed.

Lemma kept_eof :
  kept_run R (Parser.on_input source_eof) (Parser.on_input source_eof).
Proof. apply kept_on_input. intros s1 s2 H. apply (HR s1 s2 H). Qed.

Lemma kept_throw {A : Type} (msg : ErrorMsg) :
  kept_run R (Parser.on_input (source_throw (A := A) msg))
    (Parser.on_input (source_throw (A := A) msg)).
Proof. apply kept_on_input. intros s1 s2 H. apply (HR s1 s2 H). Qed.

Lemma kept_get_is_lazy : kept_run R Parser.get_is_lazy Parser.get_is_lazy.
Proof.
  intros p1 p2 [Hin Hlazy]. unfold Parser.get_is_lazy, kept_outcome.
  simpl. repeat split; assumption.
Qed.

Lemma kept_set_is_lazy (b : bool) :
  kept_run R (Parser.set_is_lazy b) (Parser.set_is_lazy b).
Proof.
  intros p1 p2 [Hin Hlazy]. unfold Parser.set_is_lazy, kept_outcome.
  simpl. repeat split; assumption.
Qed.

Lemma kept_out_of_fuel {A : Type} :
  kept_run R (out_of_fuel (A := A)) (out_of_fuel (A := A)).
Proof. intros p1 p2 H. exact I. Qed.

End Kept.

Ltac kept_step :=
  first
    [ apply kept_ret
    | apply kept_out_of_fuel
    | apply kept_peek; assumption
    | apply kept_next; assumption
    | apply kept_eof; assumption
    | apply kept_throw; assumption
    | apply kept_get_is_lazy
    | apply kept_set_is_lazy
    | match goal with
      | H : _ |- _ => apply H
      end
    | apply kept_bind; [| intros ?]
    | match goal with
      | |- kept_run _ (if ?b then _ else _) _ => destruct b
      | |- kept_run _ (match ?x with _ => _ end) _ => destruct x
      end ].

Section KeptDescent.

Context {S1 S2 : Type} {src1 : TokenSource S1} {src2 : TokenSource S2}.
Variable R : S1 -> S2 -> Prop.
Hypothesis HR : keeps R.

Lemma kept_primitives :
  (forall ch, kept_run R (Parser.is_punc ch) (Parser.is_punc ch))
  /\ kept_run R Parser.is_op Parser.is_op
  /\ kept_run R Parser.is_not Parser.is_not
  /\ kept_run R Parser.is_term Parser.is_term
  /\ (forall ch, kept_run R (Parser.skip_punc ch) (Parser.skip_punc ch))
  /\ kept_run R Parser.parse_term Parser.parse_term
  /\ kept_run R (Parser.unexpected (A := Node)) Parser.unexpected
  /\ kept_run R (Parser.throw_lazy (A := unit)) Parser.throw_lazy.
Proof.
  assert (Hpunc : forall ch,
             kept_run R (Parser.is_punc ch) (Parser.is_punc ch)).
  { intros ch. unfold Parser.is_punc. repeat kept_step. }
  repeat split.
  - exact Hpunc.
  - unfold Parser.is_op. repeat kept_step.
  - unfold Parser.is_not. repeat kept_step.
  - unfold Parser.is_term. repeat kept_step.
  - intros ch. unfold Parser.skip_punc. repeat kept_step.
  - unfold Parser.parse_term. repeat kept_step.
  - unfold Parser.unexpected. repeat kept_step.
  - unfold Parser.throw_lazy. repeat kept_step.
Qed.

(** The descent leaves related sources related, also when it throws. *)
Lemma kept_descent (fuel : nat) :
  (forall b, kept_run R (Parser.parse_operand fuel b)
               (Parser.parse_operand fuel b))
  /\ kept_run R (Parser.operand_expr fuel) (Parser.operand_expr fuel)
  /\ kept_run R (Parser.lazy_operator fuel) (Parser.lazy_operator fuel)
  /\ (forall l prec, kept_run R (Parser.parse_operator fuel l prec)
                       (Parser.parse_operator fuel l prec))
  /\ kept_run R (Parser.parse_not fuel) (Parser.parse_not fuel)
  /\ kept_run R (Parser.parse_operands fuel) (Parser.parse_operands fuel).
Proof.
  destruct kept_primitives
    as (Hpunc & Hop & Hnot & Hterm & Hskip & Hpterm & Hunex & Hlazy).
  induction fuel as [|fuel (IH1 & IH2 & IH3 & IH4 & IH5 & IH6)].
  - repeat split; intros; apply kept_out_of_fuel.
  - repeat split; intros.
    + rewrite !parse_operand_S. repeat kept_step.
    + rewrite !operand_expr_S. repeat kept_step.
    + rewrite !lazy_operator_S. repeat kept_step.
    + rewrite !parse_operator_S. repeat kept_step.
    + rewrite !parse_not_S. repeat kept_step.
    + rewrite !parse_operands_S. repeat kept_step.
Qed.

End KeptDescent.

Lemma charAt_at_pos_inv (inp : string) (p : nat) (c : ascii) :
  JS.charAt inp p = String c "" -> exists x, at_pos inp p (String c x).
Proof.
  unfold JS.charAt. revert p.
  induction inp as [|d inp IH]; intros p H; [destruct p; discriminate|].
  destruct p as [|p]; cbn in H.
  - injection H as ->. exists inp, "". split; reflexivity.
  - destruct (IH p H) as (x & pre & -> & Hlen). exists x, (String d pre).
    split; [reflexivity | cbn; now rewrite Hlen].
Qed.

(** A stream on which [read_next] has thrown throws again, the same. *)
Lemma read_next_throws_again (s s' : TokenStream.t) (e : Error) :
  TokenStream.read_next s = (Throw e, s') ->
  TokenStream.read_next (TokenStream.mk None (TokenStream.input s')) =
  (Throw e, TokenStream.mk None (TokenStream.input s')).
Proof.
  destruct s as [cur [p inp]]. fold (stream_at cur inp p).
  destruct (read_next_cases cur inp p) as (r & p' & Hnext & _ & Hr).
  rewrite Hnext. intros [= -> <-]. destruct Hr as (c & Hc & Hlegal & ->).
  destruct (charAt_at_pos_inv inp p' c Hc) as (x & Hpos).
  cbn [stream_at TokenStream.input]. fold (stream_at None inp p').
  rewrite (read_next_stuck None inp p' 0 c x Hpos Hlegal).
  now rewrite Nat.add_0_r.
Qed.

Lemma kept_of_related {A X Y : Type} (R : X -> Y -> Prop)
    (x : outcome A * X) (y : outcome A * Y) :
  related_outcome R x y ->
  (forall e e', fst x = Throw e -> fst y = Throw e' -> R (snd x) (snd y)) ->
  kept_outcome R x y.
Proof.
  unfold related_outcome, kept_outcome.
  destruct (fst x) as [a | e |], (fst y) as [b | e' |]; try tauto.
  intros H Hk. split; [exact H | now apply (Hk e e')].
Qed.

Lemma peek_Throw (s : TokenStream.t) (e : Error) :
  fst (TokenStream.peek s) = Throw e ->
  TokenStream.current s = None
  /\ TokenStream.read_next s = (Throw e, snd (TokenStream.peek s)).
Proof.
  unfold TokenStream.peek.
  destruct (TokenStream.current s) as [t|]; [discriminate|].
  unfold bind.
  destruct (TokenStream.read_next s) as [[o | e' |] s1]; try discriminate.
  cbn. now intros [= ->].
Qed.

Lemma next_Throw (s : TokenStream.t) (e : Error) :
  fst (TokenStream.next s) = Throw e ->
  TokenStream.current s = None
  /\ TokenStream.read_next s = (Throw e, snd (TokenStream.next s)).
Proof.
  unfold TokenStream.next. destruct s as [[t|] i]; [discriminate|].
  cbn [TokenStream.current TokenStream.input].
  destruct (TokenStream.read_next _) as [[o | e' |] s1]; try discriminate.
  cbn. now intros [= ->].
Qed.

Lemma eof_Throw (s : TokenStream.t) (e : Error) :
  fst (TokenStream.eof s) = Throw e ->
  fst (TokenStream.peek s) = Throw e
  /\ snd (TokenStream.eof s) = snd (TokenStream.peek s).
Proof.
  unfold TokenStream.eof, bind, ret.
  destruct (TokenStream.peek s) as [[o | e' |] s1]; try discriminate.
  cbn. now intros [= ->].
Qed.

Lemma scan_read_Throw (consume : bool) (sc : Scan) (e : Error) :
  fst (scan_read consume sc) = Throw e -> snd (scan_read consume sc) = sc.
Proof.
  unfold scan_read. destruct (scan_tokens sc); [|discriminate].
  now destruct (scan_fault sc).
Qed.

(** The token stream and its scan stay related when the lexer throws. *)
Lemma scans_keeps : keeps scans.
Proof.
  intros s sc H.
  destruct (scans_simulates s sc H) as (Hpeek & Hnext & Heof & Hthrow).
  assert (Hstuck : forall s1 e,
             TokenStream.current s = None ->
             TokenStream.read_next s = (Throw e, s1) ->
             scans s1 sc).
  { intros s1 e Hcur Hrn.
    pose proof (read_next_current s) as Hc. rewrite Hrn in Hc. cbn in Hc.
    rewrite Hcur in Hc.
    pose proof (read_next_throws_again s s1 e Hrn) as Hagain.
    rewrite (stream_eta s1), Hc.
    assert (Hsc : sc = mkScan [] (Some (err_msg e))).
    { destruct H as [[|fuel] Hscan]; [discriminate|]. cbn [scan] in Hscan.
      unfold TokenStream.next in Hscan. rewrite Hcur in Hscan.
      rewrite (stream_eta s), Hcur in Hrn. cbn in Hrn.
      rewrite Hrn in Hscan. now injection Hscan as <-. }
    rewrite Hsc. exists 1. cbn [scan]. unfold TokenStream.next.
    cbn [TokenStream.current TokenStream.input]. now rewrite Hagain. }
  split; [|split; [|split]].
  - apply kept_of_related; [exact Hpeek|]. intros e e' He He'.
    cbn [source_peek TokenStream_source Scan_source] in *.
    rewrite (scan_read_Throw _ _ _ He').
    destruct (peek_Throw s e He) as [Hcur Hrn]. now apply (Hstuck _ e).
  - apply kept_of_related; [exact Hnext|]. intros e e' He He'.
    cbn [source_next TokenStream_source Scan_source] in *.
    rewrite (scan_read_Throw _ _ _ He').
    destruct (next_Throw s e He) as [Hcur Hrn]. now apply (Hstuck _ e).
  - apply kept_of_related; [exact Heof|]. intros e e' He He'.
    cbn [source_eof TokenStream_source Scan_source] in *.
    destruct (eof_Throw s e He) as [Hp ->].
    assert (Hsc : snd ((let* tok := scan_read false in
                        ret (match tok with
                             | Some _ => false
                             | None => true
                             end)) sc) = sc).
    { unfold bind, ret, scan_read.
      destruct (scan_tokens sc); [|reflexivity].
      now destruct (scan_fault sc). }
    rewrite Hsc.
    destruct (peek_Throw s e Hp) as [Hcur Hrn]. now apply (Hstuck _ e).
  - intros A msg. destruct s as [c i]. split; [reflexivity | exact H].
Qed.

Lemma resumes_new (q : string) (sc : Scan) :
  scans (TokenStream.new q) sc -> resumes (Interpreter.new q) sc None.
Proof. intros H. split; [reflexivity|]. split; [exact H | reflexivity]. Qed.

(** A compile that fails leaves an interpreter that resumes where the
    parse of the scan stopped. *)
Lemma compile_step_Throw (i : Interpreter.t) (sc : Scan) (lz : option bool)
    (fuel k : nat) (e : Error) (p' : Parser.t Scan) :
  resumes i sc lz ->
  Parser.parse_operand fuel true (Parser.mk sc lz) = (Throw e, p') ->
  exists pos i',
    Interpreter.compile (fuel + k) i = (Throw (mkError (err_msg e) pos), i')
    /\ resumes i' (Parser.input p') (Parser.is_lazy p').
Proof.
  intros [Hvalue Hrel] Hparse.
  apply (parse_more_fuel fuel k) in Hparse; [|discriminate].
  pose proof (proj1 (kept_descent scans scans_keeps (fuel + k)) true
                _ _ Hrel) as Hkept.
  unfold Interpreter.compile. rewrite Hvalue.
  unfold kept_outcome in Hkept. rewrite Hparse in Hkept.
  destruct (Parser.parse_operand (fuel + k) true (Interpreter.input i))
    as [[n | [msg pos] |] p1]; cbn in Hkept; try contradiction.
  destruct Hkept as [-> Hp1]. exists pos. eexists. split; [reflexivity|].
  split; [reflexivity|]. cbn [Interpreter.input]. now destruct p'.
Qed.

Lemma compile_step_Return (i : Interpreter.t) (sc : Scan) (lz : option bool)
    (fuel k : nat) (n : Node) (p' : Parser.t Scan) :
  resumes i sc lz ->
  Parser.parse_operand fuel true (Parser.mk sc lz) = (Return n, p') ->
  exists i',
    Interpreter.compile (fuel + k) i = (Return n, i')
    /\ Interpreter.value i' = Some n.
Proof.
  intros [Hvalue Hrel] Hparse.
  apply (parse_more_fuel fuel k) in Hparse; [|discriminate].
  pose proof (proj1 (kept_descent scans scans_keeps (fuel + k)) true
                _ _ Hrel) as Hkept.
  unfold Interpreter.compile. rewrite Hvalue.
  unfold kept_outcome in Hkept. rewrite Hparse in Hkept.
  destruct (Parser.parse_operand (fuel + k) true (Interpreter.input i))
    as [[n1 | e1 |] p1]; cbn in Hkept; try contradiction.
  destruct Hkept as [-> _]. eexists. split; reflexivity.
Qed.



(** ** The earlier revision against the current one *)

Lemma Term_test_lookup (v s value : string) (c : Context.t) :
  let c' := snd (Part001.Term_test v s value c) in
  (JS.indexOf s value = (-1)%Z -> c' = c)
  /\ (JS.indexOf s value <> (-1)%Z ->
      Context.lookup c' (JS.indexOf s value) <> None
      /\ forall j, j <> JS.indexOf s value ->
                   Context.lookup c' j = Context.lookup c j).
Proof.
  cbn zeta. unfold Part001.Term_test.
  destruct (Z.eqb_spec (JS.indexOf s value) (-1)%Z) as [E | E].
  - split; [reflexivity | contradiction].
  - split; [contradiction|]. intros _.
    unfold Context.get_term, Context.lookup.
    destruct c as [[m|] sc]; cbn.
    + destruct (m !! JS.indexOf s value) eqn:Hm; cbn.
      * split; [congruence | reflexivity].
      * split; [now rewrite lookup_insert_eq|].
        intros j Hj. now rewrite lookup_insert_ne.
    + rewrite lookup_empty. cbn. split; [now rewrite lookup_insert_eq|].
      intros j Hj. rewrite lookup_insert_ne by auto. apply lookup_empty.
Qed.

Lemma Term_match_lookup (v s value : string) (c : Context.t) :
  let c' := snd (Term_match v s value c) in
  (JS.indexOf s value = (-1)%Z -> c' = c)
  /\ (JS.indexOf s value <> (-1)%Z ->
      Context.lookup c' (JS.indexOf s value) <> None
      /\ forall j, j <> JS.indexOf s value ->
                   Context.lookup c' j = Context.lookup c j).
Proof.
  cbn zeta. unfold Term_match.
  destruct (Z.eqb_spec (JS.indexOf s value) (-1)%Z) as [E | E].
  - split; [reflexivity | contradiction].
  - split; [contradiction|]. intros _. cbn [snd]. split.
    + now rewrite lookup_set_term_at.
    + intros j Hj. now apply lookup_set_term_at_ne.
Qed.

Lemma test_match_agree (v s value : string) (c1 c2 : Context.t) :
  same_offsets c1 c2 ->
  fst (Part001.Term_test v s value c1) = fst (Term_match v s value c2)
  /\ same_offsets (snd (Part001.Term_test v s value c1))
       (snd (Term_match v s value c2)).
Proof.
  intros Hsame. split.
  - unfold Part001.Term_test, Term_match.
    destruct (JS.indexOf s value =? -1)%Z; [reflexivity|].
    destruct (Context.get_term c1) as [m c']. now destruct (m !! _).
  - destruct (Term_test_lookup v s value c1) as [T1 T2].
    destruct (Term_match_lookup v s value c2) as [M1 M2].
    destruct (Z.eq_dec (JS.indexOf s value) (-1)%Z) as [E | E].
    + now rewrite (T1 E), (M1 E).
    + destruct (T2 E) as [Ta Tb]. destruct (M2 E) as [Ma Mb].
      intros j. destruct (Z.eq_dec j (JS.indexOf s value)) as [-> | Hj].
      * tauto.
      * rewrite (Tb j Hj), (Mb j Hj). apply Hsame.
Qed.

Lemma loops_agree (v s : string) :
  forall fuel gap m c1 c2,
    same_offsets c1 c2 ->
    let x := Part001_Term_exec_loop fuel v s gap m c1 in
    let y :=
      Term_exec_loop fuel v (JS.ceil_div (String.length v) 4) s gap m c2 in
    fst x = fst y /\ same_offsets (snd x) (snd y).
Proof.
  induction fuel as [|fuel IH]; intros gap m c1 c2 Hsame; cbn zeta.
  - cbn. auto.
  - cbn [Part001_Term_exec_loop Term_exec_loop].
    destruct ((gap <=? JS.ceil_div (String.length v) 4)%nat && negb m);
      [|cbn; auto].
    destruct (test_match_agree v s
                (JS.substring v 0 (String.length v - gap)) c1 c2 Hsame)
      as [Hr Hc].
    destruct (Part001.Term_test v s _ c1) as [m1 d1].
    destruct (Term_match v s _ c2) as [m2 d2]. cbn [fst snd] in Hr, Hc.
    subst m2. now apply IH.
Qed.

Lemma Part001_loop_keeps (v s : string) :
  forall fuel gap m c i e,
    Context.lookup c i = Some e ->
    Context.lookup (snd (Part001_Term_exec_loop fuel v s gap m c)) i = Some e.
Proof.
  induction fuel as [|fuel IH]; intros gap m c i e H; [exact H|].
  cbn [Part001_Term_exec_loop].
  destruct ((gap <=? JS.ceil_div (String.length v) 4)%nat && negb m);
    [|exact H].
  pose proof (Part001_Term_test_keeps_first v s
                (JS.substring v 0 (String.length v - gap)) c i e H) as Hk.
  destruct (Part001.Term_test v s _ c) as [m1 d1]. now apply IH.
Qed.

(** X22. The earlier revision of the evaluator, kept in the repository,
    differs from the current one only in which entry an offset keeps: on
    every tree it never replaces an entry a context already has (the first
    match at an offset wins), and on a tree built by the constructors it
    returns the same result as the current revision and records entries
    at exactly the same offsets. *)
Theorem Part001_first_match_wins (n : Node) (s : string) (c : Context.t) :
  (forall i e,
      Context.lookup c i = Some e ->
      Context.lookup (snd (Part001_exec n s c)) i = Some e)
  /\ (constructed n ->
      fst (Part001_exec n s c) = fst (exec n s c)
      /\ same_offsets (snd (Part001_exec n s c)) (snd (exec n s c))).
Proof.
  split.
  - revert c. induction n as [v tol | n IH | ty l IHl r IHr];
      intros c i e H; cbn [Part001_exec].
    + unfold Part001_Term_exec.
      pose proof (Part001_loop_keeps v s
                    (S (S (JS.ceil_div (String.length v) 4))) 0 false c i e H)
        as Hk.
      now destruct (Part001_Term_exec_loop _ v s 0 false c) as [[g m] c'].
    + specialize (IH c i e H). now destruct (Part001_exec n s c).
    + specialize (IHl c i e H). destruct (Part001_exec l s c) as [a c1].
      specialize (IHr c1 i e IHl). now destruct (Part001_exec r s c1).
  - assert (Hgen : forall c1 c2,
               constructed n -> same_offsets c1 c2 ->
               fst (Part001_exec n s c1) = fst (exec n s c2)
               /\ same_offsets (snd (Part001_exec n s c1))
                    (snd (exec n s c2))).
    { clear c. induction n as [v tol | n IH | ty l IHl r IHr];
        intros c1 c2 Hc Hsame; cbn [Part001_exec exec constructed] in *.
      - subst tol. unfold Part001_Term_exec, Term_exec.
        destruct (loops_agree v s
                    (S (S (JS.ceil_div (String.length v) 4))) 0 false c1 c2
                    Hsame) as [Hr Hctx].
        destruct (Part001_Term_exec_loop _ v s 0 false c1) as [[g1 m1] d1].
        destruct (Term_exec_loop _ v _ s 0 false c2) as [[g2 m2] d2].
        cbn [fst snd] in *. split; [congruence | exact Hctx].
      - destruct (IH c1 c2 Hc Hsame) as [Hr Hctx].
        destruct (Part001_exec n s c1), (exec n s c2). cbn [fst snd] in *.
        split; [congruence | exact Hctx].
      - destruct Hc as (_ & Hl & Hr).
        destruct (IHl c1 c2 Hl Hsame) as [Hrl Hcl].
        destruct (Part001_exec l s c1) as [a1 d1], (exec l s c2) as [a2 d2].
        cbn [fst snd] in *. subst a2.
        destruct (IHr d1 d2 Hr Hcl) as [Hrr Hcr].
        destruct (Part001_exec r s d1) as [b1 e1], (exec r s d2) as [b2 e2].
        cbn [fst snd] in *. subst b2. split; [reflexivity | exact Hcr]. }
    intros Hc. apply Hgen; [exact Hc | intros i; reflexivity].
Qed.

Lemma Part001_first_match_wins_witness :
  Context.lookup
    (snd (Part001_exec (Op "|" (new_Term "abcd") (new_Term "abce")) "abce"
            Context.new)) 0 = Some (mkEntry 3 1)
  /\ Context.lookup
       (snd (exec (Op "|" (new_Term "abcd") (new_Term "abce")) "abce"
               Context.new)) 0 = Some (mkEntry 4 0)
  /\ fst (Part001_exec (Op "|" (new_Term "abcd") (new_Term "abce")) "abce"
            Context.new) =
     fst (exec (Op "|" (new_Term "abcd") (new_Term "abce")) "abce"
            Context.new).
Proof.
  split; [|split]; [| reflexivity |].
  - apply (proj1 (Part001_first_match_wins (new_Term "abce") "abce"
                    (snd (Part001_exec (new_Term "abcd") "abce"
                            Context.new)))).
    reflexivity.
  - apply (proj2 (Part001_first_match_wins
                    (Op "|" (new_Term "abcd") (new_Term "abce")) "abce"
                    Context.new)).
    cbn. auto.
Defined.

(** ** Evaluating twice *)

(** What the loop of a term writes does not depend on the context. *)
Lemma Term_exec_loop_write (v : string) (tol : nat) (s : string) :
  forall fuel gap m,
    exists w : Write,
      forall c,
        snd (Term_exec_loop fuel v tol s gap m c) = apply_write c w.
Proof.
  induction fuel as [|fuel IH]; intros gap m; [now exists None|].
  cbn [Term_exec_loop].
  destruct ((gap <=? tol)%nat && negb m); [|now exists None].
  unfold Term_match.
  destruct (JS.indexOf s _ =? -1)%Z.
  - apply IH.
  - eexists (Some (_, _)). intros c.
    now rewrite Term_exec_loop_matched.
Qed.

Lemma exec_writes (n : Node) (s : string) :
  exists ws, forall c, snd (exec n s c) = apply_writes ws c.
Proof.
  induction n as [v tol | n [ws IH] | ty l [wl IHl] r [wr IHr]].
  - destruct (Term_exec_loop_write v tol s (S (S tol)) 0 false) as [w Hw].
    exists [w]. intros c. cbn [exec]. unfold Term_exec.
    specialize (Hw c).
    now destruct (Term_exec_loop _ v tol s 0 false c) as [[g m] c'].
  - exists ws. intros c. cbn [exec]. rewrite <- IH.
    now destruct (exec n s c).
  - exists (wl ++ wr)%list. intros c. cbn [exec]. unfold apply_writes.
    rewrite fold_left_app. fold (apply_writes wl c).
    fold (apply_writes wr (apply_writes wl c)). rewrite <- IHl, <- IHr.
    destruct (exec l s c) as [a c1]. cbn [snd].
    now destruct (exec r s c1).
Qed.

Lemma lookup_apply_writes (ws : list Write) :
  forall c i,
    Context.lookup (apply_writes ws c) i =
    match last_write ws i with
    | Some e => Some e
    | None => Context.lookup c i
    end.
Proof.
  induction ws as [|w ws IH]; intros c i; [reflexivity|].
  cbn [apply_writes fold_left last_write].
  fold (apply_writes ws (apply_write c w)).
  rewrite IH. destruct (last_write ws i); [reflexivity|].
  destruct w as [[j e]|]; [|reflexivity]. cbn [apply_write].
  destruct (Z.eqb_spec j i) as [-> | Hne].
  - apply lookup_set_term_at.
  - now apply lookup_set_term_at_ne.
Qed.

Lemma success_apply_writes (ws : list Write) (c : Context.t) :
  Context.success (apply_writes ws c) = Context.success c.
Proof.
  revert c. induction ws as [|w ws IH]; intros c; [reflexivity|].
  cbn [apply_writes fold_left]. fold (apply_writes ws (apply_write c w)).
  rewrite IH. destruct w as [[j e]|]; [apply success_set_term_at | reflexivity].
Qed.

(** A context is what [term] holds, whether [term] is there, and
    [success]. *)
Lemma context_eq (c1 c2 : Context.t) :
  (forall i, Context.lookup c1 i = Context.lookup c2 i) ->
  (Context.term c1 = None <-> Context.term c2 = None) ->
  Context.success c1 = Context.success c2 ->
  c1 = c2.
Proof.
  destruct c1 as [[m1|] s1], c2 as [[m2|] s2]; cbn; intros Hl Ht ->.
  - f_equal. f_equal. now apply map_eq.
  - destruct Ht as [_ Ht]. now specialize (Ht eq_refl).
  - destruct Ht as [Ht _]. now specialize (Ht eq_refl).
  - reflexivity.
Qed.

Lemma term_apply_writes (ws : list Write) (c : Context.t) :
  Context.term (apply_writes ws c) = None <->
  Context.term c = None /\ Forall (eq None) ws.
Proof.
  revert c. induction ws as [|w ws IH]; intros c.
  - cbn. split; [intros H; split; [exact H | constructor] | tauto].
  - cbn [apply_writes fold_left]. fold (apply_writes ws (apply_write c w)).
    rewrite IH. destruct w as [[j e]|]; cbn [apply_write].
    + split.
      * intros [H _]. unfold Context.set_term_at, Context.get_term in H.
        destruct (Context.term c); discriminate.
      * intros [_ H]. inversion H; discriminate.
    + split.
      * intros [H1 H2]. split; [exact H1 | now constructor].
      * intros [H1 H2]. split; [exact H1 | now inversion H2].
Qed.

Lemma apply_writes_idempotent (ws : list Write) (c : Context.t) :
  apply_writes ws (apply_writes ws c) = apply_writes ws c.
Proof.
  apply context_eq.
  - intros i. rewrite !lookup_apply_writes.
    now destruct (last_write ws i).
  - rewrite !term_apply_writes. tauto.
  - now rewrite !success_apply_writes.
Qed.

(** X23. Evaluation is idempotent on the context: running a tree a second
    time on the context it has left, with the same subject, returns the
    same result and leaves the context exactly as it is, even where two
    terms compete for an offset. *)
Theorem exec_idempotent (n : Node) (s : string) (c : Context.t) :
  exec n s (snd (exec n s c)) = exec n s c.
Proof.
  destruct (exec_writes n s) as [ws Hws].
  pose proof (exec_result_indep n s (snd (exec n s c)) c) as Hr.
  pose proof (Hws (snd (exec n s c))) as H2. rewrite (Hws c) in H2 at 2.
  rewrite apply_writes_idempotent in H2. rewrite <- (Hws c) in H2.
  destruct (exec n s (snd (exec n s c))) as [r2 c2].
  destruct (exec n s c) as [r1 c1]. cbn [fst snd] in *. congruence.
Qed.
(** ** The operator style of a whole query *)

Lemma begins_with_operator_ends_scan (rest : list Token)
    (fault : option ErrorMsg) :
  begins_with_operator rest = true -> ends_scan rest fault.
Proof.
  destruct rest as [|tk rest]; [discriminate|].
  cbn [begins_with_operator ends_scan ends_operand]. now intros ->.
Qed.

Lemma closes_begins (rest : list Token) (fault : option ErrorMsg) :
  closes rest fault -> begins_with_operator rest = false.
Proof. destruct rest as [|tk rest]; [reflexivity|]. now intros ->. Qed.

(** The steps of the descent on a scan. *)
Section StyleSteps.

Variables (fuel : nat) (fault : option ErrorMsg).

Lemma operand_expr_term (w : string) (rest : list Token) (lz : option bool) :
  Parser.operand_expr (S fuel)
    (Parser.mk (mkScan (mkToken "term" (Some w) :: rest) fault) lz) =
  (Return (new_Term w), Parser.mk (mkScan rest fault) lz).
Proof. reflexivity. Qed.

Lemma operand_expr_group (toks : list Token) (lz : option bool) :
  Parser.operand_expr (S (S fuel))
    (Parser.mk (mkScan (mkToken "punc" (Some "(") :: toks) fault) lz) =
  match Parser.parse_operand fuel true (Parser.mk (mkScan toks fault) lz) with
  | (Return n, p) =>
      match Parser.skip_punc ")" p with
      | (Return _, p') => (Return n, p')
      | (Throw e, p') => (Throw e, p')
      | (OutOfFuel, p') => (OutOfFuel, p')
      end
  | (Throw e, p) => (Throw e, p)
  | (OutOfFuel, p) => (OutOfFuel, p)
  end.
Proof.
  rewrite operand_expr_S. unfold bind at 1. rewrite is_not_cons.
  cbn [tok_type String.eqb Ascii.eqb Bool.eqb JS.defined].
  unfold bind at 1. rewrite is_punc_cons.
  cbn [tok_type tok_value String.eqb Ascii.eqb Bool.eqb JS.defined JS.truthy
       negb orb andb].
  rewrite parse_operands_S. unfold bind at 1. rewrite skip_punc_cons.
  cbn [tok_type tok_value String.eqb Ascii.eqb Bool.eqb JS.truthy
       negb orb andb].
  unfold bind at 1.
  destruct (Parser.parse_operand fuel true _) as [[n | e |] p];
    [|reflexivity | reflexivity].
  unfold bind, ret. now destruct (Parser.skip_punc ")" p) as [[[] | e |] p'].
Qed.

Lemma operand_expr_not (toks : list Token) (lz : option bool) :
  Parser.operand_expr (S (S fuel))
    (Parser.mk (mkScan (mkToken "!" None :: toks) fault) lz) =
  match Parser.parse_operand fuel false (Parser.mk (mkScan toks fault) lz) with
  | (Return n, p) => (Return (Not n), p)
  | (Throw e, p) => (Throw e, p)
  | (OutOfFuel, p) => (OutOfFuel, p)
  end.
Proof.
  rewrite operand_expr_S. unfold bind at 1. rewrite is_not_cons.
  cbn [tok_type String.eqb Ascii.eqb Bool.eqb JS.defined].
  rewrite parse_not_S. unfold bind at 1. rewrite scan_next_cons.
  unfold bind, ret.
  now destruct (Parser.parse_operand fuel false _) as [[n | e |] p].
Qed.

Lemma lazy_operator_throws (p0 p : Parser.t Scan) (e : Error) :
  Parser.operand_expr fuel p0 = (Throw e, p) ->
  Parser.lazy_operator (S fuel) p0 = (Throw e, p).
Proof.
  intros H. rewrite lazy_operator_S. unfold bind at 1. now rewrite H.
Qed.

Lemma lazy_operator_juxtaposed (p0 : Parser.t Scan) (expr : Node)
    (tk : Token) (toks : list Token) (lz : option bool) :
  Parser.operand_expr fuel p0 =
    (Return expr, Parser.mk (mkScan (tk :: toks) fault) lz) ->
  starts_operand (Some tk) = true ->
  Parser.lazy_operator (S fuel) p0 =
  match lz with
  | Some false =>
      (Throw (mkError CannotMixLazy 0),
       Parser.mk (mkScan (tk :: toks) fault) lz)
  | _ =>
      match Parser.parse_operand fuel true
              (Parser.mk (mkScan (tk :: toks) fault) (Some true)) with
      | (Return r, p) => (Return (Op "|" expr r), p)
      | (Throw e, p) => (Throw e, p)
      | (OutOfFuel, p) => (OutOfFuel, p)
      end
  end.
Proof.
  intros Hexpr Hstart.
  assert (Hop : String.eqb (tok_type tk) "&" || String.eqb (tok_type tk) "|"
                = false
                /\ String.eqb (tok_type tk) "punc"
                   && (negb (JS.truthy ")")
                       || match tok_value tk with
                          | Some v => String.eqb v ")"
                          | None => false
                          end) = false).
  { destruct tk as [ty v]. cbn [starts_operand tok_type tok_value] in *.
    apply orb_true_iff in Hstart as [Hstart | Hterm].
    - apply orb_true_iff in Hstart as [Hnot | Hopen].
      + apply String.eqb_eq in Hnot. subst ty. split; reflexivity.
      + apply andb_true_iff in Hopen as [Hpunc Hval].
        apply String.eqb_eq in Hpunc. subst ty.
        destruct v as [v|]; [|discriminate].
        apply String.eqb_eq in Hval. subst v. split; reflexivity.
    - apply String.eqb_eq in Hterm. subst ty. split; reflexivity. }
  destruct Hop as [Hop Hpunc].
  rewrite lazy_operator_S. unfold bind at 1.
  rewrite Hexpr. unfold bind at 1. rewrite scan_eof_cons. cbv iota.
  unfold bind at 1. rewrite is_op_cons. rewrite Hop.
  cbn [JS.defined]. cbv iota.
  unfold bind at 1. rewrite is_punc_cons. rewrite Hpunc.
  cbn [JS.defined]. cbv iota.
  unfold bind at 1. unfold Parser.get_is_lazy at 1. cbn [Parser.is_lazy].
  destruct lz as [[|]|]; unfold bind, ret; cbn;
    try reflexivity;
    now destruct (Parser.parse_operand fuel true _) as [[r | e |] p].
Qed.

Lemma parse_operand_true (p0 : Parser.t Scan) :
  Parser.parse_operand (S fuel) true p0 =
  match Parser.parse_operand fuel false p0 with
  | (Return n, p) => Parser.parse_operator fuel n 0 p
  | (Throw e, p) => (Throw e, p)
  | (OutOfFuel, p) => (OutOfFuel, p)
  end.
Proof. rewrite parse_operand_S. reflexivity. Qed.

Lemma parse_operator_mixed (left : Node) (prec : nat) (toks : list Token) :
  begins_with_operator toks = true ->
  Parser.parse_operator (S fuel) left prec
    (Parser.mk (mkScan toks fault) (Some true)) =
  (Throw (mkError CannotMixLazy 0),
   Parser.mk (mkScan toks fault) (Some true)).
Proof.
  destruct toks as [|tk toks]; [discriminate|].
  cbn [begins_with_operator]. intros Hop.
  rewrite parse_operator_S. unfold bind at 1. rewrite is_op_cons.
  rewrite Hop. reflexivity.
Qed.

Lemma parse_operator_sign (ty : string) (next : nat) (left : Node)
    (prec : nat) (toks : list Token) (lz : option bool) :
  Parser._precedence ty = Some next ->
  (prec <? next)%nat = true ->
  lz <> Some true ->
  Parser.parse_operator (S fuel) left prec
    (Parser.mk (mkScan (mkToken ty None :: toks) fault) lz) =
  match Parser.parse_operand fuel false
          (Parser.mk (mkScan toks fault) (Some false)) with
  | (Return operand, p) =>
      match Parser.parse_operator fuel operand next p with
      | (Return r, p') => Parser.parse_operator fuel (Op ty left r) prec p'
      | (Throw e, p') => (Throw e, p')
      | (OutOfFuel, p') => (OutOfFuel, p')
      end
  | (Throw e, p) => (Throw e, p)
  | (OutOfFuel, p) => (OutOfFuel, p)
  end.
Proof.
  intros Hprec Hnext Hlz.
  assert (Hop : String.eqb ty "&" || String.eqb ty "|" = true).
  { unfold Parser._precedence in Hprec.
    destruct (String.eqb ty "|"); [apply orb_true_r|].
    destruct (String.eqb ty "&"); [reflexivity | discriminate]. }
  rewrite parse_operator_S. unfold bind at 1. rewrite is_op_cons.
  cbn [tok_type]. rewrite Hop.
  assert (Hrest :
            (match Parser._precedence ty with
             | Some next0 =>
                 if (prec <? next0)%nat then
                   Parser.on_input source_next ;;
                   let* operand := Parser.parse_operand fuel false in
                   let* right := Parser.parse_operator fuel operand next0 in
                   Parser.parse_operator fuel (Op ty left right) prec
                 else ret left
             | None => ret left
             end)
              (Parser.mk (mkScan (mkToken ty None :: toks) fault)
                 (Some false)) =
            match Parser.parse_operand fuel false
                    (Parser.mk (mkScan toks fault) (Some false)) with
            | (Return operand, p) =>
                match Parser.parse_operator fuel operand next p with
                | (Return r, p') =>
                    Parser.parse_operator fuel (Op ty left r) prec p'
                | (Throw e, p') => (Throw e, p')
                | (OutOfFuel, p') => (OutOfFuel, p')
                end
            | (Throw e, p) => (Throw e, p)
            | (OutOfFuel, p) => (OutOfFuel, p)
            end).
  { rewrite Hprec, Hnext. unfold bind at 1. rewrite scan_next_cons.
    unfold bind. reflexivity. }
  unfold bind at 1. unfold Parser.get_is_lazy at 1. cbn [Parser.is_lazy].
  destruct lz as [[|]|]; [contradiction | exact Hrest | exact Hrest].
Qed.

(** At precedence 1 an ['|'] is left to the caller. *)
Lemma parse_operator_ends_and (left : Node) (rest : list Token) :
  ends_and rest fault ->
  Parser.parse_operator (S fuel) left 1
    (Parser.mk (mkScan rest fault) (Some false)) =
  (Return left, Parser.mk (mkScan rest fault) (Some false)).
Proof.
  intros Hends. rewrite parse_operator_S. destruct rest as [|tk rest].
  - cbn in Hends. subst fault. reflexivity.
  - destruct Hends as [-> | ->]; reflexivity.
Qed.

End StyleSteps.

(** The first token of a query starts an operand. *)
Lemma primary_tokens_start (p : Primary) :
  exists tk toks,
    primary_tokens p = tk :: toks /\ starts_operand (Some tk) = true.
Proof. destruct p; eexists _, _; split; reflexivity. Qed.

Lemma query_tokens_start (q : Query) :
  exists tk toks,
    query_tokens q = tk :: toks /\ starts_operand (Some tk) = true.
Proof.
  destruct q as [o a r]. cbn [query_tokens].
  destruct o as [p | p q | o].
  - destruct (primary_tokens_start p) as (tk & toks & E & H).
    cbn [operand_tokens]. rewrite E. cbn [app]. now eexists _, _.
  - destruct (primary_tokens_start p) as (tk & toks & E & H).
    cbn [operand_tokens]. rewrite E. cbn [app]. now eexists _, _.
  - cbn [operand_tokens app]. now eexists _, _.
Qed.

Lemma begins_and_tokens (a : AndChain) (rest : list Token) :
  begins_with_operator (and_tokens a ++ rest) =
  and_operates a || begins_with_operator rest.
Proof. now destruct a. Qed.

Lemma begins_or_tokens (r : OrChain) (rest : list Token) :
  begins_with_operator (or_tokens r ++ rest) =
  or_operates r || begins_with_operator rest.
Proof. now destruct r. Qed.

Lemma ends_scan_and_tokens (a : AndChain) (rest : list Token)
    (fault : option ErrorMsg) :
  ends_scan rest fault -> ends_scan (and_tokens a ++ rest) fault.
Proof. destruct a; [auto | reflexivity]. Qed.

Lemma ends_scan_or_tokens (r : OrChain) (rest : list Token)
    (fault : option ErrorMsg) :
  ends_scan rest fault -> ends_scan (or_tokens r ++ rest) fault.
Proof. destruct r; [auto | reflexivity]. Qed.

Lemma ends_and_or_tokens (r : OrChain) (rest : list Token)
    (fault : option ErrorMsg) :
  closes rest fault -> ends_and (or_tokens r ++ rest) fault.
Proof. destruct r; [apply closes_ends_and | intros _; now left]. Qed.

Lemma ends_scan_cases (rest : list Token) (fault : option ErrorMsg) :
  ends_scan rest fault ->
  closes rest fault \/ begins_with_operator rest = true.
Proof.
  destruct rest as [|[ty v] rest]; [now left|].
  cbn [ends_scan ends_operand closes begins_with_operator tok_type tok_value].
  intros H. apply orb_true_iff in H as [H | H]; [now right|].
  left. apply andb_true_iff in H as [Hty Hv].
  apply String.eqb_eq in Hty. subst ty. destruct v as [v|]; [|discriminate].
  apply String.eqb_eq in Hv. now subst v.
Qed.

Lemma ends_open_juxtaposes (o : Operand) :
  ends_open o = true -> operand_juxtaposes o = true.
Proof. induction o; cbn; auto. discriminate. Qed.

(** Settles a goal on the outcome of a piece once the runs are rewritten:
    by cases on [is_lazy] and on what the pieces use. *)
Ltac style_flags :=
  unfold style_outcome in *;
  repeat match goal with
         | b : bool |- _ => destruct b
         | lz : option bool |- _ => destruct lz as [[|]|]
         end;
  cbv [allows style_reached negb andb orb] in *;
  try congruence;
  first [ assumption | eexists; reflexivity ].

Lemma a_term_parses (w : string) : primary_parses (a_term w).
Proof.
  exists 1. intros fuel rest fault lz Hfuel.
  destruct fuel as [|fuel]; [lia|].
  cbn [primary_tokens app primary_juxtaposes primary_operates].
  rewrite operand_expr_term. style_flags.
Qed.

Lemma in_parens_parses (q : Query) :
  query_parses q -> primary_parses (in_parens q).
Proof.
  intros [f1 H1]. exists (S (S f1)). intros fuel rest fault lz Hfuel.
  destruct fuel as [|[|fuel]]; try lia.
  cbn [primary_tokens app primary_juxtaposes primary_operates].
  rewrite <- app_assoc. cbn [app]. rewrite operand_expr_group.
  specialize (H1 fuel (mkToken "punc" (Some ")") :: rest) fault lz
                ltac:(lia) (or_introl eq_refl)).
  cbn [begins_with_operator tok_type String.eqb Ascii.eqb Bool.eqb orb negb]
    in H1.
  rewrite andb_true_r in H1. unfold style_outcome in *.
  destruct (allows lz (juxtaposes q) (operates q)).
  - destruct H1 as [n Hn]. rewrite Hn. rewrite skip_punc_cons.
    cbn. now exists n.
  - destruct H1 as [p Hp]. rewrite Hp. now exists p.
Qed.

Lemma primary_operand_parses (p : Primary) :
  primary_parses p -> operand_parses (primary p).
Proof.
  intros [f1 H1]. exists (S (S f1)). intros fuel rest fault lz Hfuel Hends.
  destruct fuel as [|[|fuel]]; try lia.
  cbn [operand_tokens operand_juxtaposes operand_operates ends_open andb negb].
  rewrite andb_true_r. rewrite parse_operand_S.
  specialize (H1 fuel rest fault lz ltac:(lia)). unfold style_outcome in *.
  destruct (allows lz (primary_juxtaposes p) (primary_operates p)).
  - destruct H1 as [n Hn].
    rewrite (lazy_operator_returns fuel _ n rest fault _ Hn Hends).
    now exists n.
  - destruct H1 as [p' Hp]. rewrite (lazy_operator_throws fuel _ _ _ Hp).
    now exists p'.
Qed.

Lemma negated_parses (o : Operand) :
  operand_parses o -> operand_parses (negated o).
Proof.
  intros [f1 H1]. exists (4 + f1). intros fuel rest fault lz Hfuel Hends.
  do 4 (destruct fuel as [|fuel]; [lia|]).
  cbn [operand_tokens operand_juxtaposes operand_operates ends_open app].
  rewrite parse_operand_S.
  specialize (H1 fuel rest fault lz ltac:(lia) Hends).
  unfold style_outcome in *.
  destruct (allows lz (operand_juxtaposes o) (operand_operates o)
            && negb (ends_open o && begins_with_operator rest)).
  - destruct H1 as [n Hn].
    rewrite (lazy_operator_returns (S (S fuel)) _ (Not n) rest fault
               (style_reached lz (operand_juxtaposes o)
                  (operand_operates o))).
    + now exists (Not n).
    + rewrite operand_expr_not. now rewrite Hn.
    + exact Hends.
  - destruct H1 as [p' Hp].
    rewrite (lazy_operator_throws (S (S fuel)) _ p' (mkError CannotMixLazy 0)).
    + now exists p'.
    + rewrite operand_expr_not. now rewrite Hp.
Qed.

Lemma juxtaposed_parses (p : Primary) (q : Query) :
  primary_parses p -> query_parses q -> operand_parses (juxtaposed p q).
Proof.
  intros [f1 H1] [f2 H2]. exists (S (S (f1 + f2))).
  intros fuel rest fault lz Hfuel Hends.
  destruct fuel as [|[|fuel]]; try lia.
  cbn [operand_tokens operand_juxtaposes operand_operates ends_open andb].
  rewrite <- app_assoc. rewrite parse_operand_S.
  specialize (H1 fuel (query_tokens q ++ rest)%list fault lz ltac:(lia)).
  assert (Hcond : closes rest fault
                  \/ (Some true = Some true
                      /\ begins_with_operator rest = true)).
  { destruct (ends_scan_cases rest fault Hends); auto. }
  specialize (H2 fuel rest fault (Some true) ltac:(lia) Hcond).
  destruct (query_tokens_start q) as (tk & toks & Hq & Hstart).
  set (jp := primary_juxtaposes p) in *. set (op := primary_operates p) in *.
  set (jq := juxtaposes q) in *. set (oq := operates q) in *.
  set (b := begins_with_operator rest) in *.
  clearbody jp op jq oq b. clear Hcond Hends.
  unfold style_outcome in H1.
  destruct (allows lz jp op) eqn:Hp.
  - destruct H1 as [n Hn]. rewrite Hq in Hn |- *. cbn [app] in Hn |- *.
    rewrite (lazy_operator_juxtaposed fuel fault _ n tk (toks ++ rest)%list _
               Hn Hstart).
    clear Hn. change (tk :: toks ++ rest)%list with ((tk :: toks) ++ rest)%list.
    rewrite <- Hq. clear Hq Hstart.
    unfold style_outcome in H2.
    destruct (allows (Some true) jq oq && negb b) eqn:Hq.
    + destruct H2 as [r Hr]. rewrite Hr. clear Hr. style_flags.
    + destruct H2 as [p' Hp']. rewrite Hp'. clear Hp'. style_flags.
  - destruct H1 as [p' Hp'].
    rewrite (lazy_operator_throws fuel _ p' (mkError CannotMixLazy 0) Hp').
    clear Hp' H2. style_flags.
Qed.

Lemma no_and_parses : and_parses no_and.
Proof.
  exists 1. intros fuel left rest fault Hfuel Hends.
  destruct fuel as [|fuel]; [lia|]. cbn [and_tokens app and_juxtaposes].
  rewrite parse_operator_ends_and by exact Hends.
  unfold style_outcome. cbn. now exists left.
Qed.

(** An operand that follows an operator. *)
Lemma operand_after_operator (o : Operand) (fuel : nat) (rest : list Token)
    (fault : option ErrorMsg) :
  (forall fuel' rest' fault' lz,
      fuel <= fuel' ->
      ends_scan rest' fault' ->
      style_outcome
        (Parser.parse_operand fuel' false
           (Parser.mk (mkScan (operand_tokens o ++ rest') fault') lz))
        (allows lz (operand_juxtaposes o) (operand_operates o)
         && negb (ends_open o && begins_with_operator rest'))
        rest' fault'
        (style_reached lz (operand_juxtaposes o) (operand_operates o))) ->
  ends_scan rest fault ->
  style_outcome
    (Parser.parse_operand fuel false
       (Parser.mk (mkScan (operand_tokens o ++ rest) fault) (Some false)))
    (negb (operand_juxtaposes o)) rest fault (Some false).
Proof.
  intros H Hends. specialize (H fuel rest fault (Some false) (le_n _) Hends).
  pose proof (ends_open_juxtaposes o) as Hopen.
  set (j := operand_juxtaposes o) in *. set (x := operand_operates o) in *.
  set (e := ends_open o) in *. set (b := begins_with_operator rest) in *.
  clearbody j x e b.
  unfold style_outcome in *.
  destruct j, x, e, b; cbv [allows style_reached negb andb orb] in *;
    try exact H; try (specialize (Hopen eq_refl); discriminate).
Qed.

Lemma and_then_parses (o : Operand) (a : AndChain) :
  operand_parses o -> and_parses a -> and_parses (and_then o a).
Proof.
  intros [f1 H1] [f2 H2]. exists (S (S (f1 + f2))).
  intros fuel left rest fault Hfuel Hends.
  destruct fuel as [|[|fuel]]; try lia.
  cbn [and_tokens app and_juxtaposes]. rewrite <- app_assoc.
  rewrite (parse_operator_sign (S fuel) fault "&" 2 left 1 _ (Some false)
             eq_refl eq_refl ltac:(discriminate)).
  assert (Hends1 : ends_scan (and_tokens a ++ rest) fault)
    by now apply ends_scan_and_tokens, ends_and_ends_scan.
  pose proof (operand_after_operator o (S fuel)
                (and_tokens a ++ rest)%list fault
                ltac:(intros; apply H1; [lia | assumption]) Hends1) as Ho.
  specialize (H2 (S fuel)). unfold style_outcome in Ho.
  destruct (operand_juxtaposes o).
  - destruct Ho as [p Hp]. rewrite Hp. now exists p.
  - destruct Ho as [n Hn]. rewrite Hn.
    rewrite parse_operator_top by exact Hends1.
    apply H2; [lia | exact Hends].
Qed.

Lemma no_or_parses : or_parses no_or.
Proof.
  exists 1. intros fuel left rest fault lz Hfuel Hcloses.
  destruct fuel as [|fuel]; [lia|].
  cbn [or_tokens app or_juxtaposes or_operates].
  rewrite parse_operator_returns by exact Hcloses.
  clear Hcloses. style_flags.
Qed.

Lemma or_then_parses (o : Operand) (a : AndChain) (r : OrChain) :
  operand_parses o -> and_parses a -> or_parses r ->
  or_parses (or_then o a r).
Proof.
  intros [f1 H1] [f2 H2] [f3 H3]. exists (S (f1 + f2 + f3)).
  intros fuel left rest fault lz Hfuel Hcloses.
  destruct fuel as [|fuel]; [lia|].
  cbn [or_tokens app or_juxtaposes or_operates].
  rewrite <- !app_assoc.
  destruct (option_eq_dec lz (Some true)) as [-> | Hlz].
  { rewrite parse_operator_mixed by reflexivity.
    unfold style_outcome. cbn. now eexists. }
  rewrite (parse_operator_sign fuel fault "|" 1 left 0 _ lz
             eq_refl eq_refl Hlz).
  assert (Hends2 : ends_and (or_tokens r ++ rest) fault)
    by now apply ends_and_or_tokens.
  assert (Hends1 : ends_scan (and_tokens a ++ or_tokens r ++ rest) fault)
    by now apply ends_scan_and_tokens, ends_and_ends_scan.
  pose proof (operand_after_operator o fuel
                (and_tokens a ++ or_tokens r ++ rest)%list fault
                ltac:(intros; apply H1; [lia | assumption]) Hends1) as Ho.
  specialize (H2 fuel). specialize (H3 fuel).
  unfold style_outcome in Ho.
  destruct (operand_juxtaposes o).
  - destruct Ho as [p Hp]. rewrite Hp. clear - Hlz. cbn [orb].
    unfold style_outcome. destruct lz as [[|]|]; [contradiction | |];
      cbn; now exists p.
  - destruct Ho as [n Hn]. rewrite Hn. clear Hn. cbn [orb].
    specialize (H2 n (or_tokens r ++ rest)%list fault ltac:(lia) Hends2).
    unfold style_outcome in H2.
    destruct (and_juxtaposes a).
    + destruct H2 as [p Hp]. rewrite Hp. clear - Hlz. cbn [orb].
      unfold style_outcome. destruct lz as [[|]|]; [contradiction | |];
        cbn; now exists p.
    + destruct H2 as [m Hm]. rewrite Hm. clear Hm. cbn [orb].
      specialize (H3 (Op "|" left m) rest fault (Some false) ltac:(lia)
                    Hcloses).
      clear - H3 Hlz.
      set (x := Parser.parse_operator fuel _ 0 _) in *. clearbody x.
      set (j := or_juxtaposes r) in *. set (y := or_operates r) in *.
      clearbody j y. unfold style_outcome in *.
      destruct lz as [[|]|]; [contradiction | |]; destruct j, y;
        cbv [allows style_reached negb andb orb] in *; exact H3.
Qed.

Lemma no_and_chain_parses (r : OrChain) :
  or_parses r -> chain_parses no_and r.
Proof.
  intros [f1 H1]. exists f1. intros fuel left rest fault lz Hfuel Hcloses.
  cbn [and_tokens app and_juxtaposes and_operates orb]. now apply H1.
Qed.

Lemma and_then_chain_parses (o : Operand) (a : AndChain) (r : OrChain) :
  operand_parses o -> chain_parses a r -> chain_parses (and_then o a) r.
Proof.
  intros [f1 H1] [f2 H2]. exists (S (S (f1 + f2))).
  intros fuel left rest fault lz Hfuel Hcloses.
  destruct fuel as [|[|fuel]]; try lia.
  cbn [and_tokens app and_juxtaposes and_operates orb].
  rewrite <- !app_assoc.
  destruct (option_eq_dec lz (Some true)) as [-> | Hlz].
  { rewrite parse_operator_mixed by reflexivity.
    unfold style_outcome. cbn. now eexists. }
  rewrite (parse_operator_sign (S fuel) fault "&" 2 left 0 _ lz
             eq_refl eq_refl Hlz).
  assert (Hends1 : ends_scan (and_tokens a ++ or_tokens r ++ rest) fault).
  { apply ends_scan_and_tokens, ends_scan_or_tokens.
    now apply closes_ends_scan. }
  pose proof (operand_after_operator o (S fuel)
                (and_tokens a ++ or_tokens r ++ rest)%list fault
                ltac:(intros; apply H1; [lia | assumption]) Hends1) as Ho.
  unfold style_outcome in Ho.
  destruct (operand_juxtaposes o).
  - destruct Ho as [p Hp]. rewrite Hp. clear - Hlz. cbn [orb].
    unfold style_outcome. destruct lz as [[|]|]; [contradiction | |];
      cbn; now exists p.
  - destruct Ho as [n Hn]. rewrite Hn. clear Hn. cbn [orb].
    rewrite parse_operator_top by exact Hends1.
    specialize (H2 (S fuel) (Op "&" left n) rest fault (Some false)
                  ltac:(lia) Hcloses).
    clear - H2 Hlz.
    set (x := Parser.parse_operator (S fuel) _ 0 _) in *. clearbody x.
    set (j := and_juxtaposes a || or_juxtaposes r) in *.
    set (y := and_operates a || or_operates r) in *.
    clearbody j y. unfold style_outcome in *.
    destruct lz as [[|]|]; [contradiction | |]; destruct j, y;
      cbv [allows style_reached negb andb orb] in *; exact H2.
Qed.

Lemma query_chain_parses (o : Operand) (a : AndChain) (r : OrChain) :
  operand_parses o -> chain_parses a r -> query_parses (query o a r).
Proof.
  intros [f1 H1] [f2 H2]. exists (S (S (f1 + f2))).
  intros fuel rest fault lz Hfuel Hcond.
  destruct fuel as [|[|fuel]]; try lia.
  cbn [query_tokens juxtaposes operates]. rewrite <- !app_assoc.
  rewrite parse_operand_true.
  assert (Hends : ends_scan rest fault).
  { destruct Hcond as [H | [_ H]];
      [now apply closes_ends_scan
      | now apply begins_with_operator_ends_scan]. }
  assert (Hends1 : ends_scan (and_tokens a ++ or_tokens r ++ rest) fault)
    by now apply ends_scan_and_tokens, ends_scan_or_tokens.
  specialize (H1 (S fuel) (and_tokens a ++ or_tokens r ++ rest)%list fault lz
                ltac:(lia) Hends1).
  rewrite begins_and_tokens, begins_or_tokens in H1.
  pose proof (ends_open_juxtaposes o) as Hopen.
  destruct Hcond as [Hcloses | [-> Hbegins]].
  - rewrite (closes_begins rest fault Hcloses) in *.
    specialize (fun left lz' =>
                  H2 (S fuel) left rest fault lz' ltac:(lia) Hcloses).
    unfold style_outcome in H1.
    destruct (allows lz (operand_juxtaposes o) (operand_operates o)
              && negb (ends_open o
                       && (and_operates a || (or_operates r || false))))
      eqn:Hok.
    + destruct H1 as [n Hn]. rewrite Hn. clear Hn.
      specialize (H2 n (style_reached lz (operand_juxtaposes o)
                          (operand_operates o))).
      set (x := Parser.parse_operator (S fuel) n 0 _) in *. clearbody x.
      set (jo := operand_juxtaposes o) in *.
      set (xo := operand_operates o) in *.
      set (e := ends_open o) in *.
      set (ja := and_juxtaposes a) in *. set (xa := and_operates a) in *.
      set (jr := or_juxtaposes r) in *. set (xr := or_operates r) in *.
      clearbody jo xo e ja xa jr xr. clear - H2 Hok Hopen.
      unfold style_outcome in *.
      destruct lz as [[|]|]; destruct jo, xo, e, ja, xa, jr, xr;
        cbv [allows style_reached negb andb orb] in *;
        try discriminate Hok; try exact H2;
        try (specialize (Hopen eq_refl); discriminate).
    + destruct H1 as [p Hp]. rewrite Hp. clear Hp H2.
      set (jo := operand_juxtaposes o) in *.
      set (xo := operand_operates o) in *.
      set (e := ends_open o) in *.
      set (ja := and_juxtaposes a) in *. set (xa := and_operates a) in *.
      set (jr := or_juxtaposes r) in *. set (xr := or_operates r) in *.
      clearbody jo xo e ja xa jr xr. clear - Hok Hopen.
      unfold style_outcome.
      destruct lz as [[|]|]; destruct jo, xo, e, ja, xa, jr, xr;
        cbv [allows style_reached negb andb orb] in *;
        try discriminate Hok; try (now exists p);
        try (specialize (Hopen eq_refl); discriminate).
  - rewrite Hbegins in *. rewrite andb_false_r.
    unfold style_outcome in *.
    destruct (allows (Some true) (operand_juxtaposes o) (operand_operates o)
              && negb (ends_open o
                       && (and_operates a || (or_operates r || true))))
      eqn:Hok.
    + destruct H1 as [n Hn]. rewrite Hn. clear Hn.
      apply andb_true_iff in Hok as [Hok _]. cbn [allows] in Hok.
      apply negb_true_iff in Hok. rewrite Hok.
      assert (Hlz : style_reached (Some true) (operand_juxtaposes o) false
                    = Some true)
        by (unfold style_reached; now destruct (operand_juxtaposes o)).
      rewrite Hlz. rewrite parse_operator_mixed.
      * now eexists.
      * rewrite begins_and_tokens, begins_or_tokens, Hbegins.
        now rewrite !orb_true_r.
    + destruct H1 as [p Hp]. rewrite Hp. now exists p.
Qed.

(** Every piece of every query parses as its style says. *)
Lemma grammar_parses :
  (forall p, primary_parses p)
  /\ (forall o, operand_parses o)
  /\ (forall a, and_parses a /\ forall r, or_parses r -> chain_parses a r)
  /\ (forall r, or_parses r)
  /\ (forall q, query_parses q).
Proof.
  apply grammar_ind.
  - apply a_term_parses.
  - intros q Hq. now apply in_parens_parses.
  - intros p Hp. now apply primary_operand_parses.
  - intros p Hp q Hq. now apply juxtaposed_parses.
  - intros o Ho. now apply negated_parses.
  - split; [apply no_and_parses | apply no_and_chain_parses].
  - intros o Ho a [Ha Hchain].
    split; [now apply and_then_parses|].
    intros r Hr. apply and_then_chain_parses; auto.
  - apply no_or_parses.
  - intros o Ho a [Ha _] r Hr. now apply or_then_parses.
  - intros o Ho a [_ Hchain] r Hr. apply query_chain_parses; auto.
Qed.

Lemma grammar_lexical :
  (forall p, Forall lexical (primary_tokens p))
  /\ (forall o, Forall lexical (operand_tokens o))
  /\ (forall a, Forall lexical (and_tokens a))
  /\ (forall r, Forall lexical (or_tokens r))
  /\ (forall q, Forall lexical (query_tokens q)).
Proof.
  apply grammar_ind; intros;
    cbn [primary_tokens operand_tokens and_tokens or_tokens query_tokens];
    repeat first [ assumption
                 | apply List.Forall_nil
                 | apply List.Forall_cons; [constructor|]
                 | apply Forall_app; split ].
Qed.

(** The parse of the tokens of a query of the grammar, with the stack
    depth that is enough for any scan of that length: the "cannot mix"
    error when the query mixes the two forms, a tree otherwise. *)
Lemma query_scan_outcome (q : Query) (fuel : nat) :
  5 * length (query_tokens q) + 9 <= fuel ->
  let x :=
    Parser.parse_operand fuel true
      (Parser.mk (mkScan (query_tokens q) None) None) in
  if mixes q then fst x = Throw (mkError CannotMixLazy 0)
  else exists n, fst x = Return n.
Proof.
  intros Hfuel x.
  destruct (proj2 (proj2 (proj2 (proj2 grammar_parses))) q) as [f0 H].
  specialize (H (Nat.max fuel f0) [] None None (Nat.le_max_r _ _)
                (or_introl eq_refl)).
  rewrite app_nil_r in H. cbn [begins_with_operator negb] in H.
  rewrite andb_true_r in H.
  assert (Hout : fst x <> OutOfFuel).
  { destruct (parser_spec_all (S (length (query_tokens q)))
                (Parser.mk (mkScan (query_tokens q) None) None)
                ltac:(cbn; lia)
                (proj2 (proj2 (proj2 (proj2 grammar_lexical))) q))
      as (_ & _ & Hp & _).
    specialize (Hp fuel true ltac:(cbv iota; lia)).
    destruct Hp as [_ Hp]. fold x in Hp. intros E. now rewrite E in Hp. }
  assert (Hx : Parser.parse_operand (Nat.max fuel f0) true
                 (Parser.mk (mkScan (query_tokens q) None) None) = x).
  { apply fuel_le_result; [|exact Hout].
    apply parse_fuel_mono. apply Nat.le_max_l. }
  rewrite Hx in H. unfold style_outcome, mixes in *. cbn [allows] in H.
  destruct (juxtaposes q && operates q); cbn [negb] in H.
  - destruct H as [p Hp]. now rewrite Hp.
  - destruct H as [n Hn]. exists n. now rewrite Hn.
Qed.

(** C4. A query that mixes juxtaposition with an explicit operator is
    rejected with the "cannot mix" error, and a query that keeps to one
    form compiles.  This holds for every query of the grammar, whatever
    its size, its parentheses and negations and the spelling of its
    tokens: [is_lazy] is one flag for the whole parse, so a
    juxtaposition inside parentheses and an operator outside them, or
    the reverse, are rejected too.  For all words [a], [b], [c] the
    queries [a b & c], [a & b c], [a b | c], [a | b c], [(a b) & c] and
    [a & (b c)] are rejected; [a b c] compiles, to a tree that evaluates
    exactly as the tree of [a | b | c] on every subject and context. *)
Theorem mixed_operator_style_rejected :
  (forall (q : Query) (items : list (nat * string)) (k fuel : nat),
      Forall2 spelling (query_tokens q) (map snd items) ->
      apart (spaces k) items ->
      5 * length (query_tokens q) + 9 <= fuel ->
      if mixes q
      then throws fuel (write items ++ spaces k) CannotMixLazy
      else exists n, compiles_to fuel (write items ++ spaces k) n)
  /\ (forall (a b c : string) (fuel : nat),
        is_word a = true -> is_word b = true -> is_word c = true ->
        (exists pos i,
            Interpreter.compile (12 + fuel)
              (Interpreter.new (a ++ " " ++ b ++ " & " ++ c)) =
            (Throw (mkError CannotMixLazy pos), i))
        /\ (exists pos i,
            Interpreter.compile (12 + fuel)
              (Interpreter.new (a ++ " & " ++ b ++ " " ++ c)) =
            (Throw (mkError CannotMixLazy pos), i))
        /\ (exists pos i,
            Interpreter.compile (12 + fuel)
              (Interpreter.new (a ++ " " ++ b ++ " | " ++ c)) =
            (Throw (mkError CannotMixLazy pos), i))
        /\ (exists pos i,
            Interpreter.compile (12 + fuel)
              (Interpreter.new (a ++ " | " ++ b ++ " " ++ c)) =
            (Throw (mkError CannotMixLazy pos), i))
        /\ (exists pos i,
            Interpreter.compile (16 + fuel)
              (Interpreter.new ("(" ++ a ++ " " ++ b ++ ") & " ++ c)) =
            (Throw (mkError CannotMixLazy pos), i))
        /\ (exists pos i,
            Interpreter.compile (16 + fuel)
              (Interpreter.new (a ++ " & (" ++ b ++ " " ++ c ++ ")")) =
            (Throw (mkError CannotMixLazy pos), i))
        /\ (let lazy_tree :=
              Op "|" (new_Term a) (Op "|" (new_Term b) (new_Term c)) in
            let or_tree :=
              Op "|" (Op "|" (new_Term a) (new_Term b)) (new_Term c) in
            (exists i, Interpreter.compile (12 + fuel)
                         (Interpreter.new (a ++ " " ++ b ++ " " ++ c)) =
                       (Return lazy_tree, i))
            /\ (exists i, Interpreter.compile (12 + fuel)
                            (Interpreter.new (a ++ " | " ++ b ++ " | " ++ c)) =
                          (Return or_tree, i))
            /\ forall s ctx, exec lazy_tree s ctx = exec or_tree s ctx)).
Proof.
  split.
  - intros q items k fuel Hspell Hapart Hfuel.
    pose proof (query_scan_outcome q fuel Hfuel) as H. cbv zeta in H.
    assert (Hscan : scans (TokenStream.new (write items ++ spaces k))
                      (mkScan (query_tokens q) None))
      by (apply scans_delivers; now apply delivers_write).
    rewrite <- (Nat.add_0_r fuel).
    destruct (mixes q).
    + apply (compile_scan_Throw _ _ fuel 0 (mkError CannotMixLazy 0) Hscan H).
    + destruct H as [n Hn]. exists n.
      apply (compile_scan_Return _ _ fuel 0 n Hscan Hn).
  - intros a b c fuel Ha Hb Hc.
    pose (and_ := mkToken "&" None). pose (or_ := mkToken "|" None).
    pose (open_ := mkToken "punc" (Some "(")).
    pose (close_ := mkToken "punc" (Some ")")).
    split; [|split; [|split; [|split; [|split; [|split]]]]].
    + compile_throws 12
        [(0, word_token a); (1, word_token b); (1, and_); (1, word_token c)].
    + compile_throws 12
        [(0, word_token a); (1, and_); (1, word_token b); (1, word_token c)].
    + compile_throws 12
        [(0, word_token a); (1, word_token b); (1, or_); (1, word_token c)].
    + compile_throws 12
        [(0, word_token a); (1, or_); (1, word_token b); (1, word_token c)].
    + compile_throws 16
        [(0, open_); (0, word_token a); (1, word_token b); (0, close_);
         (1, and_); (1, word_token c)].
    + compile_throws 16
        [(0, word_token a); (1, and_); (1, open_); (0, word_token b);
         (1, word_token c); (0, close_)].
    + intros lazy_tree or_tree. split; [|split].
      * compile_returns 12
          [(0, word_token a); (1, word_token b); (1, word_token c)].
      * compile_returns 12
          [(0, word_token a); (1, or_); (1, word_token b); (1, or_);
           (1, word_token c)].
      * intros s ctx. apply Op_or_assoc.
Qed.

Lemma mixed_operator_style_rejected_witness :
  throws 39 "(a b) & c" CannotMixLazy
  /\ (exists n, compiles_to 39 "!a (b c)" n)
  /\ (exists pos i,
      Interpreter.compile 12 (Interpreter.new "a b & c") =
      (Throw (mkError CannotMixLazy pos), i))
  /\ (exists pos i,
      Interpreter.compile 12 (Interpreter.new "a & b c") =
      (Throw (mkError CannotMixLazy pos), i))
  /\ (exists pos i,
      Interpreter.compile 16 (Interpreter.new "a & (b c)") =
      (Throw (mkError CannotMixLazy pos), i))
  /\ (exists i,
      Interpreter.compile 12 (Interpreter.new "a b c") =
      (Return (Op "|" (new_Term "a") (Op "|" (new_Term "b") (new_Term "c"))),
       i))
  /\ (exists i,
      Interpreter.compile 12 (Interpreter.new "a | b | c") =
      (Return (Op "|" (Op "|" (new_Term "a") (new_Term "b")) (new_Term "c")),
       i)).
Proof.
  destruct mixed_operator_style_rejected as [Hrule Hwords].
  destruct (Hwords "a" "b" "c" 0 eq_refl eq_refl eq_refl)
    as (H1 & H2 & _ & _ & _ & H3 & H4 & H5 & _).
  split; [|split; [|repeat split; assumption]].
  - apply (Hrule
             (query
                (primary
                   (in_parens
                      (query
                         (juxtaposed (a_term "a")
                            (query (primary (a_term "b")) no_and no_or))
                         no_and no_or)))
                (and_then (primary (a_term "c")) no_and) no_or)
             [(0, "("); (0, "a"); (1, "b"); (0, ")"); (1, "&"); (1, "c")]
             0 39).
    + repeat (constructor;
              [first [ apply spelling_word; reflexivity
                     | apply spelling_sign; auto
                     | apply spelling_punc; auto ]|]).
      constructor.
    + cbn. repeat split; try discriminate; reflexivity.
    + cbn. lia.
  - apply (Hrule
             (query
                (negated
                   (juxtaposed (a_term "a")
                      (query
                         (primary
                            (in_parens
                               (query
                                  (juxtaposed (a_term "b")
                                     (query (primary (a_term "c"))
                                        no_and no_or))
                                  no_and no_or)))
                         no_and no_or)))
                no_and no_or)
             [(0, "!"); (0, "a"); (1, "("); (0, "b"); (1, "c"); (0, ")")]
             0 39).
    + repeat (constructor;
              [first [ apply spelling_word; reflexivity
                     | apply spelling_sign; auto
                     | apply spelling_punc; auto ]|]).
      constructor.
    + cbn. repeat split; try discriminate; reflexivity.
    + cbn. lia.
Defined.
